(** * XML Line Mapping Tool: normalisation and LCS line alignment

    Shallow embedding of [src/appFinal.py] and [src/appVersion2.py].

    A Python [str] is a list of characters; characters are the code points
    below 256 ([ascii]).  Python integers are [Z].  A Python list read or
    written by index is a Rocq list with stdpp's lookup and insert, inside
    the option monad: [None] is a raised [IndexError]. *)

From Stdlib Require Import ZArith Lia Permutation Ascii.
From stdpp Require Import base option list strings.
From Stdlib Require DecimalString DecimalZ DecimalPos.

Local Open Scope Z_scope.

(** ** Python strings *)

Abbreviation str := (list ascii).

Definition lit (s : string) : str := String.list_ascii_of_string s.

(** [s.startswith(sub)] *)
Fixpoint startswith (sub s : str) : bool :=
  match sub, s with
  | [], _ => true
  | _ :: _, [] => false
  | a :: sub', b :: s' => bool_decide (a = b) && startswith sub' s'
  end.

(** Lowest index at which [sub] occurs in [s], if any. *)
Fixpoint find_nat (sub s : str) : option nat :=
  if startswith sub s then Some 0%nat
  else match s with
       | [] => None
       | _ :: s' => S <$> find_nat sub s'
       end.

(** [s.find(sub, start)] for [start >= 0]: the lowest index [>= start] at
    which [sub] occurs, or [-1]. *)
Definition find (s sub : str) (start : Z) : Z :=
  if Z.of_nat (length s) <? start then -1
  else match find_nat sub (drop (Z.to_nat start) s) with
       | Some k => start + Z.of_nat k
       | None => -1
       end.

(** [sub in s] *)
Definition contains (sub s : str) : bool :=
  negb (find s sub 0 =? -1).

(** [s.split(sep, 1)[0]]: the text before the first [sep], all of [s] when
    there is none. *)
Definition split1_head (s sep : str) : str :=
  match find_nat sep s with
  | Some k => take k s
  | None => s
  end.

(** [c.isspace()] on the code points below 256: tab, LF, VT, FF, CR, the
    separators FS GS RS US, space, NEL and NBSP. *)
Definition isspace (c : ascii) : bool :=
  let n := nat_of_ascii c in
  ((9 <=? n) && (n <=? 13) || (28 <=? n) && (n <=? 32)
   || (n =? 133) || (n =? 160))%nat.

(** [c.isalnum()] on the code points below 256: the ASCII digits and letters
    and the Latin-1 letters, superscript digits and vulgar fractions. *)
Definition isalnum (c : ascii) : bool :=
  let n := nat_of_ascii c in
  ((48 <=? n) && (n <=? 57) || (65 <=? n) && (n <=? 90)
   || (97 <=? n) && (n <=? 122)
   || (n =? 170) || (n =? 178) || (n =? 179) || (n =? 181)
   || (n =? 185) || (n =? 186) || (188 <=? n) && (n <=? 190)
   || (192 <=? n) && (n <=? 214) || (216 <=? n) && (n <=? 246)
   || (248 <=? n) && (n <=? 255))%nat.

Fixpoint lstrip (s : str) : str :=
  match s with
  | [] => []
  | c :: s' => if isspace c then lstrip s' else s
  end.

Definition rstrip (s : str) : str := rev (lstrip (rev s)).

(** [s.strip()] *)
Definition strip (s : str) : str := rstrip (lstrip s).

(** ** normalize_line *)

Definition LINE_COMMENT : str := lit "//".
Definition BLOCK_OPEN : str := lit "/*".
Definition BLOCK_CLOSE : str := lit "*/".

(** The [if '//' in line] statement. *)
Definition strip_line_comment (line : str) : str :=
  if contains LINE_COMMENT line then split1_head line LINE_COMMENT else line.

(** One pass through the [while] statement: [Some line'] when the body ran
    to its end and rebound [line], [None] when the loop is left (its
    condition is false, or the [break]). *)
Definition block_step (line : str) : option str :=
  if contains BLOCK_OPEN line && contains BLOCK_CLOSE line then
    let start := find line BLOCK_OPEN 0 in
    let end_ := find line BLOCK_CLOSE (start + 2) in
    if end_ =? -1 then None
    else Some (take (Z.to_nat start) line ++ drop (Z.to_nat (end_ + 2)) line)
  else None.

Fixpoint block_loop (fuel : nat) (line : str) : str :=
  match fuel with
  | O => line
  | S fuel' =>
      match block_step line with
      | Some line' => block_loop fuel' line'
      | None => line
      end
  end.

(** Every pass shortens the line, so its length bounds the passes. *)
Definition strip_block_comments (line : str) : str :=
  block_loop (length line) line.

Definition normalize_line (line : str) : str :=
  strip (strip_block_comments (strip_line_comment line)).

(** ** Python lists read and written by index *)

Definition len {A} (l : list A) : Z := Z.of_nat (length l).

(** An index [k] counts from the end when negative; [None] outside
    [-len .. len-1]. *)
Definition norm_index {A} (l : list A) (k : Z) : option nat :=
  let k' := if k <? 0 then len l + k else k in
  if (0 <=? k') && (k' <? len l) then Some (Z.to_nat k') else None.

(** [l[k]] *)
Definition getitem {A} (l : list A) (k : Z) : option A :=
  p ← norm_index l k; l !! p.

(** [l[k] = x] *)
Definition setitem {A} (l : list A) (k : Z) (x : A) : option (list A) :=
  p ← norm_index l k; Some (<[p := x]> l).

(** [range(n)] *)
Definition range (n : Z) : list Z := map Z.of_nat (seq 0 (Z.to_nat n)).

(** [for x in xs: s = body(x, s)], stopping at the first exception. *)
Fixpoint for_each {S} (body : Z → S → option S) (xs : list Z) (s : S)
  : option S :=
  match xs with
  | [] => Some s
  | x :: xs' => s' ← body x s; for_each body xs' s'
  end.

(** [sum(xs)] *)
Definition py_sum (xs : list Z) : Z := fold_left Z.add xs 0.

(** ** map_lines (appFinal.py) *)

Definition table := list (list Z).

(** [[[0] * (m + 1) for _ in range(n + 1)]] *)
Definition dp_init (n m : Z) : table :=
  map (λ _, replicate (Z.to_nat (m + 1)) 0) (range (n + 1)).

(** [dp[i][j]] *)
Definition dp_get (dp : table) (i j : Z) : option Z :=
  row ← getitem dp i; getitem row j.

(** [dp[i][j] = v]: the row object is updated in place; the rows of [dp]
    are distinct objects. *)
Definition dp_set (dp : table) (i j v : Z) : option table :=
  row ← getitem dp i; row' ← setitem row j v; setitem dp i row'.

(** The three operation tags ["match"], ["ins"], ["del"]. *)
Inductive kind := k_match | k_ins | k_del.

Definition op : Type := kind * Z * Z.

Definition to_mapping (o : op) : Z * Z :=
  let '(k, oi, nj) := o in
  match k with
  | k_match => (oi, nj)
  | k_del => (oi, -1)
  | k_ins => (-1, nj)
  end.

Section MapLines.
Context {A : Type} `{EqDecision A}.

(** Body of the inner [for j] statement. *)
Definition dp_cell (oi : A) (new_lines : list A) (i j : Z) (dp : table)
  : option table :=
  nj ← getitem new_lines j;
  if bool_decide (oi = nj) then
    a ← dp_get dp i j;
    dp_set dp (i + 1) (j + 1) (a + 1)
  else
    a ← dp_get dp i (j + 1);
    b ← dp_get dp (i + 1) j;
    dp_set dp (i + 1) (j + 1) (Z.max a b).

(** Body of the outer [for i] statement. *)
Definition dp_row (original_lines new_lines : list A) (m i : Z) (dp : table)
  : option table :=
  oi ← getitem original_lines i;
  for_each (dp_cell oi new_lines i) (range m) dp.

Definition build_dp (original_lines new_lines : list A) : option table :=
  let n := len original_lines in
  let m := len new_lines in
  for_each (dp_row original_lines new_lines m) (range n) (dp_init n m).

(** Body of the backtracking [while] statement, from the state
    [(i, j, ops)] to the next one. *)
Definition bt_body (original_lines new_lines : list A) (dp : table)
    (i j : Z) (ops : list op) : option (Z * Z * list op) :=
  is_match ←
    (if (0 <? i) && (0 <? j) then
       oi ← getitem original_lines (i - 1);
       nj ← getitem new_lines (j - 1);
       Some (bool_decide (oi = nj))
     else Some false);
  if is_match : bool then
    Some (i - 1, j - 1, ops ++ [(k_match, i, j)])
  else
    is_ins ←
      (if 0 <? j then
         if i =? 0 then Some true
         else
           a ← dp_get dp i (j - 1);
           b ← dp_get dp (i - 1) j;
           Some (b <=? a)
       else Some false);
    if is_ins : bool then
      Some (i, j - 1, ops ++ [(k_ins, -1, j)])
    else
      Some (i - 1, j, ops ++ [(k_del, i, -1)]).

(** The [while i > 0 or j > 0] statement; [None] also when [fuel] passes
    do not reach its end. *)
Fixpoint bt_loop (fuel : nat) (original_lines new_lines : list A)
    (dp : table) (i j : Z) (ops : list op) : option (list op) :=
  if (0 <? i) || (0 <? j) then
    match fuel with
    | O => None
    | S fuel' =>
        st ← bt_body original_lines new_lines dp i j ops;
        let '(i', j', ops') := st in
        bt_loop fuel' original_lines new_lines dp i' j' ops'
    end
  else Some ops.

(** Every pass lowers [i + j] by one or two, so [n + m] passes are
    enough. *)
Definition map_lines (original_lines new_lines : list A)
  : option (list (Z * Z)) :=
  let n := len original_lines in
  let m := len new_lines in
  dp ← build_dp original_lines new_lines;
  ops ← bt_loop (Z.to_nat (n + m)) original_lines new_lines dp n m [];
  let ops := rev ops in
  Some (map to_mapping ops).
End MapLines.

(** ** main (appFinal.py): per-version counts and output file name *)

Definition matched (mappings : list (Z * Z)) : Z :=
  py_sum (map (λ _, 1)
    (List.filter (λ '(o, n), (0 <? o) && (0 <? n)) mappings)).

Definition removed (mappings : list (Z * Z)) : Z :=
  py_sum (map (λ _, 1)
    (List.filter (λ '(o, n), (0 <? o) && (n =? -1)) mappings)).

Definition added (mappings : list (Z * Z)) : Z :=
  py_sum (map (λ _, 1)
    (List.filter (λ '(o, n), (o =? -1) && (0 <? n)) mappings)).

Definition underscore : ascii := "_"%char.

Definition safe_test (test_name : str) : str :=
  let joined :=
    map (λ c, if isalnum c || contains [c] (lit "-_") then c else underscore)
        test_name in
  match joined with
  | [] => lit "TEST"
  | _ => joined
  end.

Definition output_filename (test_name : str) : str :=
  safe_test test_name ++ lit ".xml".

(** ** appVersion2.py *)

Module V2.

(** What [map_lines] hands back to [main]: a Python object. *)
Inductive value := PyNone | PyList (items : list (Z * Z)).

Inductive exn := IndexError | TypeError.

Inductive result (T : Type) := Ok (x : T) | Raise (e : exn).
Arguments Ok {T} x.
Arguments Raise {T} e.

Definition normalize_line (line : str) : str :=
  strip (strip_block_comments (strip_line_comment line)).

(** The body ends after the table is built: falling off the end of a
    function returns [None]. *)
Definition map_lines {A} `{EqDecision A} (original_lines new_lines : list A)
  : result value :=
  match build_dp original_lines new_lines with
  | Some dp => Ok PyNone
  | None => Raise IndexError
  end.

(** Iterating an object: [None] is not iterable. *)
Definition py_iter (v : value) : result (list (Z * Z)) :=
  match v with
  | PyNone => Raise TypeError
  | PyList items => Ok items
  end.

(** One pass of the [for i, vpath] statement of [main], after the version
    file is read: the new [all_mappings] and the [matched] count. *)
Definition version_pass {A} `{EqDecision A}
    (original_lines new_lines : list A) (all_mappings : list value)
  : result (list value * Z) :=
  match map_lines original_lines new_lines with
  | Raise e => Raise e
  | Ok mappings =>
      let all_mappings := all_mappings ++ [mappings] in
      match py_iter mappings with
      | Raise e => Raise e
      | Ok items =>
          let matched :=
            py_sum (map (λ _, 1)
              (List.filter (λ '(_, new_num), negb (new_num =? -1)) items)) in
          Ok (all_mappings, matched)
      end
  end.

End V2.

(** ** Vocabulary of the properties *)

(** The double quote character. *)
Definition dq : ascii := "034"%char.

(** [1, 2, ..., n] *)
Definition positions (n : Z) : list Z := map Z.of_nat (seq 1 (Z.to_nat n)).

(** The origLine values other than [-1], in order. *)
Definition orig_positions (mappings : list (Z * Z)) : list Z :=
  List.filter (λ x, negb (x =? -1)) (map fst mappings).

(** The newLine values other than [-1], in order. *)
Definition new_positions (mappings : list (Z * Z)) : list Z :=
  List.filter (λ x, negb (x =? -1)) (map snd mappings).

(** A LocationMapping is a match, a deletion or an insertion. *)
Definition wf_mapping (p : Z * Z) : Prop :=
  (0 < p.1 ∧ 0 < p.2) ∨ (0 < p.1 ∧ p.2 = -1) ∨ (p.1 = -1 ∧ 0 < p.2).

(** A table of [n + 1] rows of [m + 1] cells. *)
Definition dims (n m : Z) (dp : table) : Prop :=
  length dp = Z.to_nat (n + 1) ∧
  Forall (λ row, length row = Z.to_nat (m + 1)) dp.

Definition all_zero (dp : table) : Prop :=
  Forall (Forall (λ v, v = 0)) dp.

(** The two sequences share no line. *)
Definition disjoint_lines {A} (original_lines new_lines : list A) : Prop :=
  ∀ i j oi nj,
    original_lines !! i = Some oi → new_lines !! j = Some nj → oi ≠ nj.

(** The three moves of the backtracking from [(i, j)]: the operation
    appended and the next position. *)
Inductive bt_move (i j : Z) : op → Z → Z → Prop :=
| move_match : 0 < i → 0 < j → bt_move i j (k_match, i, j) (i - 1) (j - 1)
| move_ins : 0 < j → bt_move i j (k_ins, -1, j) i (j - 1)
| move_del : 0 < i → bt_move i j (k_del, i, -1) (i - 1) j.

(** A mapping list that covers the original positions [1..i] and the new
    positions [1..j]. *)
Definition aligned (i j : Z) (mappings : list (Z * Z)) : Prop :=
  orig_positions mappings = positions i ∧
  new_positions mappings = positions j ∧
  Forall wf_mapping mappings.

(** The two characters [a], [b] stand at the indices [q], [q + 1] of [s]:
    the two-character marker [a b] occurs in [s] at [q]. *)
Definition pair_at (a b : ascii) (s : str) (q : nat) : Prop :=
  s !! q = Some a ∧ s !! S q = Some b.

(** [s] is empty or starts with a character that is not white space. *)
Definition head_ok (s : str) : Prop :=
  match s with
  | [] => True
  | c :: _ => isspace c = false
  end.

(** ** Vocabulary of the further properties *)

(** [dp[i][j]] at indices inside the table. *)
Definition cell (dp : list (list Z)) (i j : nat) : option Z :=
  row ← dp !! i; row !! j.

(** The lines of the original that the mapping list pairs with a line of
    the new sequence, in the order of the list. *)
Definition matched_lines {A} (original_lines : list A)
    (mappings : list (Z * Z)) : list A :=
  omap (λ '(o, n), if (0 <? o) && (0 <? n)
                   then original_lines !! Z.to_nat (o - 1) else None)
       mappings.

(** [c] is a subsequence of both [l1] and [l2]. *)
Definition common {A} (c l1 l2 : list A) : Prop :=
  c `sublist_of` l1 ∧ c `sublist_of` l2.

(** [v] is the length of a longest common subsequence of [l1] and [l2]. *)
Definition lcs_length {A} (l1 l2 : list A) (v : Z) : Prop :=
  (∃ c, common c l1 l2 ∧ len c = v) ∧ ∀ c, common c l1 l2 → len c <= v.

Section Lcs.
Context {A : Type} `{EqDecision A}.

(** The recurrence of the table on the first [i] original and the first
    [j] new lines. *)
Fixpoint lcs_len (original_lines new_lines : list A) (i j : nat) {struct i}
  : Z :=
  match i with
  | O => 0
  | S i' =>
      (fix row (j : nat) : Z :=
         match j with
         | O => 0
         | S j' =>
             match original_lines !! i', new_lines !! j' with
             | Some x, Some y =>
                 if bool_decide (x = y)
                 then lcs_len original_lines new_lines i' j' + 1
                 else Z.max (lcs_len original_lines new_lines i' (S j'))
                            (row j')
             | _, _ => 0
             end
         end) j
  end.

(** The rows up to [k] and the cells up to column [c] of row [k + 1] hold
    the recurrence, the cells after them hold 0. *)
Definition written (original_lines new_lines : list A) (k c : nat)
    (dp : table) : Prop :=
  dims (len original_lines) (len new_lines) dp ∧
  ∀ i j, (i ≤ length original_lines)%nat → (j ≤ length new_lines)%nat →
    cell dp i j =
      Some (if decide (i ≤ k ∨ i = S k ∧ j ≤ c)%nat
            then lcs_len original_lines new_lines i j else 0).

(** The runs of the backtracking from [(i, j)] to [(0, 0)], with the test
    that chose each operation. *)
Inductive bt_run (original_lines new_lines : list A) (dp : table)
  : Z → Z → list op → Prop :=
| run_end : bt_run original_lines new_lines dp 0 0 []
| run_match i j x tr :
    0 < i → 0 < j →
    original_lines !! Z.to_nat (i - 1) = Some x →
    new_lines !! Z.to_nat (j - 1) = Some x →
    bt_run original_lines new_lines dp (i - 1) (j - 1) tr →
    bt_run original_lines new_lines dp i j ((k_match, i, j) :: tr)
| run_ins i j tr :
    0 <= i → 0 < j →
    (i = 0 ∨ 0 < i ∧ ∃ x y a b,
        original_lines !! Z.to_nat (i - 1) = Some x ∧
        new_lines !! Z.to_nat (j - 1) = Some y ∧ x ≠ y ∧
        dp_get dp i (j - 1) = Some a ∧ dp_get dp (i - 1) j = Some b ∧
        b <= a) →
    bt_run original_lines new_lines dp i (j - 1) tr →
    bt_run original_lines new_lines dp i j ((k_ins, -1, j) :: tr)
| run_del i j tr :
    0 < i → 0 <= j →
    (j = 0 ∨ 0 < j ∧ ∃ x y a b,
        original_lines !! Z.to_nat (i - 1) = Some x ∧
        new_lines !! Z.to_nat (j - 1) = Some y ∧ x ≠ y ∧
        dp_get dp i (j - 1) = Some a ∧ dp_get dp (i - 1) j = Some b ∧
        a < b) →
    bt_run original_lines new_lines dp (i - 1) j tr →
    bt_run original_lines new_lines dp i j ((k_del, i, -1) :: tr).

End Lcs.

(** Only white space characters. *)
Definition all_space (ws : str) : Prop := Forall (λ c, isspace c = true) ws.

(** A character that [safe_test] keeps: a letter or digit, '-' or '_'. *)
Definition safe_char (c : ascii) : Prop :=
  isalnum c = true ∨ c = "-"%char ∨ c = "_"%char.

(** ** read_lines, build_xml and main *)

(** [str(z)]: the decimal digits, behind a '-' when [z] is negative. *)
Definition py_str (z : Z) : str :=
  lit (DecimalString.NilZero.string_of_int (Z.to_int z)).

Fixpoint lstrip_chars (chars s : str) : str :=
  match s with
  | [] => []
  | c :: s' => if bool_decide (c ∈ chars) then lstrip_chars chars s' else s
  end.

(** [s.rstrip(chars)] *)
Definition rstrip_chars (chars s : str) : str :=
  rev (lstrip_chars chars (rev s)).

(** Carriage return and line feed, the argument ["\r\n"] of [rstrip]. *)
Definition CRLF : str := ["013"; "010"]%char.

(** An element of an ElementTree: tag, attributes in the order they were
    given, children in the order they were appended. *)
#[warnings="-register-all"]
Inductive element :=
| Element (tag : str) (attrib : list (str * str)) (children : list element).

(** Exceptions that leave a function, by the classes that the handlers of
    the program tell apart: [ValueError] is an exception of that class or
    of a subclass (such as [UnicodeDecodeError]), [OSErrorOf text] one of
    [OSError] or of a subclass, with its text, and [Other name] one of a
    class outside [ValueError] and [OSError]. *)
Inductive raised :=
| EOFError | IndexError | TypeError | ValueError
| OSErrorOf (text : str)
| Other (name : str).

(** What opening and reading the file at a path does: it yields the lines
    of the file, each with its line ending, or raises an exception. *)
Inductive opened :=
| Lines (raw_lines : list str)
| OpenRaises (e : raised).

(** What the next [input] call finds on standard input: a line, or
    something on which the call raises an exception. *)
Inductive typed :=
| Typed (line : str)
| InputRaises (e : raised).

(** What indenting the tree, opening the output file, writing the tree and
    closing the file do: all succeed, or one of them raises an exception;
    [touched] tells whether the output file had been created or truncated
    by then. *)
Inductive write_outcome :=
| WriteOk
| WriteRaises (touched : bool) (e : raised).

(** What a run does to the outside, in order: a line printed on standard
    output or on standard error, a [print] call that raised an exception,
    the prompt of an [input] call, a file opened for reading, the output
    file created or truncated with a content that is not known, and the
    whole tree written to the output file (its indentation is not kept
    apart). *)
Inductive event :=
| Stdout (line : str)
| Stderr (line : str)
| Fails (e : raised)
| Prompt (text : str)
| Open (path : str)
| Touched (path : str)
| Written (path : str) (root : element).

(** What is still to come on standard input, what the coming [print]
    calls will do ([None]: the line is printed; [Some e]: the call raises
    [e]; past the end of the list every line is printed), and what
    happened so far. *)
Record world := World {
  stdin : list typed;
  prints : list (option raised);
  trace : list event
}.

(** How a piece of [main] ends: it goes on with a value, [main] returns a
    code, or an exception is raised. *)
Inductive result (T : Type) :=
| Next (x : T)
| Return (code : Z)
| Raise (e : raised).
Arguments Next {T} x.
Arguments Return {T} code.
Arguments Raise {T} e.

Definition io (T : Type) : Type := world → world * result T.

#[local] Instance io_ret : MRet io := λ T x w, (w, Next x).

#[local] Instance io_bind : MBind io := λ T U f m w,
  match m w with
  | (w', Next x) => f x w'
  | (w', Return code) => (w', Return code)
  | (w', Raise e) => (w', Raise e)
  end.

(** Something that happens and cannot fail on its own. *)
Definition emit (e : event) : io unit :=
  λ w, (World (stdin w) (prints w) (trace w ++ [e]), Next ()).

(** [print(line)] and [print(line, file=sys.stderr)] *)
Definition print (line : event) : io unit :=
  λ w,
    match prints w with
    | Some e :: rest =>
        (World (stdin w) rest (trace w ++ [Fails e]), Raise e)
    | None :: rest => (World (stdin w) rest (trace w ++ [line]), Next ())
    | [] => (World (stdin w) [] (trace w ++ [line]), Next ())
    end.

(** [return code] in [main] *)
Definition return_ {T} (code : Z) : io T := λ w, (w, Return code).

Definition raise {T} (e : raised) : io T := λ w, (w, Raise e).

(** [try: m] with [except ValueError: h] *)
Definition try_value {T} (m h : io T) : io T :=
  λ w,
    match m w with
    | (w', Raise ValueError) => h w'
    | out => out
    end.

(** [try: m] with [except OSError as e: h], where [h] gets the text of
    [e]. *)
Definition try_os {T} (m : io T) (h : str → io T) : io T :=
  λ w,
    match m w with
    | (w', Raise (OSErrorOf text)) => h text w'
    | out => out
    end.

(** [input(prompt)]: the prompt is written and a line is read; at the end
    of the input [EOFError] is raised, and where the call fails, its
    exception. *)
Definition input (prompt : str) : io str :=
  λ w,
    let tr := trace w ++ [Prompt prompt] in
    match stdin w with
    | [] => (World [] (prints w) tr, Raise EOFError)
    | Typed line :: rest => (World rest (prints w) tr, Next line)
    | InputRaises e :: rest => (World rest (prints w) tr, Raise e)
    end.

(** [input(prompt).strip()] *)
Definition input_strip (prompt : str) : io str :=
  line ← input prompt; mret (strip line).

(** [for x in xs: s = body(x, s)] inside [main]. *)
Fixpoint for_io {X S} (body : X → S → io S) (xs : list X) (s : S) : io S :=
  match xs with
  | [] => mret s
  | x :: xs' => s' ← body x s; for_io body xs' s'
  end.

(** [enumerate(xs, start=1)] *)
Definition enumerate1 {X} (xs : list X) : list (Z * X) :=
  zip (map (λ k, Z.of_nat k) (seq 1 (length xs))) xs.

Definition location (p : Z * Z) : element :=
  Element (lit "LOCATION")
    [(lit "ORIG", py_str p.1); (lit "NEW", py_str p.2)] [].

Definition version (idx : Z) (mappings : list (Z * Z)) : element :=
  Element (lit "VERSION")
    [(lit "NUMBER", py_str idx); (lit "CHECKED", lit "TRUE")]
    (map location mappings).

Section Run.

(** [int(s)], [None] for a [ValueError]. *)
Variable py_int : str → option Z.
(** [os.path.basename] *)
Variable basename : str → str.
(** Opening a path for reading. *)
Variable readable : str → opened.
(** Writing a tree to the file of a name. *)
Variable writable : str → element → write_outcome.

Definition read_lines (path : str) : io (option (list str)) :=
  try_os
    (emit (Open path);;
     match readable path with
     | Lines raw_lines =>
         let raw_lines := map (rstrip_chars CRLF) raw_lines in
         let norm_lines := map normalize_line raw_lines in
         mret (Some norm_lines)
     | OpenRaises e => raise e
     end)
    (λ text,
       print (Stderr (lit "Error: Failed to open '" ++ path ++
                      lit "' for reading: " ++ text));;
       mret None).

(** The children that the outer loop of [build_xml] appends to the root:
    a VERSION element for each pair of [zip(version_paths, all_mappings)],
    numbered from [idx]. *)
Fixpoint versions (idx : Z) (pairs : list (str * list (Z * Z)))
  : list element :=
  match pairs with
  | [] => []
  | (version_path, mappings) :: rest =>
      version idx mappings :: versions (idx + 1) rest
  end.

Definition build_xml (test_name original_path : str)
    (version_paths : list str) (all_mappings : list (list (Z * Z)))
  : element :=
  let file_attr := basename original_path in
  Element (lit "TEST")
    [(lit "NAME", test_name); (lit "FILE", file_attr)]
    (versions 1 (zip version_paths all_mappings)).

(** The [try] statement that asks for the number of versions. *)
Definition ask_number : io Z :=
  try_value
    (num_versions_str ←
       input_strip (lit "Enter number of versions to compare: ");
     match py_int num_versions_str with
     | Some num_versions =>
         if num_versions <=? 0 then raise ValueError else mret num_versions
     | None => raise ValueError
     end)
    (print (Stderr (lit "Error: number of versions must be a positive integer."));;
     return_ 1).

(** Body of the loop that asks for the version paths. *)
Definition ask_path (i : Z) (version_paths : list str) : io (list str) :=
  path ← input_strip (lit "Enter path for VERSION " ++ py_str (i + 1) ++
                      lit ": ");
  match path with
  | [] =>
      print (Stderr (lit "Error: empty path is not allowed."));;
      return_ 1
  | _ => mret (version_paths ++ [path])
  end.

(** Body of the loop over the versions. *)
Definition map_version (original_lines : list str) (iv : Z * str)
    (all_mappings : list (list (Z * Z))) : io (list (list (Z * Z))) :=
  let '(i, vpath) := iv in
  new_lines ← read_lines vpath;
  match new_lines with
  | None => return_ 1
  | Some new_lines =>
      match map_lines original_lines new_lines with
      | None => raise IndexError
      | Some mappings =>
          let all_mappings := all_mappings ++ [mappings] in
          print (Stdout (lit "VERSION " ++ py_str i ++ lit ": " ++
                         py_str (matched mappings) ++
                         lit " line(s) matched, " ++
                         py_str (removed mappings) ++
                         lit " line(s) removed, " ++
                         py_str (added mappings) ++
                         lit " line(s) added."));;
          mret all_mappings
      end
  end.

(** The end of [main]: the [try] statement that writes the tree to the
    output file and prints the closing message, and [return 0] behind
    it. *)
Definition write_xml (test_name : str) (root : element) : io unit :=
  let output_filename := output_filename test_name in
  try_os
    (match writable output_filename root with
     | WriteOk => emit (Written output_filename root)
     | WriteRaises touched e =>
         (if touched then emit (Touched output_filename) else mret ());;
         raise e
     end;;
     print (Stdout (lit "XML mappings written to " ++ output_filename)))
    (λ text,
       print (Stderr (lit "Error: Failed to write XML file: " ++ text));;
       return_ 1);;
  return_ 0.

(** The prompts of [main] up to the version paths. *)
Definition ask_inputs : io (str * str * list str) :=
  print (Stdout (lit "=== XML Line Mapping Tool (Python) ==="));;
  original_path ← input_strip (lit "Enter ORIGINAL file path: ");
  match original_path with
  | [] =>
      print (Stderr (lit "Error: ORIGINAL file path is required."));;
      return_ 1
  | _ =>
      test_name ← input_strip (lit "Enter TEST name (e.g., TEST1): ");
      let test_name :=
        match test_name with [] => lit "TEST" | _ => test_name end in
      num_versions ← ask_number;
      version_paths ← for_io ask_path (range num_versions) [];
      mret (original_path, test_name, version_paths)
  end.

Definition main : io unit :=
  inputs ← ask_inputs;
  let '(original_path, test_name, version_paths) := inputs in
  original_lines ← read_lines original_path;
  match original_lines with
  | None => return_ 1
  | Some original_lines =>
      all_mappings ←
        for_io (map_version original_lines) (enumerate1 version_paths) [];
      let root := build_xml test_name original_path version_paths
                    all_mappings in
      write_xml test_name root
  end.

End Run.

(** [main] and [build_xml] of appVersion2.py; its [read_lines], its
    prompts and the writing of the file are those of appFinal.py, line by
    line. *)
Module V2Run.

Definition to_raised (e : V2.exn) : raised :=
  match e with
  | V2.IndexError => IndexError
  | V2.TypeError => TypeError
  end.

(** A step that may raise, inside [main]. *)
Definition lift {T} (r : V2.result T) : io T :=
  match r with
  | V2.Ok x => mret x
  | V2.Raise e => raise (to_raised e)
  end.

(** [len(v)] *)
Definition py_len (v : V2.value) : V2.result Z :=
  match v with
  | V2.PyNone => V2.Raise V2.TypeError
  | V2.PyList items => V2.Ok (len items)
  end.

(** The outer loop of [build_xml]; the inner loop iterates [mappings]. *)
Fixpoint versions (idx : Z) (pairs : list (str * V2.value))
  : V2.result (list element) :=
  match pairs with
  | [] => V2.Ok []
  | (version_path, mappings) :: rest =>
      match V2.py_iter mappings with
      | V2.Raise e => V2.Raise e
      | V2.Ok items =>
          match versions (idx + 1) rest with
          | V2.Raise e => V2.Raise e
          | V2.Ok elems => V2.Ok (version idx items :: elems)
          end
      end
  end.

Section Run.
Variable py_int : str → option Z.
Variable basename : str → str.
Variable readable : str → opened.
Variable writable : str → element → write_outcome.

Definition build_xml (test_name original_path : str)
    (version_paths : list str) (all_mappings : list V2.value)
  : V2.result element :=
  let file_attr := basename original_path in
  match versions 1 (zip version_paths all_mappings) with
  | V2.Raise e => V2.Raise e
  | V2.Ok elems =>
      V2.Ok (Element (lit "TEST")
               [(lit "NAME", test_name); (lit "FILE", file_attr)] elems)
  end.

(** Body of the loop over the versions. *)
Definition map_version (original_lines : list str) (iv : Z * str)
    (all_mappings : list V2.value) : io (list V2.value) :=
  let '(i, vpath) := iv in
  new_lines ← read_lines readable vpath;
  match new_lines with
  | None => return_ 1
  | Some new_lines =>
      mappings ← lift (V2.map_lines original_lines new_lines);
      let all_mappings := all_mappings ++ [mappings] in
      items ← lift (V2.py_iter mappings);
      let matched :=
        py_sum (map (λ _, 1)
          (List.filter (λ '(_, new_num), negb (new_num =? -1)) items)) in
      total ← lift (py_len mappings);
      print (Stdout (lit "VERSION " ++ py_str i ++ lit ": " ++
                     py_str matched ++ lit " line(s) matched, " ++
                     py_str (total - matched) ++
                     lit " line(s) changed/removed."));;
      mret all_mappings
  end.

Definition main : io unit :=
  inputs ← ask_inputs py_int;
  let '(original_path, test_name, version_paths) := inputs in
  original_lines ← read_lines readable original_path;
  match original_lines with
  | None => return_ 1
  | Some original_lines =>
      all_mappings ←
        for_io (map_version original_lines) (enumerate1 version_paths) [];
      root ← lift (build_xml test_name original_path version_paths
                     all_mappings);
      write_xml writable test_name root
  end.

End Run.
End V2Run.

(** ** Vocabulary of the properties of a run *)

(** From every world, [m] takes [used] from the head of standard input,
    adds the events [evs] to the trace and ends with [r] such that
    [Q used evs r]. *)
Definition io_spec {T} (m : io T)
    (Q : list typed → list event → result T → Prop) : Prop :=
  ∀ w, ∃ used evs,
    stdin w = used ++ stdin (m w).1 ∧
    trace (m w).1 = trace w ++ evs ∧
    Q used evs (m w).2.

(** Events of printing: lines written and [print] calls that failed. *)
Definition printing (e : event) : Prop :=
  match e with
  | Stdout _ | Stderr _ | Fails _ => True
  | Prompt _ | Open _ | Touched _ | Written _ _ => False
  end.

(** Events of the dialogue: printing and prompts. *)
Definition asking (e : event) : Prop :=
  match e with
  | Stdout _ | Stderr _ | Fails _ | Prompt _ => True
  | Open _ | Touched _ | Written _ _ => False
  end.

(** Events of the reading of the files: files opened and printing. *)
Definition reading (e : event) : Prop :=
  match e with
  | Stdout _ | Stderr _ | Fails _ | Open _ => True
  | Prompt _ | Touched _ | Written _ _ => False
  end.

(** Events that change the output file. *)
Definition is_written (e : event) : Prop :=
  match e with
  | Touched _ | Written _ _ => True
  | _ => False
  end.

(** The lines typed in a successful dialogue, in order, and what [main]
    takes from them: the path of the original, the run name, the number of
    versions and their paths. *)
Definition dialogue (py_int : str → option Z) (typed_lines : list typed)
    (original_path test_name : str) (version_paths : list str) : Prop :=
  ∃ line1 line2 line3 lines,
    typed_lines = Typed line1 :: Typed line2 :: Typed line3 ::
                  map Typed lines ∧
    original_path = strip line1 ∧ original_path ≠ [] ∧
    test_name = (match strip line2 with
                 | [] => lit "TEST"
                 | _ => strip line2
                 end) ∧
    py_int (strip line3) = Some (len lines) ∧ 0 < len lines ∧
    version_paths = map strip lines ∧
    Forall (λ path, path ≠ []) version_paths.


Definition children (e : element) : list element :=
  match e with Element _ _ cs => cs end.

(** The version file at [vpath] can be read and [mappings] is the result
    of [map_lines] on the original lines and its normalised lines. *)
Definition version_ok (readable : str → opened) (original_lines : list str)
    (vpath : str) (mappings : list (Z * Z)) : Prop :=
  ∃ raw_lines, readable vpath = Lines raw_lines ∧
    map_lines original_lines (map normalize_line raw_lines) = Some mappings.

(** After a successful dialogue the original and every version could be
    read, and [all_mappings] holds the results of [map_lines]. *)
Definition all_read (readable : str → opened) (original_path : str)
    (version_paths : list str) (all_mappings : list (list (Z * Z))) : Prop :=
  ∃ raw_lines,
    readable original_path = Lines raw_lines ∧
    Forall2 (version_ok readable (map normalize_line raw_lines))
            version_paths all_mappings.

(** How an exception [e] raised in a [try] statement with
    [except OSError] ends, where the handler prints [line] and returns 1:
    the events of the handler and the end of [main]. *)
Definition caught (line : str → event) (e : raised)
    (evs : list event) (r : result unit) : Prop :=
  match e with
  | OSErrorOf text =>
      (evs = [line text] ∧ r = Return 1) ∨
      (∃ e', evs = [Fails e'] ∧ r = Raise e')
  | _ => evs = [] ∧ r = Raise e
  end.

(** What [write_xml] does: the events on the output file [evs_w], then
    those of printing [evs_p]. *)
Definition write_post (writable : str → element → write_outcome)
    (test_name : str) (root : element)
    (evs : list event) (r : result unit) : Prop :=
  let name := output_filename test_name in
  let failed text :=
    Stderr (lit "Error: Failed to write XML file: " ++ text) in
  ∃ evs_w evs_p,
    evs = evs_w ++ evs_p ∧
    match writable name root with
    | WriteOk =>
        evs_w = [Written name root] ∧
        ((evs_p = [Stdout (lit "XML mappings written to " ++ name)] ∧
          r = Return 0) ∨
         (∃ e evs_h, evs_p = Fails e :: evs_h ∧ caught failed e evs_h r))
    | WriteRaises touched e =>
        evs_w = (if touched then [Touched name] else []) ∧
        caught failed e evs_p r
    end.

(** What [main] of appFinal.py does after the dialogue gave
    [original_path], [test_name] and [version_paths]: it reads ([evs2]),
    and either stops there or goes on to [write_xml] ([evs3]). *)
Definition rest_post (basename : str → str) (readable : str → opened)
    (writable : str → element → write_outcome)
    (original_path test_name : str) (version_paths : list str)
    (evs : list event) (r : result unit) : Prop :=
  ∃ evs2 evs3,
    evs = evs2 ++ evs3 ∧ Forall reading evs2 ∧
    ((evs3 = [] ∧
      (r = Return 1 ∨
       ∃ e, r = Raise e ∧
         (Fails e ∈ evs2 ∨
          ∃ path, Open path ∈ evs2 ∧ readable path = OpenRaises e))) ∨
     (∃ all_mappings,
        all_read readable original_path version_paths all_mappings ∧
        write_post writable test_name
          (build_xml basename test_name original_path version_paths
             all_mappings) evs3 r)).

(** What [main] of appFinal.py does: the dialogue ([evs1]), in which it
    may stop, and then what follows it. *)
Definition main_post (py_int : str → option Z) (basename : str → str)
    (readable : str → opened) (writable : str → element → write_outcome)
    (used : list typed) (evs : list event) (r : result unit) : Prop :=
  ∃ evs1 evs',
    evs = evs1 ++ evs' ∧ Forall asking evs1 ∧
    ((evs' = [] ∧
      (r = Return 1 ∨
       ∃ e, r = Raise e ∧
         (e = EOFError ∨ InputRaises e ∈ used ∨ Fails e ∈ evs1))) ∨
     (∃ original_path test_name version_paths,
        dialogue py_int used original_path test_name version_paths ∧
        rest_post basename readable writable
          original_path test_name version_paths evs' r)).

(** * Properties *)

(** ** Lists read and written by index *)

Lemma len_nonneg {A} (l : list A) : 0 <= len l.
Proof. unfold len. lia. Qed.

Lemma norm_index_in {A} (l : list A) (k : Z) :
  0 <= k < len l → norm_index l k = Some (Z.to_nat k).
Proof.
  intros Hk. unfold norm_index.
  destruct (Z.ltb_spec k 0); [lia|].
  destruct (Z.leb_spec 0 k); [|lia].
  destruct (Z.ltb_spec k (len l)); [|lia]. reflexivity.
Qed.

Lemma getitem_in {A} (l : list A) (k : Z) :
  0 <= k < len l → ∃ x, getitem l k = Some x ∧ l !! Z.to_nat k = Some x.
Proof.
  intros Hk. unfold getitem. rewrite norm_index_in by done. simpl.
  destruct (lookup_lt_is_Some_2 l (Z.to_nat k)) as [x Hx].
  - unfold len in Hk. lia.
  - exists x. by rewrite Hx.
Qed.

Lemma setitem_in {A} (l : list A) (k : Z) (x : A) :
  0 <= k < len l → setitem l k x = Some (<[Z.to_nat k := x]> l).
Proof. intros Hk. unfold setitem. by rewrite norm_index_in. Qed.

Lemma for_each_inv {S} (I : S → Prop) (body : Z → S → option S) xs s :
  I s →
  (∀ x s0, x ∈ xs → I s0 → ∃ s1, body x s0 = Some s1 ∧ I s1) →
  ∃ s', for_each body xs s = Some s' ∧ I s'.
Proof.
  revert s. induction xs as [|x xs IH]; intros s Hs Hbody; simpl.
  - eauto.
  - destruct (Hbody x s) as (s1 & -> & Hs1); [left | done |]. simpl.
    apply IH; [done|]. intros y s0 Hy. apply Hbody. by right.
Qed.

Lemma elem_of_range (n x : Z) : x ∈ range n → 0 <= x < n.
Proof.
  unfold range. rewrite list_elem_of_In, in_map_iff.
  intros (k & <- & Hk). apply in_seq in Hk. lia.
Qed.

Lemma py_sum_ones {A} (l : list A) : py_sum (map (λ _, 1) l) = len l.
Proof.
  unfold py_sum, len.
  assert (H : ∀ acc, fold_left Z.add (map (λ _ : A, 1) l) acc
                     = acc + Z.of_nat (length l)).
  { induction l as [|x l IH]; intros acc; simpl; [lia|]. rewrite IH. lia. }
  rewrite H. lia.
Qed.

(** ** The table *)

Lemma dims_init (n m : Z) : 0 <= n → dims n m (dp_init n m).
Proof.
  intros Hn. unfold dims, dp_init, range. split.
  - by rewrite !length_map, length_seq.
  - apply Forall_forall. intros row Hrow.
    apply list_elem_of_In, in_map_iff in Hrow as (x & <- & _).
    apply length_replicate.
Qed.

Lemma all_zero_init (n m : Z) : all_zero (dp_init n m).
Proof.
  unfold all_zero, dp_init. apply Forall_forall. intros row Hrow.
  apply list_elem_of_In, in_map_iff in Hrow as (x & <- & _).
  apply Forall_replicate. reflexivity.
Qed.

Lemma dims_row n m dp i row :
  dims n m dp → dp !! i = Some row → length row = Z.to_nat (m + 1).
Proof.
  intros [_ Hrows] Hrow. rewrite Forall_lookup in Hrows. by eapply Hrows.
Qed.

Lemma dp_get_in n m dp i j :
  dims n m dp → 0 <= i <= n → 0 <= j <= m →
  ∃ v, dp_get dp i j = Some v ∧ (all_zero dp → v = 0).
Proof.
  intros Hd Hi Hj. unfold dp_get.
  destruct (getitem_in dp i) as (row & -> & Hrow).
  { destruct Hd as [Hl _]. unfold len. lia. }
  simpl. pose proof (dims_row _ _ _ _ _ Hd Hrow) as Hlen.
  destruct (getitem_in row j) as (v & -> & Hv).
  { unfold len. lia. }
  exists v. split; [done|]. intros Hz.
  unfold all_zero in Hz. rewrite Forall_lookup in Hz.
  specialize (Hz _ _ Hrow). rewrite Forall_lookup in Hz. by eapply Hz.
Qed.

Lemma dp_set_in n m dp i j v :
  dims n m dp → 0 <= i <= n → 0 <= j <= m →
  ∃ dp', dp_set dp i j v = Some dp' ∧ dims n m dp' ∧
         (all_zero dp → v = 0 → all_zero dp').
Proof.
  intros Hd Hi Hj. unfold dp_set.
  destruct (getitem_in dp i) as (row & -> & Hrow).
  { destruct Hd as [Hl _]. unfold len. lia. }
  simpl. pose proof (dims_row _ _ _ _ _ Hd Hrow) as Hlen.
  rewrite setitem_in by (unfold len; lia). simpl.
  rewrite setitem_in by (destruct Hd as [Hl _]; unfold len; lia).
  eexists. split; [done|]. split.
  - destruct Hd as [Hl Hrows]. split.
    + by rewrite length_insert.
    + apply Forall_insert; [done|]. by rewrite length_insert.
  - intros Hz ->. unfold all_zero in *. apply Forall_insert; [done|].
    rewrite Forall_lookup in Hz. specialize (Hz _ _ Hrow).
    apply Forall_insert; done.
Qed.

(** ** Mapping lists *)

Lemma positions_0 : positions 0 = [].
Proof. reflexivity. Qed.

Lemma positions_snoc (i : Z) : 0 < i → positions i = positions (i - 1) ++ [i].
Proof.
  intros Hi. unfold positions.
  replace (Z.to_nat i) with (S (Z.to_nat (i - 1))) by lia.
  rewrite seq_S, map_app. simpl. do 2 f_equal. lia.
Qed.

Lemma length_positions (n : Z) : 0 <= n → len (positions n) = n.
Proof.
  intros Hn. unfold len, positions. rewrite length_map, length_seq. lia.
Qed.

Lemma orig_positions_snoc l p :
  orig_positions (l ++ [p]) =
    orig_positions l ++ (if p.1 =? -1 then [] else [p.1]).
Proof.
  unfold orig_positions. rewrite map_app, List.filter_app. simpl.
  by destruct (p.1 =? -1).
Qed.

Lemma new_positions_snoc l p :
  new_positions (l ++ [p]) =
    new_positions l ++ (if p.2 =? -1 then [] else [p.2]).
Proof.
  unfold new_positions. rewrite map_app, List.filter_app. simpl.
  by destruct (p.2 =? -1).
Qed.

Lemma aligned_nil : aligned 0 0 [].
Proof. by split_and!. Qed.

(** One more move keeps the list aligned. *)
Lemma aligned_move i j o i' j' l :
  0 <= i' → 0 <= j' →
  bt_move i j o i' j' → aligned i' j' l → aligned i j (l ++ [to_mapping o]).
Proof.
  intros Hi' Hj' Hmove (Ho & Hn & Hwf). unfold aligned.
  rewrite orig_positions_snoc, new_positions_snoc, Ho, Hn.
  destruct Hmove; simpl.
  - destruct (Z.eqb_spec i (-1)); [lia|].
    destruct (Z.eqb_spec j (-1)); [lia|].
    rewrite <- !positions_snoc by lia. split_and!; try done.
    apply Forall_app. split; [done|]. apply Forall_singleton. left. simpl. lia.
  - destruct (Z.eqb_spec j (-1)); [lia|].
    rewrite <- positions_snoc by lia. rewrite app_nil_r. split_and!; try done.
    apply Forall_app. split; [done|]. apply Forall_singleton.
    right; right. simpl. lia.
  - destruct (Z.eqb_spec i (-1)); [lia|].
    rewrite <- positions_snoc by lia. rewrite app_nil_r. split_and!; try done.
    apply Forall_app. split; [done|]. apply Forall_singleton.
    right; left. simpl. lia.
Qed.

(** The counts of [main] over well-formed mappings. *)
Lemma counts_orig l :
  Forall wf_mapping l → matched l + removed l = len (orig_positions l).
Proof.
  unfold matched, removed. rewrite !py_sum_ones. unfold len, orig_positions.
  induction 1 as [|[o n] l Hp _ IH]; simpl; [done|].
  destruct Hp as [[? ?]|[[? ?]|[? ?]]]; simpl in *;
    destruct (Z.ltb_spec 0 o), (Z.ltb_spec 0 n), (Z.eqb_spec n (-1)),
      (Z.eqb_spec o (-1)); simpl; lia.
Qed.

Lemma counts_new l :
  Forall wf_mapping l → matched l + added l = len (new_positions l).
Proof.
  unfold matched, added. rewrite !py_sum_ones. unfold len, new_positions.
  induction 1 as [|[o n] l Hp _ IH]; simpl; [done|].
  destruct Hp as [[? ?]|[[? ?]|[? ?]]]; simpl in *;
    destruct (Z.ltb_spec 0 o), (Z.ltb_spec 0 n), (Z.eqb_spec n (-1)),
      (Z.eqb_spec o (-1)); simpl; lia.
Qed.

Section MapLinesProps.
Context {A : Type} `{EqDecision A}.
Implicit Types original_lines new_lines : list A.

Lemma dp_cell_ok (oi : A) new_lines n i j dp :
  dims n (len new_lines) dp → 0 <= i < n → 0 <= j < len new_lines →
  ∃ nj dp', new_lines !! Z.to_nat j = Some nj ∧
    dp_cell oi new_lines i j dp = Some dp' ∧
    dims n (len new_lines) dp' ∧
    (all_zero dp → oi ≠ nj → all_zero dp').
Proof.
  intros Hd Hi Hj. unfold dp_cell.
  destruct (getitem_in new_lines j Hj) as (nj & -> & Hnj). simpl.
  exists nj.
  destruct (dp_get_in _ _ dp i j Hd) as (a & Ha & _); [lia..|].
  destruct (dp_get_in _ _ dp i (j + 1) Hd) as (b & Hb & Hb0); [lia..|].
  destruct (dp_get_in _ _ dp (i + 1) j Hd) as (c & Hc & Hc0); [lia..|].
  case_bool_decide as Heq.
  - rewrite Ha. simpl.
    destruct (dp_set_in _ _ dp (i + 1) (j + 1) (a + 1) Hd)
      as (dp' & Hset & Hd' & _); [lia..|].
    exists dp'. split_and!; try done.
  - rewrite Hb. simpl. rewrite Hc. simpl.
    destruct (dp_set_in _ _ dp (i + 1) (j + 1) (Z.max b c) Hd)
      as (dp' & Hset & Hd' & Hz'); [lia..|].
    exists dp'. split_and!; try done.
    intros Hz _. apply Hz'; [done|].
    rewrite (Hb0 Hz), (Hc0 Hz). reflexivity.
Qed.

Lemma dp_row_ok original_lines new_lines i dp :
  let n := len original_lines in
  let m := len new_lines in
  dims n m dp → 0 <= i < n →
  ∃ dp', dp_row original_lines new_lines m i dp = Some dp' ∧
    dims n m dp' ∧
    (disjoint_lines original_lines new_lines → all_zero dp → all_zero dp').
Proof.
  intros n m Hd Hi. unfold dp_row.
  destruct (getitem_in original_lines i Hi) as (oi & -> & Hoi). simpl.
  destruct (for_each_inv
    (λ dp1, dims n m dp1 ∧
           (disjoint_lines original_lines new_lines →
            all_zero dp → all_zero dp1))
    (dp_cell oi new_lines i) (range m) dp) as (dp' & Hrun & Hd' & Hz');
    [by split | | by exists dp'].
  intros j dp1 Hj%elem_of_range [Hd1 Hz1].
  destruct (dp_cell_ok oi new_lines n i j dp1 Hd1 Hi Hj)
    as (nj & dp2 & Hnj & Hcell & Hd2 & Hz2).
  exists dp2. split_and!; try done.
  intros Hdis Hz. apply Hz2; [by apply Hz1|]. by eapply Hdis.
Qed.

Lemma build_dp_ok original_lines new_lines :
  ∃ dp, build_dp original_lines new_lines = Some dp ∧
    dims (len original_lines) (len new_lines) dp ∧
    (disjoint_lines original_lines new_lines → all_zero dp).
Proof.
  unfold build_dp.
  destruct (for_each_inv
    (λ dp, dims (len original_lines) (len new_lines) dp ∧
           (disjoint_lines original_lines new_lines → all_zero dp))
    (dp_row original_lines new_lines (len new_lines))
    (range (len original_lines))
    (dp_init (len original_lines) (len new_lines)))
    as (dp' & Hrun & Hd' & Hz'); [ | | by exists dp'].
  - split; [apply dims_init, len_nonneg|]. intros _. apply all_zero_init.
  - intros i dp1 Hi%elem_of_range [Hd1 Hz1].
    destruct (dp_row_ok original_lines new_lines i dp1 Hd1 Hi)
      as (dp2 & Hrow & Hd2 & Hz2).
    exists dp2. split_and!; try done.
    intros Hdis. apply Hz2; [done|]. by apply Hz1.
Qed.

(** ** The backtracking *)

Lemma bt_body_ok original_lines new_lines dp i j ops :
  let n := len original_lines in
  let m := len new_lines in
  dims n m dp → 0 <= i <= n → 0 <= j <= m → 0 < i ∨ 0 < j →
  ∃ o i' j',
    bt_body original_lines new_lines dp i j ops = Some (i', j', ops ++ [o]) ∧
    bt_move i j o i' j'.
Proof.
  intros n m Hd Hi Hj Hpos. unfold bt_body.
  destruct (Z.ltb_spec 0 i) as [Hi0|Hi0], (Z.ltb_spec 0 j) as [Hj0|Hj0];
    simpl.
  - destruct (getitem_in original_lines (i - 1)) as (oi & -> & _);
      [fold n; lia|].
    destruct (getitem_in new_lines (j - 1)) as (nj & -> & _);
      [fold m; lia|].
    simpl. case_bool_decide.
    + do 3 eexists. split; [done|]. by constructor.
    + destruct (Z.eqb_spec i 0); [lia|].
      destruct (dp_get_in n m dp i (j - 1) Hd) as (a & -> & _); [lia..|].
      destruct (dp_get_in n m dp (i - 1) j Hd) as (b & -> & _); [lia..|].
      simpl. destruct (b <=? a);
        do 3 eexists; (split; [done|]); by constructor.
  - do 3 eexists. split; [done|]. by constructor.
  - destruct (Z.eqb_spec i 0); [|lia]. simpl.
    do 3 eexists. split; [done|]. by constructor.
  - lia.
Qed.

Lemma bt_body_disjoint original_lines new_lines dp i j ops :
  let n := len original_lines in
  let m := len new_lines in
  dims n m dp → all_zero dp → disjoint_lines original_lines new_lines →
  0 <= i <= n → 0 <= j <= m → 0 < i ∨ 0 < j →
  bt_body original_lines new_lines dp i j ops =
    if 0 <? j then Some (i, j - 1, ops ++ [(k_ins, -1, j)])
    else Some (i - 1, j, ops ++ [(k_del, i, -1)]).
Proof.
  intros n m Hd Hz Hdis Hi Hj Hpos. unfold bt_body.
  destruct (Z.ltb_spec 0 i) as [Hi0|Hi0], (Z.ltb_spec 0 j) as [Hj0|Hj0];
    simpl; try done.
  - destruct (getitem_in original_lines (i - 1)) as (oi & -> & Hoi);
      [fold n; lia|].
    destruct (getitem_in new_lines (j - 1)) as (nj & -> & Hnj);
      [fold m; lia|].
    simpl. rewrite bool_decide_eq_false_2 by (by eapply Hdis).
    destruct (Z.eqb_spec i 0); [lia|].
    destruct (dp_get_in n m dp i (j - 1) Hd) as (a & -> & Ha); [lia..|].
    destruct (dp_get_in n m dp (i - 1) j Hd) as (b & -> & Hb); [lia..|].
    simpl. by rewrite (Ha Hz), (Hb Hz).
  - destruct (Z.eqb_spec i 0); [|lia]. done.
Qed.

Lemma bt_loop_ok original_lines new_lines dp fuel i j ops :
  let n := len original_lines in
  let m := len new_lines in
  dims n m dp → 0 <= i <= n → 0 <= j <= m → (Z.to_nat (i + j) ≤ fuel)%nat →
  ∃ tr, bt_loop fuel original_lines new_lines dp i j ops = Some (ops ++ tr) ∧
        aligned i j (map to_mapping (rev tr)).
Proof.
  intros n m Hd. revert i j ops.
  induction fuel as [|fuel IH]; intros i j ops Hi Hj Hfuel; simpl.
  - replace i with 0 by lia. replace j with 0 by lia. simpl.
    exists []. rewrite app_nil_r. split; [done|]. apply aligned_nil.
  - destruct (Z.ltb_spec 0 i) as [Hi0|Hi0], (Z.ltb_spec 0 j) as [Hj0|Hj0];
      simpl.
    4: { replace i with 0 by lia. replace j with 0 by lia.
         exists []. rewrite app_nil_r. split; [done|]. apply aligned_nil. }
    all: destruct (bt_body_ok original_lines new_lines dp i j ops Hd Hi Hj)
           as (o & i' & j' & -> & Hmove); [lia|]; simpl.
    all: assert (0 <= i' <= n ∧ 0 <= j' <= m ∧ i' + j' < i + j)
           as (Hi' & Hj' & Hlt) by (destruct Hmove; lia).
    all: destruct (IH i' j' (ops ++ [o]) Hi' Hj') as (tr & -> & Hal);
           [lia|].
    all: exists (o :: tr); rewrite <- app_assoc; split; [done|].
    all: simpl; rewrite map_app; simpl.
    all: eapply aligned_move; [| |exact Hmove|exact Hal]; lia.
Qed.

Lemma bt_loop_disjoint original_lines new_lines dp fuel i j ops :
  let n := len original_lines in
  let m := len new_lines in
  dims n m dp → all_zero dp → disjoint_lines original_lines new_lines →
  0 <= i <= n → 0 <= j <= m → (Z.to_nat (i + j) ≤ fuel)%nat →
  ∃ tr, bt_loop fuel original_lines new_lines dp i j ops = Some (ops ++ tr) ∧
        map to_mapping (rev tr) =
          map (λ k, (k, -1)) (positions i) ++ map (λ k, (-1, k)) (positions j).
Proof.
  intros n m Hd Hz Hdis. revert i j ops.
  induction fuel as [|fuel IH]; intros i j ops Hi Hj Hfuel; simpl.
  - replace i with 0 by lia. replace j with 0 by lia. simpl.
    exists []. by rewrite app_nil_r.
  - destruct (Z.ltb_spec 0 i) as [Hi0|Hi0], (Z.ltb_spec 0 j) as [Hj0|Hj0];
      simpl.
    4: { replace i with 0 by lia. replace j with 0 by lia.
         exists []. by rewrite app_nil_r. }
    all: rewrite (bt_body_disjoint original_lines new_lines dp i j ops
                    Hd Hz Hdis Hi Hj) by lia.
    all: destruct (Z.ltb_spec 0 j); try lia; simpl.
    1,3: destruct (IH i (j - 1) (ops ++ [(k_ins, -1, j)]))
           as (tr & -> & Htr); [lia..|];
         exists ((k_ins, -1, j) :: tr); rewrite <- app_assoc;
         split; [done|]; simpl; rewrite map_app, Htr; simpl;
         rewrite (positions_snoc j) by lia;
         by rewrite map_app, <- app_assoc.
    destruct (IH (i - 1) j (ops ++ [(k_del, i, -1)]))
      as (tr & -> & Htr); [lia..|].
    exists ((k_del, i, -1) :: tr). rewrite <- app_assoc.
    split; [done|]. simpl. rewrite map_app, Htr. simpl.
    replace j with 0 by lia. rewrite positions_0. simpl.
    rewrite !app_nil_r, (positions_snoc i) by lia. by rewrite map_app.
Qed.

(** The mapping list of [map_lines] exists and is aligned. *)
Lemma map_lines_aligned original_lines new_lines :
  ∃ mappings, map_lines original_lines new_lines = Some mappings ∧
    aligned (len original_lines) (len new_lines) mappings.
Proof.
  unfold map_lines.
  destruct (build_dp_ok original_lines new_lines) as (dp & -> & Hd & _).
  simpl.
  pose proof (len_nonneg original_lines). pose proof (len_nonneg new_lines).
  destruct (bt_loop_ok original_lines new_lines dp
              (Z.to_nat (len original_lines + len new_lines))
              (len original_lines) (len new_lines) [] Hd)
    as (tr & -> & Hal); [lia..|].
  simpl. eauto.
Qed.

End MapLinesProps.

Lemma elem_of_positions (n k : Z) : k ∈ positions n ↔ 1 <= k <= n.
Proof.
  unfold positions. rewrite list_elem_of_In, in_map_iff. split.
  - intros (x & <- & Hx). apply in_seq in Hx. lia.
  - intros Hk. exists (Z.to_nat k). split; [lia|]. apply in_seq. lia.
Qed.

Lemma NoDup_positions (n : Z) : NoDup (positions n).
Proof.
  unfold positions. apply (NoDup_fmap_2 Z.of_nat), NoDup_ListNoDup, seq_NoDup.
Qed.

(** ** The claims on [map_lines] *)

(** C1 (partition invariant): for all inputs, [map_lines] returns a mapping
    list whose origLine values other than -1 are exactly the positions
    1..n of the original, each once, and whose newLine values other than -1
    are exactly the positions 1..m of the new sequence, each once. *)
Theorem map_lines_partition {A} `{EqDecision A}
    (original_lines new_lines : list A) :
  ∃ mappings, map_lines original_lines new_lines = Some mappings ∧
    (∀ k, k ∈ orig_positions mappings ↔ 1 <= k <= len original_lines) ∧
    NoDup (orig_positions mappings) ∧
    (∀ k, k ∈ new_positions mappings ↔ 1 <= k <= len new_lines) ∧
    NoDup (new_positions mappings).
Proof.
  destruct (map_lines_aligned original_lines new_lines)
    as (mappings & Hrun & Ho & Hn & _).
  exists mappings. rewrite Ho, Hn.
  split_and!; auto using elem_of_positions, NoDup_positions.
Qed.

(** One pass at a tie: when i > 0, j > 0, the current lines differ and
    dp[i][j-1] == dp[i-1][j], the pass appends the Insert operation for j
    and moves to (i, j-1). *)
Lemma bt_tie_step {A} `{EqDecision A}
    (original_lines new_lines : list A) (dp : table) (i j : Z)
    (ops : list op) (oi nj : A) (v : Z) (fuel : nat) :
  0 < i → 0 < j →
  getitem original_lines (i - 1) = Some oi →
  getitem new_lines (j - 1) = Some nj →
  oi ≠ nj →
  dp_get dp i (j - 1) = Some v →
  dp_get dp (i - 1) j = Some v →
  bt_body original_lines new_lines dp i j ops =
    Some (i, j - 1, ops ++ [(k_ins, -1, j)]) ∧
  bt_loop (S fuel) original_lines new_lines dp i j ops =
    bt_loop fuel original_lines new_lines dp i (j - 1)
      (ops ++ [(k_ins, -1, j)]).
Proof.
  intros Hi Hj Hoi Hnj Hne Ha Hb.
  assert (Hbody : bt_body original_lines new_lines dp i j ops =
                  Some (i, j - 1, ops ++ [(k_ins, -1, j)])).
  { unfold bt_body.
    destruct (Z.ltb_spec 0 i); [|lia]. destruct (Z.ltb_spec 0 j); [|lia].
    simpl. rewrite Hoi, Hnj. simpl.
    rewrite bool_decide_eq_false_2 by done.
    destruct (Z.eqb_spec i 0); [lia|]. rewrite Ha, Hb. simpl.
    by rewrite Z.leb_refl. }
  split; [done|]. simpl.
  destruct (Z.ltb_spec 0 i); [|lia]. simpl. by rewrite Hbody.
Qed.

(** C3 (end-to-end scenario): on ["A","B","C"] and ["A","C","D"] the
    mapping list is [(1,1), (2,-1), (3,2), (-1,3)], with matched = 2,
    removed = 1 and added = 1. *)
Theorem map_lines_scenario :
  let mappings := [(1, 1); (2, -1); (3, 2); (-1, 3)] in
  map_lines (map lit ["A"; "B"; "C"]) (map lit ["A"; "C"; "D"])
    = Some mappings ∧
  matched mappings = 2 ∧ removed mappings = 1 ∧ added mappings = 1.
Proof. vm_compute. by split_and!. Qed.

(** C4 (totality): [map_lines] returns a mapping list for all inputs, no
    index is out of range and the backtracking ends; with an empty original
    it returns only insertions, with an empty new sequence only
    deletions. *)
Theorem map_lines_total :
  (∀ (A : Type) (eq_dec : EqDecision A) (original_lines new_lines : list A),
     ∃ mappings, map_lines original_lines new_lines = Some mappings) ∧
  map_lines (map lit []) (map lit ["X"; "Y"]) = Some [(-1, 1); (-1, 2)] ∧
  map_lines (map lit ["X"]) (map lit []) = Some [(1, -1)].
Proof.
  split_and!; [|reflexivity..].
  intros A eq_dec original_lines new_lines.
  destruct (map_lines_aligned original_lines new_lines) as (l & Hl & _).
  eauto.
Qed.

(** C5 (total replacement): when the two sequences share no line, the
    mapping list is (1,-1), ..., (n,-1) followed by (-1,1), ..., (-1,m):
    every original position deleted, every new position inserted, each in
    ascending order, and no pair has both sides positive. *)
Theorem map_lines_total_replacement {A} `{EqDecision A}
    (original_lines new_lines : list A) :
  disjoint_lines original_lines new_lines →
  ∃ mappings, map_lines original_lines new_lines = Some mappings ∧
    mappings = map (λ k, (k, -1)) (positions (len original_lines)) ++
               map (λ k, (-1, k)) (positions (len new_lines)) ∧
    Forall (λ p, ¬ (0 < p.1 ∧ 0 < p.2)) mappings.
Proof.
  intros Hdis. unfold map_lines.
  destruct (build_dp_ok original_lines new_lines) as (dp & -> & Hd & Hz).
  simpl.
  pose proof (len_nonneg original_lines). pose proof (len_nonneg new_lines).
  destruct (bt_loop_disjoint original_lines new_lines dp
              (Z.to_nat (len original_lines + len new_lines))
              (len original_lines) (len new_lines) [] Hd (Hz Hdis) Hdis)
    as (tr & -> & Htr); [lia..|].
  simpl. eexists. split; [done|]. split; [done|]. rewrite Htr.
  apply Forall_app. split; apply Forall_forall; intros p Hp;
    apply list_elem_of_In, in_map_iff in Hp as (k & <- & _); simpl; lia.
Qed.

Lemma map_lines_total_replacement_witness :
  let original_lines := map lit ["a"; "b"] in
  let new_lines := map lit ["c"] in
  disjoint_lines original_lines new_lines ∧
  ∃ mappings, map_lines original_lines new_lines = Some mappings ∧
    mappings = map (λ k, (k, -1)) (positions (len original_lines)) ++
               map (λ k, (-1, k)) (positions (len new_lines)) ∧
    Forall (λ p, ¬ (0 < p.1 ∧ 0 < p.2)) mappings.
Proof.
  intros original_lines new_lines.
  assert (Hdis : disjoint_lines original_lines new_lines).
  { intros [|[|i]] [|j] oi nj Hoi Hnj; simpl in *; try discriminate;
      injection Hoi as <-; injection Hnj as <-; discriminate. }
  split; [exact Hdis|].
  exact (map_lines_total_replacement original_lines new_lines Hdis).
Defined.

(** C6 (count consistency): over the mapping list of [map_lines], the
    counts of [main] satisfy matched + removed = n and matched + added = m. *)
Theorem counts_consistent {A} `{EqDecision A}
    (original_lines new_lines : list A) :
  ∃ mappings, map_lines original_lines new_lines = Some mappings ∧
    matched mappings + removed mappings = len original_lines ∧
    matched mappings + added mappings = len new_lines.
Proof.
  destruct (map_lines_aligned original_lines new_lines)
    as (mappings & Hrun & Ho & Hn & Hwf).
  exists mappings. split; [done|].
  rewrite counts_orig, counts_new, Ho, Hn by done.
  split; apply length_positions, len_nonneg.
Qed.

(** ** The output file name *)

(** C8 (sanitisation): the run name Test/One:2 gives the output file name
    Test_One_2.xml; a name whose sanitised form is empty falls back to the
    literal TEST. *)
Theorem output_filename_scenario :
  output_filename (lit "Test/One:2") = lit "Test_One_2.xml" ∧
  safe_test (lit "Test/One:2") = lit "Test_One_2" ∧
  safe_test [] = lit "TEST".
Proof. by vm_compute. Qed.

(** ** appVersion2.py *)

(** C9: in appVersion2.py, [map_lines] builds the table and then returns
    [None] for all inputs, and the pass of [main] over a version raises a
    [TypeError] when it iterates that result. *)
Theorem v2_map_lines_returns_none {A} `{EqDecision A}
    (original_lines new_lines : list A) (all_mappings : list V2.value) :
  (∃ dp, build_dp original_lines new_lines = Some dp ∧
         dims (len original_lines) (len new_lines) dp) ∧
  V2.map_lines original_lines new_lines = V2.Ok V2.PyNone ∧
  V2.version_pass original_lines new_lines all_mappings
    = V2.Raise V2.TypeError.
Proof.
  destruct (build_dp_ok original_lines new_lines) as (dp & Hdp & Hd & _).
  split; [by exists dp|].
  unfold V2.version_pass, V2.map_lines. by rewrite Hdp.
Qed.

(** ** Searching a two-character marker *)

Lemma startswith_pair a b s : startswith [a; b] s = true ↔ pair_at a b s 0.
Proof.
  unfold pair_at. destruct s as [|x [|y s]]; simpl.
  - split; [done|]. by intros [? _].
  - rewrite andb_false_r. split; [done|]. by intros [_ ?].
  - rewrite andb_true_r, andb_true_iff, !bool_decide_eq_true.
    split; [by intros [-> ->]|]. intros [? ?]. by simplify_eq.
Qed.

Lemma find_nat_pair_Some a b s k :
  find_nat [a; b] s = Some k →
  pair_at a b s k ∧ ∀ q, (q < k)%nat → ¬ pair_at a b s q.
Proof.
  revert k. induction s as [|c s IH]; intros k.
  - cbn [find_nat].
    destruct (startswith [a; b] []) eqn:Hsw; [|done].
    by apply startswith_pair in Hsw as [? _].
  - cbn [find_nat].
    destruct (startswith [a; b] (c :: s)) eqn:Hsw.
    + intros [= <-]. split; [by apply startswith_pair|]. lia.
    + destruct (find_nat [a; b] s) as [k'|]; [|done].
      intros [= <-]. destruct (IH k' eq_refl) as [Hat Hmin].
      split; [exact Hat|]. intros [|q] Hq.
      * intros Hat0%startswith_pair. congruence.
      * apply (Hmin q). lia.
Qed.

Lemma find_nat_pair_None a b s :
  find_nat [a; b] s = None → ∀ q, ¬ pair_at a b s q.
Proof.
  induction s as [|c s IH].
  - intros _ q [Hq _]. by rewrite lookup_nil in Hq.
  - cbn [find_nat].
    destruct (startswith [a; b] (c :: s)) eqn:Hsw; [done|].
    destruct (find_nat [a; b] s) as [k'|]; [done|].
    intros _ [|q].
    + intros Hat0%startswith_pair. congruence.
    + by apply IH.
Qed.

Lemma pair_at_drop a b s n q :
  pair_at a b (drop n s) q ↔ pair_at a b s (n + q).
Proof.
  unfold pair_at. rewrite !lookup_drop.
  by replace (n + S q)%nat with (S (n + q)) by lia.
Qed.

Lemma pair_at_lt a b s q : pair_at a b s q → (S q < length s)%nat.
Proof. intros [_ H]. by apply lookup_lt_Some in H. Qed.

Lemma find_pair_neg a b s start :
  0 <= start → find s [a; b] start = -1 →
  ∀ q, (Z.to_nat start ≤ q)%nat → ¬ pair_at a b s q.
Proof.
  intros Hs. unfold find.
  destruct (Z.ltb_spec (Z.of_nat (length s)) start) as [Hlen|Hlen].
  - intros _ q Hq Hat%pair_at_lt. lia.
  - destruct (find_nat [a; b] (drop (Z.to_nat start) s)) as [k|] eqn:Hf;
      [lia|].
    intros _ q Hq Hat.
    apply (find_nat_pair_None _ _ _ Hf (q - Z.to_nat start)%nat).
    apply pair_at_drop. by replace (_ + _)%nat with q by lia.
Qed.

Lemma find_pair_pos a b s start e :
  0 <= start → find s [a; b] start = e → e ≠ -1 →
  start <= e ∧ pair_at a b s (Z.to_nat e) ∧
  ∀ q, (Z.to_nat start ≤ q < Z.to_nat e)%nat → ¬ pair_at a b s q.
Proof.
  intros Hs. unfold find.
  destruct (Z.ltb_spec (Z.of_nat (length s)) start) as [Hlen|Hlen];
    [congruence|].
  destruct (find_nat [a; b] (drop (Z.to_nat start) s)) as [k|] eqn:Hf;
    [|congruence].
  intros <- _. destruct (find_nat_pair_Some _ _ _ _ Hf) as [Hat Hmin].
  split_and!; [lia| |].
  - apply pair_at_drop in Hat.
    by replace (Z.to_nat (start + Z.of_nat k)) with (Z.to_nat start + k)%nat
      by lia.
  - intros q Hq Hq'. apply (Hmin (q - Z.to_nat start)%nat); [lia|].
    apply pair_at_drop. by replace (_ + _)%nat with q by lia.
Qed.

Lemma contains_pair a b s :
  contains [a; b] s = true ↔ ∃ q, pair_at a b s q.
Proof.
  unfold contains. rewrite negb_true_iff, Z.eqb_neq. split.
  - intros Hne. exists (Z.to_nat (find s [a; b] 0)).
    by eapply (find_pair_pos a b s 0).
  - intros [q Hat] Hneg.
    apply (find_pair_neg a b s 0 ltac:(lia) Hneg q); [lia|done].
Qed.

Lemma contains_pair_false a b s :
  contains [a; b] s = false ↔ ∀ q, ¬ pair_at a b s q.
Proof.
  rewrite <- not_true_iff_false, contains_pair. split.
  - intros Hn q Hq. apply Hn. by exists q.
  - intros Hn [q Hq]. by apply (Hn q).
Qed.

(** A marker of an infix of [s] is a marker of [s]. *)
Lemma pair_at_infix a b pre t post q :
  pair_at a b t q → pair_at a b (pre ++ t ++ post) (length pre + q).
Proof.
  assert (Hin : ∀ i x, t !! i = Some x →
                       (pre ++ t ++ post) !! (length pre + i)%nat = Some x).
  { intros i x Hi. rewrite lookup_app_r by lia.
    replace (length pre + i - length pre)%nat with i by lia.
    by apply lookup_app_l_Some. }
  intros [H1 H2]. unfold pair_at.
  replace (S (length pre + q)) with (length pre + S q)%nat by lia.
  split; by apply Hin.
Qed.

(** ** strip *)

Lemma lstrip_suffix s : ∃ pre, s = pre ++ lstrip s.
Proof.
  induction s as [|c s [pre IH]]; simpl.
  - by exists [].
  - destruct (isspace c).
    + exists (c :: pre). simpl. by f_equal.
    + by exists [].
Qed.

Lemma rstrip_prefix s : ∃ post, s = rstrip s ++ post.
Proof.
  unfold rstrip. destruct (lstrip_suffix (rev s)) as [pre Hpre].
  exists (rev pre). rewrite <- rev_app_distr, <- Hpre. by rewrite rev_involutive.
Qed.

Lemma strip_infix s : ∃ pre post, s = pre ++ strip s ++ post.
Proof.
  unfold strip. destruct (lstrip_suffix s) as [pre Hpre].
  destruct (rstrip_prefix (lstrip s)) as [post Hpost].
  exists pre, post. by rewrite <- Hpost.
Qed.

Lemma lstrip_head_ok s : head_ok (lstrip s).
Proof.
  induction s as [|c s IH]; simpl; [done|].
  by destruct (isspace c) eqn:Hc.
Qed.

Lemma lstrip_id s : head_ok s → lstrip s = s.
Proof. destruct s as [|c s]; simpl; [done|]. by intros ->. Qed.

Lemma head_ok_prefix s post : head_ok (s ++ post) → head_ok s.
Proof. by destruct s. Qed.

Lemma rstrip_head_ok s : head_ok s → head_ok (rstrip s).
Proof.
  intros Hs. destruct (rstrip_prefix s) as [post Hpost].
  apply (head_ok_prefix _ post). by rewrite <- Hpost.
Qed.

Lemma rstrip_rstrip s : rstrip (rstrip s) = rstrip s.
Proof.
  unfold rstrip. rewrite rev_involutive.
  by rewrite (lstrip_id (lstrip (rev s))) by apply lstrip_head_ok.
Qed.

Lemma strip_strip s : strip (strip s) = strip s.
Proof.
  unfold strip.
  rewrite (lstrip_id (rstrip (lstrip s)))
    by apply rstrip_head_ok, lstrip_head_ok.
  apply rstrip_rstrip.
Qed.

(** ** The passes of normalize_line *)

Lemma strip_line_comment_clean line q :
  ¬ pair_at "/" "/" (strip_line_comment line) q.
Proof.
  unfold strip_line_comment.
  destruct (contains LINE_COMMENT line) eqn:Hc.
  - unfold split1_head.
    destruct (find_nat LINE_COMMENT line) as [k|] eqn:Hf.
    + destruct (find_nat_pair_Some _ _ _ _ Hf) as [_ Hmin].
      intros Hat. pose proof (pair_at_lt _ _ _ _ Hat) as Hlt.
      rewrite length_take in Hlt. apply (Hmin q); [lia|].
      apply (pair_at_infix _ _ [] _ (drop k line)) in Hat.
      simpl in Hat. by rewrite take_drop in Hat.
    + by apply find_nat_pair_None.
  - by apply (contains_pair_false "/" "/").
Qed.

(** What a completed pass of the loop did. *)
Lemma block_step_Some line line' :
  block_step line = Some line' →
  ∃ start end_ : nat,
    pair_at "/" "*" line start ∧ pair_at "*" "/" line end_ ∧
    (start + 2 ≤ end_)%nat ∧
    line' = take start line ++ drop (end_ + 2) line.
Proof.
  unfold block_step.
  destruct (contains BLOCK_OPEN line) eqn:Ho; [|done].
  destruct (contains BLOCK_CLOSE line); [|done]. simpl.
  unfold contains in Ho. apply negb_true_iff, Z.eqb_neq in Ho.
  set (start := find line BLOCK_OPEN 0) in *.
  destruct (find_pair_pos "/" "*" line 0 start) as (Hs0 & Hat & _);
    [lia|done|done|].
  set (end_ := find line BLOCK_CLOSE (start + 2)).
  destruct (Z.eqb_spec end_ (-1)) as [|He]; [done|].
  destruct (find_pair_pos "*" "/" line (start + 2) end_)
    as (He0 & Hat' & _); [lia|done|done|].
  intros [= <-]. exists (Z.to_nat start), (Z.to_nat end_).
  split_and!; [done|done|lia|]. do 2 f_equal. lia.
Qed.

Lemma block_step_shrinks line line' :
  block_step line = Some line' → (length line' < length line)%nat.
Proof.
  intros (start & end_ & Hs%pair_at_lt & He%pair_at_lt & Hle & ->)
    %block_step_Some.
  rewrite length_app, length_take, length_drop. lia.
Qed.

(** Reading the line after a pass: before the comment it is the old line,
    after it the old line behind the comment. *)
Lemma lookup_cut (line : str) (start end_ q : nat) :
  (start < length line)%nat →
  (take start line ++ drop end_ line) !! q =
    if decide (q < start)%nat then line !! q
    else line !! (end_ + (q - start))%nat.
Proof.
  intros Hs. case_decide.
  - rewrite lookup_app_l by (rewrite length_take; lia).
    by apply lookup_take_lt.
  - rewrite lookup_app_r by (rewrite length_take; lia).
    rewrite length_take, lookup_drop. f_equal. lia.
Qed.

Lemma block_step_clean line line' :
  (∀ q, ¬ pair_at "/" "/" line q) →
  block_step line = Some line' →
  ∀ q, ¬ pair_at "/" "/" line' q.
Proof.
  intros Hclean (start & end_ & Hs & He & Hle & ->)%block_step_Some q.
  pose proof (pair_at_lt _ _ _ _ Hs) as Hlt.
  unfold pair_at. rewrite !lookup_cut by lia. intros [H1 H2].
  destruct (decide (q < start)%nat) as [Hq|Hq],
           (decide (S q < start)%nat) as [Hq'|Hq']; try lia.
  - by apply (Hclean q).
  - replace start with (S q) in Hs by lia.
    apply (Hclean q). split; [done|]. apply Hs.
  - apply (Hclean (end_ + 2 + (q - start))%nat). split; [done|].
    by replace (S (end_ + 2 + (q - start))) with (end_ + 2 + (S q - start))%nat
      by lia.
Qed.

Lemma block_loop_clean fuel line :
  (∀ q, ¬ pair_at "/" "/" line q) →
  ∀ q, ¬ pair_at "/" "/" (block_loop fuel line) q.
Proof.
  revert line. induction fuel as [|fuel IH]; intros line Hclean; simpl;
    [done|].
  destruct (block_step line) as [line'|] eqn:Hstep; [|done].
  apply IH. by eapply block_step_clean.
Qed.

(** With the length of the line as fuel the loop is left through its
    condition or its [break], not for want of fuel. *)
Lemma block_loop_stable fuel line :
  (length line ≤ fuel)%nat → block_step (block_loop fuel line) = None.
Proof.
  revert line. induction fuel as [|fuel IH]; intros line Hlen; simpl.
  - destruct (block_step line) as [line'|] eqn:Hstep; [|done].
    apply block_step_shrinks in Hstep. lia.
  - destruct (block_step line) as [line'|] eqn:Hstep; [|done].
    apply IH. apply block_step_shrinks in Hstep. lia.
Qed.

Lemma block_loop_fix fuel line :
  block_step line = None → block_loop fuel line = line.
Proof. intros Hstep. destruct fuel; simpl; [done|]. by rewrite Hstep. Qed.

(** A line on which the loop is left at once is still one after [strip]. *)
Lemma block_step_None_strip line :
  block_step line = None → block_step (strip line) = None.
Proof.
  intros Hnone.
  destruct (block_step (strip line)) as [t'|] eqn:Hstep; [|done].
  exfalso.
  apply block_step_Some in Hstep as (start' & end' & Hs' & He' & Hle & _).
  destruct (strip_infix line) as (pre & post & Hline).
  apply (pair_at_infix _ _ pre _ post) in Hs', He'.
  rewrite <- Hline in Hs', He'.
  revert Hnone. unfold block_step.
  change BLOCK_OPEN with ["/"; "*"]%char.
  change BLOCK_CLOSE with ["*"; "/"]%char.
  rewrite (proj2 (contains_pair "/" "*" line)) by eauto.
  rewrite (proj2 (contains_pair "*" "/" line)) by eauto. simpl.
  set (start := find line ["/"; "*"]%char 0).
  assert (Hstart : start ≠ -1).
  { intros Hneg.
    by apply (find_pair_neg "/" "*" line 0 ltac:(lia) Hneg
                (length pre + start')%nat ltac:(lia)). }
  destruct (find_pair_pos "/" "*" line 0 start) as (Hs0 & _ & Hmin);
    [lia|done|done|].
  assert (Z.to_nat start ≤ length pre + start')%nat as Hfirst.
  { destruct (decide (Z.to_nat start ≤ length pre + start')%nat); [done|].
    exfalso. apply (Hmin (length pre + start')%nat); [lia|done]. }
  destruct (Z.eqb_spec (find line ["*"; "/"]%char (start + 2)) (-1))
    as [Hneg|]; [|done].
  intros _.
  apply (find_pair_neg "*" "/" line (start + 2) ltac:(lia) Hneg
           (length pre + end')%nat); [lia|done].
Qed.

(** ** The claims on [normalize_line] *)

(** C10 (idempotence): normalising a normalised line changes nothing, in
    both versions of the program. *)
Theorem normalize_line_idempotent (s : str) :
  normalize_line (normalize_line s) = normalize_line s ∧
  V2.normalize_line (V2.normalize_line s) = V2.normalize_line s.
Proof.
  assert (Hidem : normalize_line (normalize_line s) = normalize_line s).
  { unfold normalize_line at 1.
    set (t := normalize_line s).
    assert (Hclean : ∀ q, ¬ pair_at "/" "/" t q).
    { intros q Hat. unfold t, normalize_line in Hat.
      destruct (strip_infix
                  (strip_block_comments (strip_line_comment s)))
        as (pre & post & Hinfix).
      apply (pair_at_infix _ _ pre _ post) in Hat. rewrite <- Hinfix in Hat.
      revert Hat. apply block_loop_clean, strip_line_comment_clean. }
    assert (Hstep : block_step t = None).
    { apply block_step_None_strip, block_loop_stable. done. }
    unfold strip_line_comment. change LINE_COMMENT with ["/"; "/"]%char.
    rewrite (proj2 (contains_pair_false "/" "/" t) Hclean).
    unfold strip_block_comments. rewrite block_loop_fix by done.
    apply strip_strip. }
  split; [exact Hidem|exact Hidem].
Qed.

(** The quoted word of the docstring, with a comment behind it. *)
Example normalize_line_quoted :
  normalize_line (dq :: lit "int" ++ dq :: lit " /* comment */")
    = dq :: lit "int" ++ [dq].
Proof. reflexivity. Qed.

(** C7, as stated, fails: the quote characters are kept, so the quoted
    line and the bare word normalise differently and do not align as a
    Match. *)
Lemma normalize_line_quoted_vs_bare :
  let a := normalize_line (dq :: lit "int" ++ dq :: lit " /* comment */") in
  let b := normalize_line (lit "int") in
  a ≠ b ∧ map_lines [a] [b] = Some [(1, -1); (-1, 1)].
Proof. split; [discriminate|reflexivity]. Qed.

(** C7, amended: the line with the quoted word and a block comment and the
    line with the same quoted word between blanks normalise to the same
    string, the quoted word, and align as the Match (1, 1). *)
Theorem normalize_line_comment_insensitive :
  let a := normalize_line (dq :: lit "int" ++ dq :: lit " /* comment */") in
  let b := normalize_line (lit "  " ++ dq :: lit "int" ++ dq :: lit "  ") in
  a = b ∧ b = dq :: lit "int" ++ [dq] ∧ map_lines [a] [b] = Some [(1, 1)].
Proof. by vm_compute. Qed.

(** * Further properties *)

(** ** Counting and collecting the matches *)

Lemma matched_snoc l p :
  matched (l ++ [p]) =
    matched l + (if (0 <? p.1) && (0 <? p.2) then 1 else 0).
Proof.
  unfold matched. rewrite !py_sum_ones. unfold len.
  rewrite List.filter_app, length_app. destruct p as [o n]. simpl.
  destruct ((0 <? o) && (0 <? n)); simpl; lia.
Qed.

Lemma matched_nonneg l : 0 <= matched l.
Proof. unfold matched. rewrite py_sum_ones. apply len_nonneg. Qed.

Lemma matched_lines_snoc {A} (original_lines : list A) l p :
  matched_lines original_lines (l ++ [p]) =
    matched_lines original_lines l ++
    (if (0 <? p.1) && (0 <? p.2)
     then option_list (original_lines !! Z.to_nat (p.1 - 1)) else []).
Proof.
  unfold matched_lines. rewrite omap_app. f_equal. destruct p as [o n].
  simpl. destruct ((0 <? o) && (0 <? n)); [|done].
  by destruct (original_lines !! Z.to_nat (o - 1)).
Qed.

Lemma sublist_take_le {A} (l : list A) (a b : nat) :
  (a ≤ b)%nat → take a l `sublist_of` take b l.
Proof.
  intros Hab. replace (take a l) with (take a (take b l)).
  - apply sublist_take.
  - rewrite take_take. f_equal. lia.
Qed.

Lemma sublist_snoc_r {A} (c l : list A) (x : A) :
  c `sublist_of` l ++ [x] ↔
  c `sublist_of` l ∨ ∃ k, c = k ++ [x] ∧ k `sublist_of` l.
Proof.
  rewrite sublist_app_r. split.
  - intros (k1 & k2 & -> & Hk1 & Hk2).
    apply sublist_cons_r in Hk2 as [Hk2|(k & -> & Hk)].
    + apply sublist_nil_r in Hk2 as ->. left. by rewrite app_nil_r.
    + apply sublist_nil_r in Hk as ->. right. by exists k1.
  - intros [Hc|(k & -> & Hk)].
    + exists c, []. rewrite app_nil_r. split_and!; [done|done|].
      apply sublist_nil_l.
    + exists k, [x]. by split_and!.
Qed.

Lemma getitem_lookup {A} (l : list A) (k : Z) (x : A) :
  0 <= k → l !! Z.to_nat k = Some x → getitem l k = Some x.
Proof.
  intros Hk Hx. pose proof (lookup_lt_Some _ _ _ Hx) as Hlt.
  destruct (getitem_in l k) as (y & -> & Hy); [unfold len; lia|].
  congruence.
Qed.

Lemma dp_get_cell n m dp i j :
  dims n m dp → 0 <= i <= n → 0 <= j <= m →
  dp_get dp i j = cell dp (Z.to_nat i) (Z.to_nat j).
Proof.
  intros Hd Hi Hj. unfold dp_get, cell.
  destruct (getitem_in dp i) as (row & Hg & Hl).
  { destruct Hd as [Hlen _]. unfold len. lia. }
  rewrite Hg, Hl. simpl.
  pose proof (dims_row _ _ _ _ _ Hd Hl) as Hlen.
  destruct (getitem_in row j) as (v & Hg' & Hl'); [unfold len; lia|].
  by rewrite Hg', Hl'.
Qed.

(** ** The table, cell by cell *)

Lemma for_each_range_inv {S} (I : nat → S → Prop) (body : Z → S → option S)
    (n : nat) (s : S) :
  I 0%nat s →
  (∀ k s0, (k < n)%nat → I k s0 →
     ∃ s1, body (Z.of_nat k) s0 = Some s1 ∧ I (Datatypes.S k) s1) →
  ∃ s', for_each body (range (Z.of_nat n)) s = Some s' ∧ I n s'.
Proof.
  unfold range. rewrite Nat2Z.id. intros H0 Hbody.
  assert (Hgen : ∀ cnt a s0, (a + cnt = n)%nat → I a s0 →
            ∃ s', for_each body (map Z.of_nat (seq a cnt)) s0 = Some s' ∧
                  I n s').
  { induction cnt as [|cnt IH]; intros a s0 Ha Hs0; simpl.
    - exists s0. split; [done|]. by replace n with a by lia.
    - destruct (Hbody a s0) as (s1 & -> & Hs1); [lia|done|]. simpl.
      apply IH; [lia|done]. }
  by apply (Hgen n 0%nat s).
Qed.

Lemma cell_init n m i j :
  0 <= n → 0 <= m → (i ≤ Z.to_nat n)%nat → (j ≤ Z.to_nat m)%nat →
  cell (dp_init n m) i j = Some 0.
Proof.
  intros Hn Hm Hi Hj. unfold cell, dp_init, range.
  rewrite !list_lookup_fmap.
  rewrite (lookup_seq_lt _ _ i) by lia. simpl.
  apply lookup_replicate_2. lia.
Qed.

Lemma dp_set_cell n m dp i j v :
  dims n m dp → 0 <= i <= n → 0 <= j <= m →
  ∃ dp', dp_set dp i j v = Some dp' ∧ dims n m dp' ∧
    ∀ i' j', (i' ≤ Z.to_nat n)%nat → (j' ≤ Z.to_nat m)%nat →
      cell dp' i' j' =
        if decide (i' = Z.to_nat i ∧ j' = Z.to_nat j) then Some v
        else cell dp i' j'.
Proof.
  intros Hd Hi Hj. unfold dp_set.
  destruct (getitem_in dp i) as (row & -> & Hrow).
  { destruct Hd as [Hl _]. unfold len. lia. }
  simpl. pose proof (dims_row _ _ _ _ _ Hd Hrow) as Hlen.
  rewrite setitem_in by (unfold len; lia). simpl.
  rewrite setitem_in by (destruct Hd as [Hl _]; unfold len; lia).
  eexists. split; [done|]. split.
  - destruct Hd as [Hl Hrows]. split.
    + by rewrite length_insert.
    + apply Forall_insert; [done|]. by rewrite length_insert.
  - intros i' j' Hi' Hj'. unfold cell.
    destruct (decide (i' = Z.to_nat i)) as [->|Hne].
    + rewrite list_lookup_insert_eq
        by (destruct Hd as [Hl _]; lia). simpl.
      rewrite Hrow. simpl.
      destruct (decide (j' = Z.to_nat j)) as [->|Hne'].
      * rewrite decide_True by done.
        apply list_lookup_insert_eq. lia.
      * rewrite decide_False by (intros [? ?]; congruence).
        by apply list_lookup_insert_ne.
    + rewrite decide_False by (intros [? ?]; congruence).
      by rewrite list_lookup_insert_ne.
Qed.

Section MoreMapLines.
Context {A : Type} `{EqDecision A}.
Implicit Types original_lines new_lines : list A.

(** ** The runs of the backtracking *)

Lemma bt_body_run original_lines new_lines dp i j ops :
  let n := len original_lines in
  let m := len new_lines in
  dims n m dp → 0 <= i <= n → 0 <= j <= m → 0 < i ∨ 0 < j →
  ∃ o i' j',
    bt_body original_lines new_lines dp i j ops = Some (i', j', ops ++ [o]) ∧
    0 <= i' <= i ∧ 0 <= j' <= j ∧ i' + j' < i + j ∧
    ∀ tr, bt_run original_lines new_lines dp i' j' tr →
          bt_run original_lines new_lines dp i j (o :: tr).
Proof.
  intros n m Hd Hi Hj Hpos. unfold bt_body.
  destruct (Z.ltb_spec 0 i) as [Hi0|Hi0], (Z.ltb_spec 0 j) as [Hj0|Hj0];
    simpl.
  - destruct (getitem_in original_lines (i - 1)) as (oi & -> & Hoi);
      [fold n; lia|].
    destruct (getitem_in new_lines (j - 1)) as (nj & -> & Hnj);
      [fold m; lia|].
    simpl. case_bool_decide as Heq.
    + subst nj. do 3 eexists. split; [done|]. split_and!; try lia.
      intros tr Htr. by eapply run_match.
    + destruct (Z.eqb_spec i 0); [lia|].
      destruct (dp_get_in n m dp i (j - 1) Hd) as (a & Ha & _); [lia..|].
      destruct (dp_get_in n m dp (i - 1) j Hd) as (b & Hb & _); [lia..|].
      rewrite Ha, Hb. simpl. destruct (Z.leb_spec b a).
      * do 3 eexists. split; [done|]. split_and!; try lia.
        intros tr Htr. apply run_ins; [lia|done| |done].
        right. split; [done|]. by exists oi, nj, a, b.
      * do 3 eexists. split; [done|]. split_and!; try lia.
        intros tr Htr. apply run_del; [done|lia| |done].
        right. split; [done|]. by exists oi, nj, a, b.
  - do 3 eexists. split; [done|]. split_and!; try lia.
    intros tr Htr. apply run_del; [done|lia| |done]. left. lia.
  - destruct (Z.eqb_spec i 0); [|lia]. simpl.
    do 3 eexists. split; [done|]. split_and!; try lia.
    intros tr Htr. apply run_ins; [lia|done| |done]. by left.
  - lia.
Qed.

Lemma bt_loop_run original_lines new_lines dp fuel i j ops :
  let n := len original_lines in
  let m := len new_lines in
  dims n m dp → 0 <= i <= n → 0 <= j <= m → (Z.to_nat (i + j) ≤ fuel)%nat →
  ∃ tr, bt_loop fuel original_lines new_lines dp i j ops = Some (ops ++ tr) ∧
        bt_run original_lines new_lines dp i j tr.
Proof.
  intros n m Hd. revert i j ops.
  induction fuel as [|fuel IH]; intros i j ops Hi Hj Hfuel; simpl.
  - replace i with 0 by lia. replace j with 0 by lia. simpl.
    exists []. rewrite app_nil_r. split; [done|]. constructor.
  - destruct (Z.ltb_spec 0 i) as [Hi0|Hi0], (Z.ltb_spec 0 j) as [Hj0|Hj0];
      simpl.
    4: { replace i with 0 by lia. replace j with 0 by lia.
         exists []. rewrite app_nil_r. split; [done|]. constructor. }
    all: destruct (bt_body_run original_lines new_lines dp i j ops Hd Hi Hj)
           as (o & i' & j' & -> & Hi' & Hj' & Hlt & Hrun); [lia|]; simpl.
    all: destruct (IH i' j' (ops ++ [o])) as (tr & -> & Htr); [lia..|].
    all: exists (o :: tr); rewrite <- app_assoc; split; [done|].
    all: by apply Hrun.
Qed.

(** ** What a run of the backtracking gives *)

Lemma run_sound original_lines new_lines dp i j tr :
  bt_run original_lines new_lines dp i j tr →
  ∀ o n, (o, n) ∈ map to_mapping tr → 0 < o → 0 < n →
    ∃ x, original_lines !! Z.to_nat (o - 1) = Some x ∧
         new_lines !! Z.to_nat (n - 1) = Some x.
Proof.
  induction 1 as [|i j x tr Hi Hj Hx Hy _ IH|i j tr Hi Hj _ _ IH
                 |i j tr Hi Hj _ _ IH]; intros o n Hin Ho Hn; simpl in Hin.
  - by apply elem_of_nil in Hin.
  - apply elem_of_cons in Hin as [[= -> ->]|Hin]; [by exists x|by apply IH].
  - apply elem_of_cons in Hin as [[= -> ->]|Hin]; [lia|by apply IH].
  - apply elem_of_cons in Hin as [[= -> ->]|Hin]; [lia|by apply IH].
Qed.

Lemma run_common original_lines new_lines dp i j tr :
  bt_run original_lines new_lines dp i j tr →
  let mappings := map to_mapping (rev tr) in
  matched_lines original_lines mappings
    `sublist_of` take (Z.to_nat i) original_lines ∧
  matched_lines original_lines mappings
    `sublist_of` take (Z.to_nat j) new_lines ∧
  len (matched_lines original_lines mappings) = matched mappings.
Proof.
  induction 1 as [|i j x tr Hi Hj Hx Hy _ (IHo & IHn & IHl)
                 |i j tr Hi Hj _ _ (IHo & IHn & IHl)
                 |i j tr Hi Hj _ _ (IHo & IHn & IHl)];
    cbn zeta in *; simpl rev; rewrite ?map_app; simpl map.
  - split_and!; [apply sublist_nil_l..|done].
  - rewrite matched_lines_snoc, matched_snoc. simpl.
    destruct (Z.ltb_spec 0 i); [|lia]. destruct (Z.ltb_spec 0 j); [|lia].
    simpl. rewrite Hx. simpl.
    replace (Z.to_nat i) with (S (Z.to_nat (i - 1))) by lia.
    replace (Z.to_nat j) with (S (Z.to_nat (j - 1))) by lia.
    rewrite (take_S_r _ _ _ Hx), (take_S_r _ _ _ Hy).
    split_and!; [by apply sublist_app..|].
    unfold len in *. rewrite length_app. simpl. lia.
  - rewrite matched_lines_snoc, matched_snoc. simpl.
    rewrite app_nil_r, Z.add_0_r. split_and!; [done| |done].
    etrans; [exact IHn|]. apply sublist_take_le. lia.
  - rewrite matched_lines_snoc, matched_snoc. simpl.
    rewrite andb_false_r, app_nil_r, Z.add_0_r. split_and!; [|done..].
    etrans; [exact IHo|]. apply sublist_take_le. lia.
Qed.

(** ** The recurrence *)

Lemma lcs_len_0_l original_lines new_lines j :
  lcs_len original_lines new_lines 0 j = 0.
Proof. reflexivity. Qed.

Lemma lcs_len_0_r original_lines new_lines i :
  lcs_len original_lines new_lines i 0 = 0.
Proof. by destruct i. Qed.

Lemma lcs_len_S original_lines new_lines i j x y :
  original_lines !! i = Some x → new_lines !! j = Some y →
  lcs_len original_lines new_lines (S i) (S j) =
    if bool_decide (x = y)
    then lcs_len original_lines new_lines i j + 1
    else Z.max (lcs_len original_lines new_lines i (S j))
               (lcs_len original_lines new_lines (S i) j).
Proof. intros Hx Hy. cbn [lcs_len]. by rewrite Hx, Hy. Qed.

Lemma run_matched_lcs original_lines new_lines dp i j tr :
  let n := len original_lines in
  let m := len new_lines in
  dims n m dp →
  (∀ i j, (i ≤ length original_lines)%nat → (j ≤ length new_lines)%nat →
     cell dp i j = Some (lcs_len original_lines new_lines i j)) →
  bt_run original_lines new_lines dp i j tr →
  i <= n → j <= m →
  matched (map to_mapping (rev tr)) =
    lcs_len original_lines new_lines (Z.to_nat i) (Z.to_nat j).
Proof.
  intros n m Hd Htab.
  assert (Hget : ∀ i j, 0 <= i <= n → 0 <= j <= m →
            dp_get dp i j =
            Some (lcs_len original_lines new_lines (Z.to_nat i) (Z.to_nat j))).
  { intros i0 j0 Hi0 Hj0. rewrite (dp_get_cell n m) by done.
    apply Htab; unfold n, m, len in *; lia. }
  induction 1 as [|i j x tr Hi Hj Hx Hy _ IH|i j tr Hi Hj Hwhy _ IH
                 |i j tr Hi Hj Hwhy _ IH]; intros Hin Hjm;
    simpl rev; rewrite ?map_app; simpl map; rewrite ?matched_snoc; simpl.
  - done.
  - destruct (Z.ltb_spec 0 i); [|lia]. destruct (Z.ltb_spec 0 j); [|lia].
    simpl. rewrite IH by lia.
    replace (Z.to_nat i) with (S (Z.to_nat (i - 1))) by lia.
    replace (Z.to_nat j) with (S (Z.to_nat (j - 1))) by lia.
    rewrite (lcs_len_S _ _ _ _ x x) by done.
    by rewrite bool_decide_eq_true_2.
  - rewrite Z.add_0_r, IH by lia.
    destruct Hwhy as [->|(Hi0 & x & y & a & b & Hx & Hy & Hne & Ha & Hb & Hle)].
    + by rewrite !lcs_len_0_l.
    + rewrite Hget in Ha, Hb by lia. injection Ha as <-. injection Hb as <-.
      replace (Z.to_nat j) with (S (Z.to_nat (j - 1))) in * by lia.
      replace (Z.to_nat i) with (S (Z.to_nat (i - 1))) in * by lia.
      rewrite (lcs_len_S _ _ _ _ x y) by done.
      rewrite bool_decide_eq_false_2 by done. lia.
  - rewrite andb_false_r, Z.add_0_r, IH by lia.
    destruct Hwhy as [->|(Hj0 & x & y & a & b & Hx & Hy & Hne & Ha & Hb & Hlt)].
    + by rewrite !lcs_len_0_r.
    + rewrite Hget in Ha, Hb by lia. injection Ha as <-. injection Hb as <-.
      replace (Z.to_nat j) with (S (Z.to_nat (j - 1))) in * by lia.
      replace (Z.to_nat i) with (S (Z.to_nat (i - 1))) in * by lia.
      rewrite (lcs_len_S _ _ _ _ x y) by done.
      rewrite bool_decide_eq_false_2 by done. lia.
Qed.


Lemma lcs_len_upper original_lines new_lines i j c :
  (i ≤ length original_lines)%nat → (j ≤ length new_lines)%nat →
  common c (take i original_lines) (take j new_lines) →
  len c <= lcs_len original_lines new_lines i j.
Proof.
  revert j c. induction i as [|i IHi]; intros j c Hi Hj [Hco Hcn].
  { apply sublist_nil_r in Hco as ->. by rewrite lcs_len_0_l. }
  induction j as [|j IHj] in c, Hj, Hco, Hcn |- *.
  { apply sublist_nil_r in Hcn as ->. by rewrite lcs_len_0_r. }
  destruct (lookup_lt_is_Some_2 original_lines i) as [x Hx]; [lia|].
  destruct (lookup_lt_is_Some_2 new_lines j) as [y Hy]; [lia|].
  rewrite (lcs_len_S _ _ _ _ x y) by done.
  rewrite (take_S_r _ _ _ Hx) in Hco. rewrite (take_S_r _ _ _ Hy) in Hcn.
  pose proof Hco as Hco'. pose proof Hcn as Hcn'.
  apply sublist_snoc_r in Hco' as [Ho|(ko & Hko & Ho)];
    apply sublist_snoc_r in Hcn' as [Hn|(kn & Hkn & Hn)].
  - (* the last line of neither side is used *)
    assert (len c <= lcs_len original_lines new_lines i j) as Hle
      by (apply IHi; [lia..|by split]).
    assert (len c <= lcs_len original_lines new_lines i (S j)) as Hle'.
    { apply IHi; [lia..|]. split; [done|]. by rewrite (take_S_r _ _ _ Hy). }
    case_bool_decide; lia.
  - assert (len c <= lcs_len original_lines new_lines i (S j)) as Hle'.
    { apply IHi; [lia..|]. split; [done|]. by rewrite (take_S_r _ _ _ Hy). }
    assert (len kn <= lcs_len original_lines new_lines i j) as Hle.
    { apply IHi; [lia..|]. split; [|done].
      etrans; [|exact Ho]. rewrite Hkn. by apply sublist_inserts_r. }
    assert (len c = len kn + 1) as Hlen
      by (rewrite Hkn; unfold len; rewrite length_app; simpl; lia).
    case_bool_decide; lia.
  - assert (len c <= lcs_len original_lines new_lines (S i) j) as Hle'.
    { apply IHj; [lia| |done]. by rewrite (take_S_r _ _ _ Hx). }
    assert (len ko <= lcs_len original_lines new_lines i j) as Hle.
    { apply IHi; [lia..|]. split; [done|].
      etrans; [|exact Hn]. rewrite Hko. by apply sublist_inserts_r. }
    assert (len c = len ko + 1) as Hlen
      by (rewrite Hko; unfold len; rewrite length_app; simpl; lia).
    case_bool_decide; lia.
  - rewrite Hko in Hkn. apply app_inj_tail in Hkn as [-> ->].
    rewrite bool_decide_eq_true_2 by done.
    assert (len kn <= lcs_len original_lines new_lines i j) as Hle
      by (apply IHi; [lia..|by split]).
    rewrite Hko. unfold len in *. rewrite length_app. simpl. lia.
Qed.

Lemma lcs_len_attained original_lines new_lines i j :
  (i ≤ length original_lines)%nat → (j ≤ length new_lines)%nat →
  ∃ c, common c (take i original_lines) (take j new_lines) ∧
       len c = lcs_len original_lines new_lines i j.
Proof.
  revert j. induction i as [|i IHi]; intros j Hi Hj.
  { exists []. split; [split; apply sublist_nil_l|done]. }
  induction j as [|j IHj].
  { exists []. rewrite lcs_len_0_r. split; [split; apply sublist_nil_l|done]. }
  destruct (lookup_lt_is_Some_2 original_lines i) as [x Hx]; [lia|].
  destruct (lookup_lt_is_Some_2 new_lines j) as [y Hy]; [lia|].
  rewrite (lcs_len_S _ _ _ _ x y) by done.
  rewrite (take_S_r _ _ _ Hx), (take_S_r _ _ _ Hy).
  case_bool_decide as Heq.
  - subst y. destruct (IHi j) as (c & [Hco Hcn] & Hlen); [lia..|].
    exists (c ++ [x]). split; [split; by apply sublist_app|].
    unfold len in *. rewrite length_app. simpl. lia.
  - destruct (Z.max_spec (lcs_len original_lines new_lines i (S j))
                         (lcs_len original_lines new_lines (S i) j))
      as [[_ ->]|[_ ->]].
    + destruct IHj as (c & [Hco Hcn] & Hlen); [lia|].
      rewrite (take_S_r _ _ _ Hx) in Hco.
      exists c. split; [split; [done|by apply sublist_inserts_r]|done].
    + destruct (IHi (S j)) as (c & [Hco Hcn] & Hlen); [lia..|].
      rewrite (take_S_r _ _ _ Hy) in Hcn.
      exists c. split; [split; [by apply sublist_inserts_r|done]|done].
Qed.

Lemma lcs_len_spec original_lines new_lines :
  lcs_length original_lines new_lines
    (lcs_len original_lines new_lines
       (length original_lines) (length new_lines)).
Proof.
  pose proof (lcs_len_attained original_lines new_lines
                (length original_lines) (length new_lines)) as Hex.
  pose proof (λ c, lcs_len_upper original_lines new_lines
                (length original_lines) (length new_lines) c) as Hup.
  rewrite !firstn_all in Hex. split; [by apply Hex|].
  intros c Hc. apply Hup; [done..|]. by rewrite !firstn_all.
Qed.


(** ** The table holds the recurrence *)

Lemma dp_cell_written original_lines new_lines oi k c dp :
  original_lines !! k = Some oi → (c < length new_lines)%nat →
  written original_lines new_lines k c dp →
  ∃ dp', dp_cell oi new_lines (Z.of_nat k) (Z.of_nat c) dp = Some dp' ∧
         written original_lines new_lines k (S c) dp'.
Proof.
  intros Hoi Hc [Hd Hcells].
  pose proof (lookup_lt_Some _ _ _ Hoi) as Hk.
  unfold dp_cell.
  destruct (getitem_in new_lines (Z.of_nat c)) as (nj & -> & Hnj);
    [unfold len; lia|].
  rewrite Nat2Z.id in Hnj. simpl.
  assert (Hget : ∀ i j : nat,
            (i ≤ length original_lines)%nat → (j ≤ length new_lines)%nat →
            dp_get dp (Z.of_nat i) (Z.of_nat j) = cell dp i j).
  { intros i j Hi Hj. rewrite (dp_get_cell _ _ _ _ _ Hd), !Nat2Z.id;
      [done|unfold len; lia..]. }
  replace (Z.of_nat k + 1) with (Z.of_nat (S k)) by lia.
  replace (Z.of_nat c + 1) with (Z.of_nat (S c)) by lia.
  rewrite !Hget, !Hcells by lia.
  rewrite (decide_True (P := (k ≤ k ∨ _)%nat)) by lia.
  rewrite (decide_True (P := (k ≤ k ∨ _)%nat)) by lia.
  rewrite (decide_True (P := (S k ≤ k ∨ _)%nat)) by lia.
  set (v := if bool_decide (oi = nj)
            then lcs_len original_lines new_lines k c + 1
            else Z.max (lcs_len original_lines new_lines k (S c))
                       (lcs_len original_lines new_lines (S k) c)).
  destruct (dp_set_cell _ _ dp (Z.of_nat (S k)) (Z.of_nat (S c)) v Hd)
    as (dp' & Hset & Hd' & Hcells'); [unfold len; lia..|].
  exists dp'. split.
  { unfold v. by case_bool_decide. }
  split; [done|]. intros i j Hi Hj.
  rewrite Hcells' by (unfold len; lia). rewrite !Nat2Z.id.
  case_decide as Hij.
  - destruct Hij as [-> ->].
    rewrite decide_True by lia. unfold v.
    by rewrite (lcs_len_S _ _ _ _ oi nj).
  - rewrite Hcells by done. do 2 case_decide; try done; lia.
Qed.

Lemma dp_row_written original_lines new_lines k dp :
  (k < length original_lines)%nat →
  written original_lines new_lines k 0 dp →
  ∃ dp', dp_row original_lines new_lines (len new_lines) (Z.of_nat k) dp
           = Some dp' ∧
         written original_lines new_lines (S k) 0 dp'.
Proof.
  intros Hk Hw. unfold dp_row.
  destruct (getitem_in original_lines (Z.of_nat k)) as (oi & -> & Hoi);
    [unfold len; lia|].
  rewrite Nat2Z.id in Hoi. simpl. unfold len.
  destruct (for_each_range_inv
              (λ c dp1, written original_lines new_lines k c dp1)
              (dp_cell oi new_lines (Z.of_nat k)) (length new_lines) dp)
    as (dp' & -> & [Hd' Hcells']); [done| |].
  { intros c dp1 Hc Hw1. by apply dp_cell_written. }
  exists dp'. split; [done|]. split; [done|].
  intros i j Hi Hj. rewrite Hcells' by done.
  do 2 case_decide; try done; try lia.
  destruct (decide (j = 0%nat)) as [->|]; [|lia].
  by rewrite lcs_len_0_r.
Qed.

Lemma build_dp_written original_lines new_lines :
  ∃ dp, build_dp original_lines new_lines = Some dp ∧
    dims (len original_lines) (len new_lines) dp ∧
    ∀ i j, (i ≤ length original_lines)%nat → (j ≤ length new_lines)%nat →
      cell dp i j = Some (lcs_len original_lines new_lines i j).
Proof.
  unfold build_dp. unfold len at 2.
  destruct (for_each_range_inv
              (λ k dp1, written original_lines new_lines k 0 dp1)
              (dp_row original_lines new_lines (len new_lines))
              (length original_lines)
              (dp_init (len original_lines) (len new_lines)))
    as (dp' & -> & [Hd' Hcells']).
  - split; [apply dims_init, len_nonneg|]. intros i j Hi Hj.
    rewrite cell_init by (unfold len; lia).
    case_decide as Hij; [|done]. f_equal.
    destruct Hij as [Hi0|[-> Hj0]].
    + replace i with 0%nat by lia. by rewrite lcs_len_0_l.
    + replace j with 0%nat by lia. by rewrite lcs_len_0_r.
  - intros k dp1 Hk Hw. by apply dp_row_written.
  - exists dp'. split; [done|]. split; [done|]. intros i j Hi Hj.
    rewrite Hcells' by done. by rewrite decide_True by lia.
Qed.


Lemma map_lines_run original_lines new_lines :
  ∃ dp tr,
    dims (len original_lines) (len new_lines) dp ∧
    (∀ i j, (i ≤ length original_lines)%nat → (j ≤ length new_lines)%nat →
       cell dp i j = Some (lcs_len original_lines new_lines i j)) ∧
    bt_run original_lines new_lines dp
      (len original_lines) (len new_lines) tr ∧
    map_lines original_lines new_lines = Some (map to_mapping (rev tr)).
Proof.
  unfold map_lines.
  destruct (build_dp_written original_lines new_lines)
    as (dp & -> & Hd & Hcells).
  simpl.
  pose proof (len_nonneg original_lines). pose proof (len_nonneg new_lines).
  destruct (bt_loop_run original_lines new_lines dp
              (Z.to_nat (len original_lines + len new_lines))
              (len original_lines) (len new_lines) [] Hd)
    as (tr & -> & Hrun); [lia..|].
  simpl. by exists dp, tr.
Qed.

Lemma bt_run_det original_lines new_lines dp i j tr tr' :
  bt_run original_lines new_lines dp i j tr →
  bt_run original_lines new_lines dp i j tr' →
  tr' = tr.
Proof.
  intros Hrun. revert tr'.
  induction Hrun as [|i j x tr Hi Hj Hx Hy _ IH|i j tr Hi Hj Hwhy _ IH
                    |i j tr Hi Hj Hwhy _ IH]; intros tr' Hrun'.
  - inversion Hrun'; subst; (done || lia).
  - inversion Hrun' as [|? ? x' tr0 ? ? Hx' Hy' Hrest
                        |? ? tr0 ? ? Hwhy' Hrest
                        |? ? tr0 ? ? Hwhy' Hrest]; subst.
    + lia.
    + f_equal. by apply IH.
    + exfalso. destruct Hwhy' as [?|(_ & x' & y' & a & b & Hx' & Hy' & Hne & _)];
        [lia|]. congruence.
    + exfalso. destruct Hwhy' as [?|(_ & x' & y' & a & b & Hx' & Hy' & Hne & _)];
        [lia|]. congruence.
  - inversion Hrun' as [|? ? x' tr0 ? ? Hx' Hy' Hrest
                        |? ? tr0 ? ? Hwhy' Hrest
                        |? ? tr0 ? ? Hwhy' Hrest]; subst.
    + lia.
    + exfalso. destruct Hwhy as [?|(_ & x & y & a & b & Hx & Hy & Hne & _)];
        [lia|]. congruence.
    + f_equal. by apply IH.
    + exfalso.
      destruct Hwhy as [?|(_ & x & y & a & b & Hx & Hy & Hne & Ha & Hb & Hle)];
        [lia|].
      destruct Hwhy' as
        [?|(_ & x' & y' & a' & b' & Hx' & Hy' & Hne' & Ha' & Hb' & Hlt)];
        [lia|].
      rewrite Ha in Ha'. rewrite Hb in Hb'. simplify_eq. lia.
  - inversion Hrun' as [|? ? x' tr0 ? ? Hx' Hy' Hrest
                        |? ? tr0 ? ? Hwhy' Hrest
                        |? ? tr0 ? ? Hwhy' Hrest]; subst.
    + lia.
    + exfalso. destruct Hwhy as [?|(_ & x & y & a & b & Hx & Hy & Hne & _)];
        [lia|]. congruence.
    + exfalso.
      destruct Hwhy as
        [?|(_ & x & y & a & b & Hx & Hy & Hne & Ha & Hb & Hlt)]; [lia|].
      destruct Hwhy' as
        [?|(_ & x' & y' & a' & b' & Hx' & Hy' & Hne' & Ha' & Hb' & Hle)];
        [lia|].
      rewrite Ha in Ha'. rewrite Hb in Hb'. simplify_eq. lia.
    + f_equal. by apply IH.
Qed.

(** A run that stands at a tie goes on with the Insert. *)
Lemma bt_run_tie original_lines new_lines dp i j rest oi nj v :
  bt_run original_lines new_lines dp i j rest →
  0 < i → 0 < j →
  getitem original_lines (i - 1) = Some oi →
  getitem new_lines (j - 1) = Some nj →
  oi ≠ nj →
  dp_get dp i (j - 1) = Some v →
  dp_get dp (i - 1) j = Some v →
  ∃ rest', rest = (k_ins, -1, j) :: rest' ∧
           bt_run original_lines new_lines dp i (j - 1) rest'.
Proof.
  intros Hrun Hi Hj Hoi Hnj Hne Ha Hb.
  assert (Hlo : original_lines !! Z.to_nat (i - 1) = Some oi).
  { destruct (getitem_in original_lines (i - 1)) as (x & Hg & Hl).
    - unfold getitem, norm_index in Hoi.
      destruct (Z.ltb_spec (i - 1) 0); [lia|].
      destruct ((0 <=? i - 1) && (i - 1 <? len original_lines)) eqn:Hr;
        [|done].
      apply andb_true_iff in Hr as [_ Hr%Z.ltb_lt]. lia.
    - congruence. }
  assert (Hln : new_lines !! Z.to_nat (j - 1) = Some nj).
  { destruct (getitem_in new_lines (j - 1)) as (x & Hg & Hl).
    - unfold getitem, norm_index in Hnj.
      destruct (Z.ltb_spec (j - 1) 0); [lia|].
      destruct ((0 <=? j - 1) && (j - 1 <? len new_lines)) eqn:Hr;
        [|done].
      apply andb_true_iff in Hr as [_ Hr%Z.ltb_lt]. lia.
    - congruence. }
  inversion Hrun as [|? ? x' tr0 ? ? Hx' Hy' Hrest
                     |? ? tr0 ? ? Hwhy' Hrest
                     |? ? tr0 ? ? Hwhy' Hrest]; subst.
  - lia.
  - congruence.
  - by exists tr0.
  - exfalso.
    destruct Hwhy' as
      [?|(_ & x' & y' & a' & b' & Hx' & Hy' & Hne' & Ha' & Hb' & Hlt)]; [lia|].
    rewrite Ha in Ha'. rewrite Hb in Hb'. simplify_eq. lia.
Qed.

Lemma map_lines_trace original_lines new_lines :
  ∃ dp tr,
    build_dp original_lines new_lines = Some dp ∧
    bt_loop (Z.to_nat (len original_lines + len new_lines))
      original_lines new_lines dp (len original_lines) (len new_lines) []
      = Some tr ∧
    bt_run original_lines new_lines dp
      (len original_lines) (len new_lines) tr ∧
    map_lines original_lines new_lines = Some (map to_mapping (rev tr)).
Proof.
  unfold map_lines.
  destruct (build_dp_written original_lines new_lines)
    as (dp & Hdp & Hd & Hcells).
  rewrite Hdp. simpl.
  pose proof (len_nonneg original_lines). pose proof (len_nonneg new_lines).
  destruct (bt_loop_run original_lines new_lines dp
              (Z.to_nat (len original_lines + len new_lines))
              (len original_lines) (len new_lines) [] Hd)
    as (tr & Hloop & Hrun); [lia..|].
  rewrite Hloop. simpl. by exists dp, tr.
Qed.

Lemma bt_loop_identity (lines : list A) dp fuel i ops :
  dims (len lines) (len lines) dp → 0 <= i <= len lines →
  (Z.to_nat i ≤ fuel)%nat →
  ∃ tr, bt_loop fuel lines lines dp i i ops = Some (ops ++ tr) ∧
        map to_mapping (rev tr) = map (λ k, (k, k)) (positions i).
Proof.
  intros Hd. revert i ops.
  induction fuel as [|fuel IH]; intros i ops Hi Hfuel; simpl.
  - replace i with 0 by lia. simpl. exists []. by rewrite app_nil_r.
  - destruct (Z.ltb_spec 0 i) as [Hi0|Hi0]; simpl.
    2: { replace i with 0 by lia. exists []. by rewrite app_nil_r. }
    unfold bt_body. destruct (Z.ltb_spec 0 i); [|lia]. simpl.
    destruct (getitem_in lines (i - 1)) as (x & -> & _); [lia|]. simpl.
    rewrite bool_decide_eq_true_2 by done. simpl.
    destruct (IH (i - 1) (ops ++ [(k_match, i, i)])) as (tr & -> & Htr);
      [lia..|].
    exists ((k_match, i, i) :: tr). rewrite <- app_assoc. split; [done|].
    simpl. rewrite map_app, Htr, (positions_snoc i) by lia.
    by rewrite map_app.
Qed.


End MoreMapLines.

Lemma length_wf_mappings l :
  Forall wf_mapping l → len l = matched l + removed l + added l.
Proof.
  unfold matched, removed, added. rewrite !py_sum_ones. unfold len.
  induction 1 as [|[o n] l Hp _ IH]; simpl; [done|].
  destruct Hp as [[? ?]|[[? ?]|[? ?]]]; simpl in *;
    destruct (Z.ltb_spec 0 o), (Z.ltb_spec 0 n), (Z.eqb_spec n (-1)),
      (Z.eqb_spec o (-1)); simpl; lia.
Qed.

(** ** The tie-break of [map_lines] *)

(** C2 (tie-break): the list returned by [map_lines] comes from the one run
    of the backtracking on the table that was built: the operations [tr]
    that the loop appends, reversed and converted.  That run is the only
    one the three tests of the loop allow, and wherever it stands at
    (i, j) with i > 0, j > 0, unequal current lines and
    dp[i][j-1] == dp[i-1][j], the operation it appends there is the Insert
    for j, after which it stands at (i, j-1); it is not a Delete.  The pass
    of the loop does so at every table and every state. *)
Theorem map_lines_tie_break {A} `{EqDecision A}
    (original_lines new_lines : list A) :
  ∃ dp tr,
    build_dp original_lines new_lines = Some dp ∧
    bt_loop (Z.to_nat (len original_lines + len new_lines))
      original_lines new_lines dp (len original_lines) (len new_lines) []
      = Some tr ∧
    map_lines original_lines new_lines = Some (map to_mapping (rev tr)) ∧
    bt_run original_lines new_lines dp
      (len original_lines) (len new_lines) tr ∧
    (∀ tr', bt_run original_lines new_lines dp
              (len original_lines) (len new_lines) tr' → tr' = tr) ∧
    (∀ pre rest i j oi nj v,
       tr = pre ++ rest →
       bt_run original_lines new_lines dp i j rest →
       0 < i → 0 < j →
       getitem original_lines (i - 1) = Some oi →
       getitem new_lines (j - 1) = Some nj →
       oi ≠ nj →
       dp_get dp i (j - 1) = Some v →
       dp_get dp (i - 1) j = Some v →
       ∃ rest', rest = (k_ins, -1, j) :: rest' ∧
                bt_run original_lines new_lines dp i (j - 1) rest') ∧
    (∀ (dp0 : table) i j ops oi nj v fuel,
       0 < i → 0 < j →
       getitem original_lines (i - 1) = Some oi →
       getitem new_lines (j - 1) = Some nj →
       oi ≠ nj →
       dp_get dp0 i (j - 1) = Some v →
       dp_get dp0 (i - 1) j = Some v →
       bt_body original_lines new_lines dp0 i j ops =
         Some (i, j - 1, ops ++ [(k_ins, -1, j)]) ∧
       bt_loop (S fuel) original_lines new_lines dp0 i j ops =
         bt_loop fuel original_lines new_lines dp0 i (j - 1)
           (ops ++ [(k_ins, -1, j)])).
Proof.
  destruct (map_lines_trace original_lines new_lines)
    as (dp & tr & Hdp & Hloop & Hrun & Hmap).
  exists dp, tr. split_and!; try done.
  - intros tr' Hrun'. by eapply bt_run_det.
  - intros pre rest i j oi nj v _ Hrest. by apply bt_run_tie.
  - intros dp0 i j ops oi nj v fuel. by apply bt_tie_step.
Qed.

(** The swap of the spec: the run starts at (2, 2), where the lines differ
    and both neighbours hold 1, and the list ends with the Insert of new
    line 2. *)
Lemma map_lines_tie_break_witness :
  let original_lines := map lit ["a"; "x"] in
  let new_lines := map lit ["x"; "a"] in
  ∃ dp tr,
    build_dp original_lines new_lines = Some dp ∧
    dp = [[0; 0; 0]; [0; 0; 1]; [0; 1; 1]] ∧
    dp_get dp 2 1 = Some 1 ∧ dp_get dp 1 2 = Some 1 ∧
    bt_run original_lines new_lines dp 2 2 tr ∧
    tr = [(k_ins, -1, 2); (k_match, 2, 1); (k_del, 1, -1)] ∧
    map_lines original_lines new_lines = Some [(1, -1); (2, 1); (-1, 2)].
Proof.
  intros original_lines new_lines.
  destruct (map_lines_tie_break original_lines new_lines)
    as (dp & tr & Hdp & Hloop & Hmap & Hrun & _ & Htie & _).
  assert (Hdp' : dp = [[0; 0; 0]; [0; 0; 1]; [0; 1; 1]]).
  { vm_compute in Hdp. by injection Hdp as <-. }
  subst dp.
  destruct (Htie [] tr 2 2 (lit "x") (lit "a") 1 eq_refl Hrun)
    as (rest' & Htr & _); [lia|lia|reflexivity|reflexivity|discriminate
                          |reflexivity|reflexivity|].
  assert (Htr' : tr = [(k_ins, -1, 2); (k_match, 2, 1); (k_del, 1, -1)]).
  { vm_compute in Hloop. by injection Hloop as <-. }
  exists [[0; 0; 0]; [0; 0; 1]; [0; 1; 1]], tr.
  split_and!; [done|done|reflexivity|reflexivity|done|done|].
  rewrite Hmap, Htr'. reflexivity.
Defined.

(** ** Further properties of [map_lines] *)

(** X1: the original positions of the mapping list are 1, ..., n in
    increasing order, and so are the new positions 1, ..., m. *)
Theorem map_lines_ascending {A} `{EqDecision A}
    (original_lines new_lines : list A) :
  ∃ mappings, map_lines original_lines new_lines = Some mappings ∧
    orig_positions mappings = positions (len original_lines) ∧
    new_positions mappings = positions (len new_lines).
Proof.
  destruct (map_lines_aligned original_lines new_lines)
    as (mappings & Hrun & Ho & Hn & _).
  by exists mappings.
Qed.

(** X2: every pair of the mapping list is a match (both sides positive), a
    deletion (new side -1) or an insertion (original side -1); no side is 0
    and no pair is (-1, -1). *)
Theorem map_lines_shapes {A} `{EqDecision A}
    (original_lines new_lines : list A) :
  ∃ mappings, map_lines original_lines new_lines = Some mappings ∧
    ∀ o n, (o, n) ∈ mappings →
      (0 < o ∧ 0 < n) ∨ (0 < o ∧ n = -1) ∨ (o = -1 ∧ 0 < n).
Proof.
  destruct (map_lines_aligned original_lines new_lines)
    as (mappings & Hrun & _ & _ & Hwf).
  exists mappings. split; [done|]. intros o n Hin.
  rewrite Forall_forall in Hwf. exact (Hwf (o, n) Hin).
Qed.

(** X3: the mapping list has n + m - matched entries: every line of either
    sequence gives one entry, a matched pair of lines shares one. *)
Theorem map_lines_length {A} `{EqDecision A}
    (original_lines new_lines : list A) :
  ∃ mappings, map_lines original_lines new_lines = Some mappings ∧
    len mappings = matched mappings + removed mappings + added mappings ∧
    len mappings = len original_lines + len new_lines - matched mappings.
Proof.
  destruct (map_lines_aligned original_lines new_lines)
    as (mappings & Hrun & Ho & Hn & Hwf).
  exists mappings. split; [done|].
  pose proof (length_wf_mappings _ Hwf) as Hlen.
  pose proof (counts_orig _ Hwf) as Hco. pose proof (counts_new _ Hwf) as Hcn.
  rewrite Ho, length_positions in Hco by apply len_nonneg.
  rewrite Hn, length_positions in Hcn by apply len_nonneg.
  lia.
Qed.

(** X4: a matched pair joins equal lines: for (o, n) in the mapping list
    with both sides positive, original_lines[o-1] == new_lines[n-1]. *)
Theorem map_lines_match_equal {A} `{EqDecision A}
    (original_lines new_lines : list A) :
  ∃ mappings, map_lines original_lines new_lines = Some mappings ∧
    ∀ o n, (o, n) ∈ mappings → 0 < o → 0 < n →
      ∃ x, getitem original_lines (o - 1) = Some x ∧
           getitem new_lines (n - 1) = Some x.
Proof.
  destruct (map_lines_run original_lines new_lines)
    as (dp & tr & _ & _ & Hrun & Hmap).
  eexists. split; [exact Hmap|]. intros o n Hin Ho Hn.
  apply list_elem_of_In, in_map_iff in Hin as (e & He & Hin).
  apply in_rev in Hin.
  destruct (run_sound _ _ _ _ _ _ Hrun o n) as (x & Hx & Hy); [|done..|].
  { apply list_elem_of_In, in_map_iff. by exists e. }
  exists x. split; apply getitem_lookup; (done || lia).
Qed.

(** X5 (identity): a sequence aligned with itself gives the matches
    (1,1), ..., (n,n) and nothing else. *)
Theorem map_lines_identity {A} `{EqDecision A} (lines : list A) :
  map_lines lines lines = Some (map (λ k, (k, k)) (positions (len lines))).
Proof.
  unfold map_lines.
  destruct (build_dp_ok lines lines) as (dp & -> & Hd & _). simpl.
  pose proof (len_nonneg lines).
  destruct (bt_loop_identity lines dp (Z.to_nat (len lines + len lines))
              (len lines) [] Hd) as (tr & -> & Htr); [lia..|].
  simpl. by rewrite Htr.
Qed.

(** X6: when the table is built, dp[i][j] is the length of a longest
    common subsequence of the first i original lines and the first j new
    lines, for all 0 <= i <= n and 0 <= j <= m. *)
Theorem build_dp_lcs {A} `{EqDecision A}
    (original_lines new_lines : list A) :
  ∃ dp, build_dp original_lines new_lines = Some dp ∧
    ∀ i j, 0 <= i <= len original_lines → 0 <= j <= len new_lines →
      ∃ v, dp_get dp i j = Some v ∧
           lcs_length (take (Z.to_nat i) original_lines)
                      (take (Z.to_nat j) new_lines) v.
Proof.
  destruct (build_dp_written original_lines new_lines)
    as (dp & Hdp & Hd & Hcells).
  exists dp. split; [done|]. intros i j Hi Hj.
  eexists. split.
  - rewrite (dp_get_cell _ _ _ _ _ Hd) by done.
    apply Hcells; unfold len in *; lia.
  - split.
    + apply lcs_len_attained; unfold len in *; lia.
    + intros c Hc. apply lcs_len_upper; [unfold len in *; lia..|done].
Qed.

(** X7 (optimality): the matched lines of the mapping list are a longest
    common subsequence of the two sequences: they are a subsequence of
    both, there are [matched] of them, and no common subsequence is
    longer. *)
Theorem map_lines_optimal {A} `{EqDecision A}
    (original_lines new_lines : list A) :
  ∃ mappings, map_lines original_lines new_lines = Some mappings ∧
    common (matched_lines original_lines mappings) original_lines new_lines ∧
    len (matched_lines original_lines mappings) = matched mappings ∧
    ∀ c, common c original_lines new_lines → len c <= matched mappings.
Proof.
  destruct (map_lines_run original_lines new_lines)
    as (dp & tr & Hd & Hcells & Hrun & Hmap).
  eexists. split; [exact Hmap|].
  destruct (run_common _ _ _ _ _ _ Hrun) as (Ho & Hn & Hlen).
  unfold len in Ho, Hn. rewrite Nat2Z.id, firstn_all in Ho, Hn.
  split; [by split|]. split; [done|].
  intros c Hc.
  rewrite (run_matched_lcs _ _ _ _ _ _ Hd Hcells Hrun) by lia.
  unfold len at 2 3. rewrite !Nat2Z.id.
  by apply (lcs_len_spec original_lines new_lines).
Qed.

(** ** More on searching a marker *)

Lemma find_pair_none a b s start :
  0 <= start → (∀ q, (Z.to_nat start ≤ q)%nat → ¬ pair_at a b s q) →
  find s [a; b] start = -1.
Proof.
  intros Hs Hnone. destruct (Z.eq_dec (find s [a; b] start) (-1)); [done|].
  destruct (find_pair_pos a b s start _ Hs eq_refl) as (Hle & Hat & _);
    [done|].
  exfalso. apply (Hnone (Z.to_nat (find s [a; b] start))); [lia|done].
Qed.

Lemma find_pair_eq a b s start (e : nat) :
  0 <= start → (Z.to_nat start ≤ e)%nat → pair_at a b s e →
  (∀ q, (Z.to_nat start ≤ q < e)%nat → ¬ pair_at a b s q) →
  find s [a; b] start = Z.of_nat e.
Proof.
  intros Hs Hle Hat Hmin.
  destruct (Z.eq_dec (find s [a; b] start) (-1)) as [Hneg|Hpos].
  { exfalso. by apply (find_pair_neg a b s start Hs Hneg e). }
  destruct (find_pair_pos a b s start _ Hs eq_refl Hpos)
    as (Hle' & Hat' & Hmin').
  destruct (Nat.lt_trichotomy (Z.to_nat (find s [a; b] start)) e)
    as [Hlt|[Heq|Hgt]].
  - exfalso. apply (Hmin (Z.to_nat (find s [a; b] start))); [lia|done].
  - lia.
  - exfalso. apply (Hmin' e); [lia|done].
Qed.

Lemma find_nat_pair_eq a b s (k : nat) :
  pair_at a b s k → (∀ q, (q < k)%nat → ¬ pair_at a b s q) →
  find_nat [a; b] s = Some k.
Proof.
  intros Hat Hmin. destruct (find_nat [a; b] s) as [k'|] eqn:Hf.
  - destruct (find_nat_pair_Some _ _ _ _ Hf) as [Hat' Hmin'].
    destruct (Nat.lt_trichotomy k' k) as [Hlt|[->|Hgt]]; [|done|].
    + exfalso. by apply (Hmin k').
    + exfalso. by apply (Hmin' k).
  - exfalso. by apply (find_nat_pair_None _ _ _ Hf k).
Qed.

(** The loop is left at once exactly when no close marker stands two or
    more characters behind an open marker. *)
Lemma block_step_None_iff line :
  block_step line = None ↔
  ∀ p q, pair_at "/" "*" line p → pair_at "*" "/" line q → (q < p + 2)%nat.
Proof.
  split.
  - intros Hnone p q Hp Hq.
    destruct (decide (q < p + 2)%nat) as [|Hge]; [done|]. exfalso.
    revert Hnone. unfold block_step.
    change BLOCK_OPEN with ["/"; "*"]%char.
    change BLOCK_CLOSE with ["*"; "/"]%char.
    rewrite (proj2 (contains_pair "/" "*" line)) by eauto.
    rewrite (proj2 (contains_pair "*" "/" line)) by eauto. simpl.
    set (start := find line ["/"; "*"]%char 0).
    assert (Hstart : start ≠ -1).
    { intros Hneg.
      by apply (find_pair_neg "/" "*" line 0 ltac:(lia) Hneg p ltac:(lia)). }
    destruct (find_pair_pos "/" "*" line 0 start) as (Hs0 & _ & Hmin);
      [lia|done|done|].
    assert (Z.to_nat start ≤ p)%nat as Hfirst.
    { destruct (decide (Z.to_nat start ≤ p)%nat); [done|].
      exfalso. apply (Hmin p); [lia|done]. }
    destruct (Z.eqb_spec (find line ["*"; "/"]%char (start + 2)) (-1))
      as [Hneg|]; [|done].
    intros _.
    apply (find_pair_neg "*" "/" line (start + 2) ltac:(lia) Hneg q);
      [lia|done].
  - intros Hnone.
    destruct (block_step line) as [line'|] eqn:Hstep; [|done].
    apply block_step_Some in Hstep as (p & q & Hp & Hq & Hle & _).
    specialize (Hnone p q Hp Hq). lia.
Qed.

(** ** Further properties of [normalize_line] *)

Lemma normalize_line_clean s q : ¬ pair_at "/" "/" (normalize_line s) q.
Proof.
  intros Hat. unfold normalize_line in Hat.
  destruct (strip_infix (strip_block_comments (strip_line_comment s)))
    as (pre & post & Hinfix).
  apply (pair_at_infix _ _ pre _ post) in Hat. rewrite <- Hinfix in Hat.
  revert Hat. apply block_loop_clean, strip_line_comment_clean.
Qed.

Lemma normalize_line_left s : block_step (normalize_line s) = None.
Proof. apply block_step_None_strip, block_loop_stable. done. Qed.

(** X8: no line-comment marker is left: '//' is not in normalize_line(s). *)
Theorem normalize_line_no_line_comment (s : str) :
  contains LINE_COMMENT (normalize_line s) = false.
Proof.
  apply (contains_pair_false "/" "/"). apply normalize_line_clean.
Qed.

(** X9: no closed block comment is left: in normalize_line(s) no '*/'
    stands two or more characters behind a '/*'. *)
Theorem normalize_line_no_block_comment (s : str) (p q : nat) :
  pair_at "/" "*" (normalize_line s) p →
  pair_at "*" "/" (normalize_line s) q →
  (q < p + 2)%nat.
Proof. apply block_step_None_iff, normalize_line_left. Qed.

Lemma normalize_line_no_block_comment_witness :
  let t := normalize_line (lit "a */ b /* c /* d") in
  pair_at "/" "*" t 7 ∧ pair_at "*" "/" t 2 ∧ (2 < 7 + 2)%nat.
Proof.
  intros t. assert (H1 : pair_at "/" "*" t 7) by (by split).
  assert (H2 : pair_at "*" "/" t 2) by (by split).
  split_and!; [done..|].
  exact (normalize_line_no_block_comment _ 7 2 H1 H2).
Defined.

(** X10: the result is trimmed: it neither starts nor ends with a white
    space character. *)
Theorem normalize_line_trimmed (s : str) :
  head_ok (normalize_line s) ∧ head_ok (rev (normalize_line s)).
Proof.
  unfold normalize_line, strip. split.
  - apply rstrip_head_ok, lstrip_head_ok.
  - unfold rstrip. rewrite rev_involutive. apply lstrip_head_ok.
Qed.

Lemma strip_sublist s : strip s `sublist_of` s.
Proof.
  destruct (strip_infix s) as (pre & post & Hinfix).
  pose proof (sublist_inserts_l pre _ _
                (sublist_inserts_r post _ _ (reflexivity (strip s)))) as H.
  by rewrite <- Hinfix in H.
Qed.

Lemma block_step_sublist line line' :
  block_step line = Some line' → line' `sublist_of` line.
Proof.
  intros (start & end_ & _ & _ & Hle & ->)%block_step_Some.
  rewrite <- (take_drop start line) at 3.
  apply sublist_app; [done|].
  replace (end_ + 2)%nat with (start + (end_ + 2 - start))%nat by lia.
  rewrite <- drop_drop. apply sublist_drop.
Qed.

Lemma block_loop_sublist fuel line : block_loop fuel line `sublist_of` line.
Proof.
  revert line. induction fuel as [|fuel IH]; intros line; simpl; [done|].
  destruct (block_step line) as [line'|] eqn:Hstep; [|done].
  etrans; [apply IH|]. by apply block_step_sublist.
Qed.

(** X11: normalisation only deletes characters: normalize_line(s) is a
    subsequence of s, so it is no longer than s. *)
Theorem normalize_line_sublist (s : str) :
  normalize_line s `sublist_of` s ∧ (length (normalize_line s) ≤ length s)%nat.
Proof.
  assert (Hsub : normalize_line s `sublist_of` s).
  { unfold normalize_line.
    transitivity (strip_block_comments (strip_line_comment s));
      [apply strip_sublist|].
    transitivity (strip_line_comment s); [apply block_loop_sublist|].
    unfold strip_line_comment, split1_head.
    destruct (contains LINE_COMMENT s); [|done].
    destruct (find_nat LINE_COMMENT s); [apply sublist_take|done]. }
  split; [done|]. by apply sublist_length.
Qed.

Lemma block_loop_enough f1 f2 line :
  (length line ≤ f1)%nat → (length line ≤ f2)%nat →
  block_loop f1 line = block_loop f2 line.
Proof.
  revert f2 line. induction f1 as [|f1 IH]; intros f2 line H1 H2.
  - destruct line; [|simpl in H1; lia].
    destruct f2; [done|]. simpl. by destruct (block_step []) eqn:Hs;
      [apply block_step_shrinks in Hs; simpl in Hs; lia|].
  - destruct f2 as [|f2].
    + destruct line; [|simpl in H2; lia]. simpl.
      by destruct (block_step []) eqn:Hs;
        [apply block_step_shrinks in Hs; simpl in Hs; lia|].
    + simpl. destruct (block_step line) as [line'|] eqn:Hs; [|done].
      apply block_step_shrinks in Hs. apply IH; lia.
Qed.

(** Reading inside the middle part of a three-part line. *)
Lemma lookup_middle {A} (pre x post : list A) (i : nat) :
  (i < length x)%nat → (pre ++ x ++ post) !! (length pre + i)%nat = x !! i.
Proof.
  intros Hi. rewrite lookup_app_r by lia.
  replace (length pre + i - length pre)%nat with i by lia.
  by apply lookup_app_l.
Qed.

Lemma strip_line_comment_id s :
  contains LINE_COMMENT s = false → strip_line_comment s = s.
Proof. intros Hc. unfold strip_line_comment. by rewrite Hc. Qed.

(** X12: the text behind the first '//' does not count: when '//' does not
    occur in pre + '/', normalize_line(pre + '//' + rest) is
    normalize_line(pre), whatever rest is. *)
Theorem normalize_line_drops_line_comment (pre rest : str) :
  contains LINE_COMMENT (pre ++ lit "/") = false →
  normalize_line (pre ++ lit "//" ++ rest) = normalize_line pre.
Proof.
  intros Hpre. pose proof (proj1 (contains_pair_false "/" "/" _) Hpre) as Hno.
  unfold normalize_line. f_equal. f_equal.
  rewrite (strip_line_comment_id pre).
  2: { apply (contains_pair_false "/" "/"). intros q [H1 H2].
       apply (Hno q). split; by apply lookup_app_l_Some. }
  assert (Hat : pair_at "/" "/" (pre ++ lit "//" ++ rest) (length pre)).
  { replace (length pre) with (length pre + 0)%nat by lia.
    by apply pair_at_infix. }
  unfold strip_line_comment. change LINE_COMMENT with ["/"; "/"]%char.
  rewrite (proj2 (contains_pair "/" "/" _)) by eauto.
  unfold split1_head.
  rewrite (find_nat_pair_eq "/" "/" _ (length pre) Hat).
  - apply take_app_length.
  - intros q Hq [H1 H2]. apply (Hno q).
    change (pre ++ lit "//" ++ rest)
      with (pre ++ ["/"%char] ++ ("/"%char :: rest)) in H1, H2.
    rewrite app_assoc in H1, H2.
    rewrite lookup_app_l in H1 by (rewrite length_app; simpl; lia).
    rewrite lookup_app_l in H2 by (rewrite length_app; simpl; lia).
    by split.
Qed.

Lemma normalize_line_drops_line_comment_witness :
  contains LINE_COMMENT (lit "int x; " ++ lit "/") = false ∧
  normalize_line (lit "int x; " ++ lit "//" ++ lit " counter /* c */")
    = normalize_line (lit "int x; ").
Proof.
  split; [reflexivity|].
  by apply (normalize_line_drops_line_comment (lit "int x; ")).
Defined.

(** A pass of the loop removes the first closed block comment. *)
Lemma block_step_removes (pre mid post : str) :
  contains BLOCK_OPEN pre = false →
  contains BLOCK_CLOSE (mid ++ lit "*") = false →
  block_step (pre ++ lit "/*" ++ mid ++ lit "*/" ++ post)
    = Some (pre ++ post).
Proof.
  intros Hpre Hmid.
  pose proof (proj1 (contains_pair_false "/" "*" _) Hpre) as Hno.
  pose proof (proj1 (contains_pair_false "*" "/" _) Hmid) as Hno'.
  set (s := pre ++ lit "/*" ++ mid ++ lit "*/" ++ post).
  assert (Hopen : pair_at "/" "*" s (length pre)).
  { replace (length pre) with (length pre + 0)%nat by lia.
    by apply pair_at_infix. }
  assert (Hclose : pair_at "*" "/" s (length pre + 2 + length mid)).
  { unfold s.
    replace (pre ++ lit "/*" ++ mid ++ lit "*/" ++ post)
      with ((pre ++ lit "/*" ++ mid) ++ lit "*/" ++ post)
      by (by rewrite <- !app_assoc).
    replace (length pre + 2 + length mid)%nat
      with (length (pre ++ lit "/*" ++ mid) + 0)%nat
      by (rewrite !length_app; simpl; lia).
    by apply pair_at_infix. }
  assert (Hstart : find s ["/"; "*"]%char 0 = Z.of_nat (length pre)).
  { apply find_pair_eq; [lia|lia|done|].
    intros q Hq [H1 H2]. unfold s in H1, H2.
    rewrite lookup_app_l in H1 by lia.
    destruct (decide (S q < length pre)%nat).
    - rewrite lookup_app_l in H2 by lia. by apply (Hno q).
    - replace (S q) with (length pre + 0)%nat in H2 by lia.
      rewrite (lookup_middle pre (lit "/*")) in H2 by (simpl; lia).
      done. }
  assert (Hend : find s ["*"; "/"]%char (Z.of_nat (length pre) + 2)
                 = Z.of_nat (length pre + 2 + length mid)).
  { apply find_pair_eq; [lia|lia|done|].
    intros q Hq [H1 H2]. apply (Hno' (q - (length pre + 2))%nat).
    unfold s in H1, H2.
    replace (pre ++ lit "/*" ++ mid ++ lit "*/" ++ post)
      with ((pre ++ lit "/*") ++ (mid ++ lit "*") ++ (lit "/" ++ post))
      in H1, H2 by (by rewrite <- !app_assoc).
    assert (Hlen : length (pre ++ lit "/*") = (length pre + 2)%nat)
      by (rewrite length_app; simpl; lia).
    replace q with (length (pre ++ lit "/*") + (q - (length pre + 2)))%nat
      in H1 by lia.
    replace (S q)
      with (length (pre ++ lit "/*") + S (q - (length pre + 2)))%nat
      in H2 by lia.
    rewrite lookup_middle in H1, H2 by (rewrite length_app; simpl; lia).
    by split. }
  unfold block_step.
  change BLOCK_OPEN with ["/"; "*"]%char.
  change BLOCK_CLOSE with ["*"; "/"]%char.
  rewrite (proj2 (contains_pair "/" "*" s)) by eauto.
  rewrite (proj2 (contains_pair "*" "/" s)) by eauto. simpl.
  rewrite Hstart, Hend.
  destruct (Z.eqb_spec (Z.of_nat (length pre + 2 + length mid)) (-1));
    [lia|].
  f_equal. rewrite Nat2Z.id. unfold s. rewrite take_app_length. f_equal.
  replace (pre ++ lit "/*" ++ mid ++ lit "*/" ++ post)
    with ((pre ++ lit "/*" ++ mid ++ lit "*/") ++ post)
    by (by rewrite <- !app_assoc).
  replace (Z.to_nat (Z.of_nat (length pre + 2 + length mid) + 2))
    with (length (pre ++ lit "/*" ++ mid ++ lit "*/"))
    by (rewrite !length_app; simpl; lia).
  apply drop_app_length.
Qed.

(** X13 (comment insensitivity): a line without '//' whose first block
    comment is /* mid */ normalises like the line without that comment. *)
Theorem normalize_line_drops_block_comment (pre mid post : str) :
  contains LINE_COMMENT (pre ++ lit "/*" ++ mid ++ lit "*/" ++ post) = false →
  contains BLOCK_OPEN pre = false →
  contains BLOCK_CLOSE (mid ++ lit "*") = false →
  normalize_line (pre ++ lit "/*" ++ mid ++ lit "*/" ++ post)
    = normalize_line (pre ++ post).
Proof.
  intros Hline Hpre Hmid.
  pose proof (block_step_removes pre mid post Hpre Hmid) as Hstep.
  set (s := pre ++ lit "/*" ++ mid ++ lit "*/" ++ post) in *.
  assert (Hclean : contains LINE_COMMENT (pre ++ post) = false).
  { apply (contains_pair_false "/" "/").
    apply (block_step_clean s); [|done].
    by apply (contains_pair_false "/" "/"). }
  unfold normalize_line. f_equal.
  rewrite !strip_line_comment_id by done.
  unfold strip_block_comments.
  pose proof (block_step_shrinks _ _ Hstep) as Hlt.
  destruct (length s) as [|f] eqn:Hlen; [lia|].
  simpl. rewrite Hstep. apply block_loop_enough; lia.
Qed.

Lemma normalize_line_drops_block_comment_witness :
  let pre := lit "x = 1; " in
  let mid := lit " note * " in
  let post := lit " y = 2;" in
  contains LINE_COMMENT (pre ++ lit "/*" ++ mid ++ lit "*/" ++ post) = false ∧
  contains BLOCK_OPEN pre = false ∧
  contains BLOCK_CLOSE (mid ++ lit "*") = false ∧
  normalize_line (pre ++ lit "/*" ++ mid ++ lit "*/" ++ post)
    = normalize_line (pre ++ post).
Proof.
  intros pre mid post. split_and!; [reflexivity..|].
  by apply (normalize_line_drops_block_comment pre mid post).
Defined.

(** ** White space around a line *)

Lemma lstrip_pad_l ws s : all_space ws → lstrip (ws ++ s) = lstrip s.
Proof. induction 1 as [|c ws Hc _ IH]; simpl; [done|]. by rewrite Hc. Qed.

Lemma lstrip_pad_r ws s :
  all_space ws →
  lstrip (s ++ ws) = lstrip s ++ ws ∨ lstrip s = [] ∧ lstrip (s ++ ws) = [].
Proof.
  intros Hws. induction s as [|c s IH]; simpl.
  - right. split; [done|].
    rewrite <- (app_nil_r ws). by rewrite lstrip_pad_l.
  - destruct (isspace c); [done|]. by left.
Qed.

Section Padding.
Variables ws1 ws2 : str.
Hypothesis Hws1 : all_space ws1.
Hypothesis Hws2 : all_space ws2.

Lemma pair_at_pad a b s q :
  isspace a = false → isspace b = false →
  pair_at a b (ws1 ++ s ++ ws2) q ↔
  (length ws1 ≤ q)%nat ∧ pair_at a b s (q - length ws1).
Proof using Hws1 Hws2.
  intros Ha Hb.
  assert (Hout : ∀ (ws : str) i c,
            all_space ws → isspace c = false → ws !! i ≠ Some c).
  { intros ws i c Hws Hc Hi. unfold all_space in Hws.
    rewrite Forall_lookup in Hws. specialize (Hws _ _ Hi). congruence. }
  assert (Hin : ∀ i c, isspace c = false →
            (ws1 ++ s ++ ws2) !! i = Some c →
            (length ws1 ≤ i)%nat ∧ s !! (i - length ws1)%nat = Some c).
  { intros i c Hc Hi.
    destruct (decide (i < length ws1)%nat) as [Hlt|Hge].
    { rewrite lookup_app_l in Hi by done. by apply Hout in Hi. }
    split; [lia|]. rewrite lookup_app_r in Hi by lia.
    destruct (decide (i - length ws1 < length s)%nat) as [Hlt|Hge'].
    { by rewrite lookup_app_l in Hi. }
    rewrite lookup_app_r in Hi by lia. by apply Hout in Hi. }
  split.
  - intros [H1 H2]. apply Hin in H1 as [Hq H1]; [|done].
    apply Hin in H2 as [_ H2]; [|done].
    split; [done|]. split; [done|].
    by replace (S (q - length ws1)) with (S q - length ws1)%nat by lia.
  - intros [Hq Hat].
    replace q with (length ws1 + (q - length ws1))%nat by lia.
    by apply pair_at_infix.
Qed.

Lemma contains_pad a b s :
  isspace a = false → isspace b = false →
  contains [a; b] (ws1 ++ s ++ ws2) = contains [a; b] s.
Proof using Hws1 Hws2.
  intros Ha Hb. destruct (contains [a; b] s) eqn:Hc.
  - apply contains_pair in Hc as [q Hq]. apply contains_pair.
    exists (length ws1 + q)%nat. apply pair_at_pad; [done..|].
    split; [lia|]. by replace (length ws1 + q - length ws1)%nat with q by lia.
  - apply contains_pair_false. intros q Hq%pair_at_pad; [|done..].
    destruct Hq as [_ Hq]. revert Hq. by apply contains_pair_false.
Qed.

(** Searching the padded line from [start'] is searching the line from
    [start], shifted by the left padding. *)
Lemma find_pad a b s start start' :
  isspace a = false → isspace b = false →
  0 <= start → 0 <= start' →
  (Z.to_nat start' - length ws1 = Z.to_nat start)%nat →
  find (ws1 ++ s ++ ws2) [a; b] start' =
    if find s [a; b] start =? -1 then -1
    else find s [a; b] start + len ws1.
Proof using Hws1 Hws2.
  intros Ha Hb Hs Hs' Hshift.
  destruct (Z.eqb_spec (find s [a; b] start) (-1)) as [Hneg|Hpos].
  - apply find_pair_none; [done|]. intros q Hq Hat%pair_at_pad; [|done..].
    destruct Hat as [Hle Hat].
    apply (find_pair_neg a b s start Hs Hneg (q - length ws1)%nat); [lia|done].
  - destruct (find_pair_pos a b s start _ Hs eq_refl Hpos)
      as (Hle & Hat & Hmin).
    replace (find s [a; b] start + len ws1)
      with (Z.of_nat (length ws1 + Z.to_nat (find s [a; b] start)))
      by (unfold len; lia).
    apply find_pair_eq; [done|lia| |].
    + apply pair_at_pad; [done..|]. split; [lia|].
      by replace (length ws1 + _ - length ws1)%nat
        with (Z.to_nat (find s [a; b] start)) by lia.
    + intros q Hq Hat'%pair_at_pad; [|done..]. destruct Hat' as [Hge Hat'].
      apply (Hmin (q - length ws1)%nat); [lia|done].
Qed.

Lemma take_pad (s : str) (a : nat) :
  (a ≤ length s)%nat →
  take (length ws1 + a) (ws1 ++ s ++ ws2) = ws1 ++ take a s.
Proof.
  intros Ha. rewrite take_app, take_ge by lia. f_equal.
  replace (length ws1 + a - length ws1)%nat with a by lia.
  by apply take_app_le.
Qed.

Lemma drop_pad (s : str) (b : nat) :
  (b ≤ length s)%nat →
  drop (length ws1 + b) (ws1 ++ s ++ ws2) = drop b s ++ ws2.
Proof.
  intros Hb. rewrite drop_app, drop_ge by lia. simpl.
  replace (length ws1 + b - length ws1)%nat with b by lia.
  rewrite drop_app. f_equal.
  by replace (b - length s)%nat with 0%nat by lia.
Qed.

Lemma block_step_pad line :
  block_step (ws1 ++ line ++ ws2) =
    (λ l, ws1 ++ l ++ ws2) <$> block_step line.
Proof using Hws1 Hws2.
  unfold block_step.
  change BLOCK_OPEN with ["/"; "*"]%char.
  change BLOCK_CLOSE with ["*"; "/"]%char.
  rewrite !contains_pad by done.
  destruct (contains ["/"; "*"]%char line) eqn:Ho; [|done].
  destruct (contains ["*"; "/"]%char line) eqn:Hc; [|done]. simpl.
  unfold contains in Ho. apply negb_true_iff, Z.eqb_neq in Ho.
  set (start := find line ["/"; "*"]%char 0) in *.
  destruct (find_pair_pos "/" "*" line 0 start) as (Hs0 & Hat & _);
    [lia|done|done|].
  rewrite (find_pad "/" "*" line 0 0) by (done || lia).
  fold start. destruct (Z.eqb_spec start (-1)); [done|].
  rewrite (find_pad "*" "/" line (start + 2) (start + len ws1 + 2))
    by (done || unfold len; lia).
  set (end_ := find line ["*"; "/"]%char (start + 2)).
  destruct (Z.eqb_spec end_ (-1)) as [Hneg|Hpos].
  { by rewrite Z.eqb_refl. }
  destruct (find_pair_pos "*" "/" line (start + 2) end_)
    as (He0 & Hat' & _); [lia|done|done|].
  destruct (Z.eqb_spec (end_ + len ws1) (-1)); [unfold len in *; lia|].
  simpl. f_equal.
  pose proof (pair_at_lt _ _ _ _ Hat). pose proof (pair_at_lt _ _ _ _ Hat').
  replace (Z.to_nat (start + len ws1))
    with (length ws1 + Z.to_nat start)%nat by (unfold len; lia).
  replace (Z.to_nat (end_ + len ws1 + 2))
    with (length ws1 + Z.to_nat (end_ + 2))%nat by (unfold len; lia).
  rewrite take_pad, drop_pad by lia. by rewrite <- !app_assoc.
Qed.

Lemma block_loop_pad fuel line :
  block_loop fuel (ws1 ++ line ++ ws2) = ws1 ++ block_loop fuel line ++ ws2.
Proof using Hws1 Hws2.
  revert line. induction fuel as [|fuel IH]; intros line; simpl; [done|].
  rewrite block_step_pad.
  destruct (block_step line) as [line'|]; simpl; [apply IH|done].
Qed.

End Padding.

Lemma all_space_rev ws : all_space ws → all_space (rev ws).
Proof.
  unfold all_space. rewrite !Forall_forall. intros Hws c Hc. apply Hws.
  apply list_elem_of_In, in_rev. by apply list_elem_of_In.
Qed.

Lemma rstrip_pad_r ws s : all_space ws → rstrip (s ++ ws) = rstrip s.
Proof.
  intros Hws. unfold rstrip. rewrite rev_app_distr.
  by rewrite lstrip_pad_l by by apply all_space_rev.
Qed.

Lemma strip_pad ws1 ws2 s :
  all_space ws1 → all_space ws2 → strip (ws1 ++ s ++ ws2) = strip s.
Proof.
  intros H1 H2. unfold strip. rewrite (lstrip_pad_l ws1) by done.
  destruct (lstrip_pad_r ws2 s H2) as [->|[-> ->]]; [|done].
  by apply rstrip_pad_r.
Qed.

Lemma normalize_line_pad (ws1 ws2 s : str) :
  all_space ws1 → all_space ws2 →
  normalize_line (ws1 ++ s ++ ws2) = normalize_line s.
Proof.
  intros H1 H2.
  assert (Hcut : ∃ ws2', all_space ws2' ∧
            strip_line_comment (ws1 ++ s ++ ws2)
              = ws1 ++ strip_line_comment s ++ ws2').
  { unfold strip_line_comment. change LINE_COMMENT with ["/"; "/"]%char.
    rewrite (contains_pad ws1 ws2) by done.
    destruct (contains ["/"; "/"]%char s) eqn:Hc; [|by exists ws2].
    exists []. split; [constructor|]. rewrite app_nil_r.
    unfold split1_head.
    destruct (find_nat ["/"; "/"]%char s) as [k|] eqn:Hf.
    2: { apply contains_pair in Hc as [q Hq].
         by apply (find_nat_pair_None _ _ _ Hf) in Hq. }
    destruct (find_nat_pair_Some _ _ _ _ Hf) as [Hat Hmin].
    rewrite (find_nat_pair_eq "/" "/" _ (length ws1 + k)).
    - apply take_pad. apply pair_at_lt in Hat. lia.
    - apply pair_at_pad; [done..|]. split; [lia|].
      by replace (length ws1 + k - length ws1)%nat with k by lia.
    - intros q Hq Hat'%pair_at_pad; [|done..]. destruct Hat' as [Hge Hat'].
      apply (Hmin (q - length ws1)%nat); [lia|done]. }
  destruct Hcut as (ws2' & H2' & Hcut).
  unfold normalize_line. rewrite Hcut. unfold strip_block_comments.
  rewrite block_loop_pad, strip_pad by done. f_equal.
  apply block_loop_enough; [|done]. rewrite !length_app. lia.
Qed.

(** X14 (white space insensitivity): white space before and after a line
    does not change its normalised form. *)
Theorem normalize_line_ignores_padding (ws1 ws2 s : str) :
  all_space ws1 → all_space ws2 →
  normalize_line (ws1 ++ s ++ ws2) = normalize_line s.
Proof. apply normalize_line_pad. Qed.

Lemma normalize_line_ignores_padding_witness :
  let ws1 := [" "; "009"]%char in
  let ws2 := [" "; "013"; "010"]%char in
  all_space ws1 ∧ all_space ws2 ∧
  normalize_line (ws1 ++ lit "a /* b */ c" ++ ws2)
    = normalize_line (lit "a /* b */ c").
Proof.
  intros ws1 ws2.
  assert (H1 : all_space ws1) by (repeat constructor).
  assert (H2 : all_space ws2) by (repeat constructor).
  split_and!; [done..|].
  exact (normalize_line_ignores_padding ws1 ws2 _ H1 H2).
Defined.

(** ** Further properties of the output file name *)

Lemma in_dash_underscore (c : ascii) :
  contains [c] (lit "-_") = true ↔ c = "-"%char ∨ c = "_"%char.
Proof.
  destruct (decide (c = "-"%char)) as [->|H1]; [by split; [left|]|].
  destruct (decide (c = "_"%char)) as [->|H2]; [by split; [right|]|].
  unfold contains, find. simpl.
  rewrite !bool_decide_eq_false_2 by done. simpl. split; [done|].
  by intros [|].
Qed.

Lemma safe_char_keep (c : ascii) :
  safe_char c ↔ isalnum c || contains [c] (lit "-_") = true.
Proof.
  unfold safe_char. rewrite orb_true_iff, in_dash_underscore. tauto.
Qed.

Lemma safe_test_chars (name : str) :
  Forall safe_char
    (map (λ c, if isalnum c || contains [c] (lit "-_") then c else underscore)
         name).
Proof.
  induction name as [|c name IH]; cbn [map]; constructor; [|done].
  destruct (isalnum c || contains [c] (lit "-_")) eqn:Hc.
  - by apply safe_char_keep.
  - right; right. reflexivity.
Qed.

Lemma safe_test_keep (name : str) :
  Forall safe_char name →
  map (λ c, if isalnum c || contains [c] (lit "-_") then c else underscore)
      name = name.
Proof.
  induction 1 as [|c name Hc _ IH]; cbn [map]; [done|].
  apply safe_char_keep in Hc. by rewrite Hc, IH.
Qed.

Lemma safe_test_safe (test_name : str) :
  Forall safe_char (safe_test test_name).
Proof.
  unfold safe_test. pose proof (safe_test_chars test_name) as Hall.
  destruct (map _ test_name) eqn:Hm; [|done].
  repeat constructor.
Qed.

Lemma safe_test_nonempty (test_name : str) : safe_test test_name ≠ [].
Proof. unfold safe_test. by destruct (map _ test_name). Qed.

Lemma safe_test_fixed (test_name : str) :
  test_name ≠ [] → Forall safe_char test_name →
  safe_test test_name = test_name.
Proof.
  intros Hne Hsafe. unfold safe_test. rewrite safe_test_keep by done.
  by destruct test_name.
Qed.

(** X15: the output file name is a non-empty stem of letters, digits, '-'
    and '_' followed by .xml; it holds no '/', so the file is written in
    the working directory whatever the run name is. *)
Theorem output_filename_safe (test_name : str) :
  output_filename test_name = safe_test test_name ++ lit ".xml" ∧
  safe_test test_name ≠ [] ∧
  Forall safe_char (safe_test test_name) ∧
  "/"%char ∉ output_filename test_name.
Proof.
  pose proof (safe_test_safe test_name) as Hsafe.
  split_and!; [done|apply safe_test_nonempty|done|].
  unfold output_filename. rewrite elem_of_app. intros [Hin|Hin].
  - rewrite Forall_forall in Hsafe. by destruct (Hsafe _ Hin) as [|[|]].
  - by repeat (apply elem_of_cons in Hin as [|Hin]; [done|]);
      apply elem_of_nil in Hin.
Qed.

(** X16: a non-empty run name of letters, digits, '-' and '_' is kept as
    it is. *)
Theorem safe_test_keeps_safe_names (test_name : str) :
  test_name ≠ [] → Forall safe_char test_name →
  safe_test test_name = test_name.
Proof. apply safe_test_fixed. Qed.

Lemma safe_test_keeps_safe_names_witness :
  lit "TEST_5-b" ≠ [] ∧ Forall safe_char (lit "TEST_5-b") ∧
  safe_test (lit "TEST_5-b") = lit "TEST_5-b".
Proof.
  assert (H1 : lit "TEST_5-b" ≠ []) by discriminate.
  assert (H2 : Forall safe_char (lit "TEST_5-b")).
  { repeat constructor; (by left) || (by right; left) || (by right; right). }
  split_and!; [done..|].
  exact (safe_test_keeps_safe_names _ H1 H2).
Defined.

(** X17: sanitising is idempotent: a sanitised name is not changed by
    sanitising it again. *)
Theorem safe_test_idempotent (test_name : str) :
  safe_test (safe_test test_name) = safe_test test_name.
Proof.
  apply safe_test_fixed; [apply safe_test_nonempty|apply safe_test_safe].
Qed.

(** ** Steps of a run *)

Lemma io_spec_ret {T} (x : T)
    (Q : list typed → list event → result T → Prop) :
  Q [] [] (Next x) → io_spec (mret x) Q.
Proof. intros HQ w. exists [], []. by rewrite app_nil_r. Qed.

Lemma io_spec_return {T} (code : Z)
    (Q : list typed → list event → result T → Prop) :
  Q [] [] (Return code) → io_spec (return_ code) Q.
Proof. intros HQ w. exists [], []. by rewrite app_nil_r. Qed.

Lemma io_spec_raise {T} (e : raised)
    (Q : list typed → list event → result T → Prop) :
  Q [] [] (Raise e) → io_spec (raise e) Q.
Proof. intros HQ w. exists [], []. by rewrite app_nil_r. Qed.

Lemma io_spec_mono {T} (m : io T)
    (Q Q' : list typed → list event → result T → Prop) :
  io_spec m Q → (∀ used evs r, Q used evs r → Q' used evs r) → io_spec m Q'.
Proof.
  intros Hm HQ w. destruct (Hm w) as (used & evs & Hin & Htr & Hq).
  exists used, evs. auto.
Qed.

Lemma io_spec_bind {T U} (m : io T) (f : T → io U)
    (Q1 : list typed → list event → result T → Prop)
    (Q2 : list typed → list event → result U → Prop) :
  io_spec m Q1 →
  (∀ used evs x, Q1 used evs (Next x) →
     io_spec (f x) (λ used' evs' r, Q2 (used ++ used') (evs ++ evs') r)) →
  (∀ used evs code, Q1 used evs (Return code) → Q2 used evs (Return code)) →
  (∀ used evs e, Q1 used evs (Raise e) → Q2 used evs (Raise e)) →
  io_spec (m ≫= f) Q2.
Proof.
  intros Hm Hf Hret Hraise w. unfold mbind, io_bind.
  destruct (Hm w) as (used & evs & Hin & Htr & HQ1).
  destruct (m w) as [w1 [x|code|e]]; simpl in *.
  - destruct (Hf used evs x HQ1 w1) as (used' & evs' & Hin' & Htr' & HQ2).
    exists (used ++ used'), (evs ++ evs').
    by rewrite Htr', Htr, Hin, Hin', <- !app_assoc.
  - exists used, evs. auto.
  - exists used, evs. auto.
Qed.

(** The loop rule: [I rem used evs s] holds before the pass for the first
    element of [rem]. *)
Lemma io_spec_for {X S} (body : X → S → io S)
    (I : list X → list typed → list event → S → Prop)
    (Q : list typed → list event → result S → Prop)
    (xs : list X) (used : list typed) (evs : list event) (s : S) :
  (∀ x rem used evs s, I (x :: rem) used evs s →
     io_spec (body x s) (λ used' evs' r,
       match r with
       | Next s' => I rem (used ++ used') (evs ++ evs') s'
       | Return code => Q (used ++ used') (evs ++ evs') (Return code)
       | Raise e => Q (used ++ used') (evs ++ evs') (Raise e)
       end)) →
  (∀ used evs s, I [] used evs s → Q used evs (Next s)) →
  I xs used evs s →
  io_spec (for_io body xs s)
          (λ used' evs' r, Q (used ++ used') (evs ++ evs') r).
Proof.
  intros Hbody Hend. revert used evs s.
  induction xs as [|x xs IH]; intros used evs s HI; simpl.
  - apply io_spec_ret. rewrite !app_nil_r. by apply Hend.
  - eapply io_spec_bind; [by apply Hbody|..].
    + intros used1 evs1 s1 HI1. simpl in HI1.
      eapply io_spec_mono; [by apply IH|].
      intros used2 evs2 r. by rewrite !app_assoc.
    + by intros used1 evs1 code HQ.
    + by intros used1 evs1 e HQ.
Qed.

Lemma io_spec_emit_then {T} (e : event) (k : io T)
    (Q : list typed → list event → result T → Prop) :
  io_spec k (λ used evs r, Q used (e :: evs) r) →
  io_spec (emit e ≫= λ _, k) Q.
Proof.
  intros Hk w. unfold mbind, io_bind, emit.
  destruct (Hk (World (stdin w) (prints w) (trace w ++ [e])))
    as (used & evs & Hin & Htr & HQ).
  exists used, (e :: evs). simpl in *.
  by rewrite Htr, <- app_assoc.
Qed.

(** A [print] call writes its line or raises. *)
Lemma io_spec_print_then {T} (line : event) (k : io T)
    (Q : list typed → list event → result T → Prop) :
  io_spec k (λ used evs r, Q used (line :: evs) r) →
  (∀ e, Q [] [Fails e] (Raise e)) →
  io_spec (print line ≫= λ _, k) Q.
Proof.
  intros Hk HF w. unfold mbind, io_bind, print.
  destruct (prints w) as [|[e|] rest] eqn:Hp; simpl.
  - destruct (Hk (World (stdin w) [] (trace w ++ [line])))
      as (used & evs & Hin & Htr & HQ).
    exists used, (line :: evs). simpl in *.
    by rewrite Htr, <- app_assoc.
  - exists [], [Fails e]. simpl. by split_and!.
  - destruct (Hk (World (stdin w) rest (trace w ++ [line])))
      as (used & evs & Hin & Htr & HQ).
    exists used, (line :: evs). simpl in *.
    by rewrite Htr, <- app_assoc.
Qed.

(** An [input] call takes a line, finds the end of the input, or
    raises. *)
Lemma io_spec_input_strip_then {T} (prompt : str) (k : str → io T)
    (Q : list typed → list event → result T → Prop) :
  (∀ line, io_spec (k (strip line))
             (λ used evs r, Q (Typed line :: used) (Prompt prompt :: evs) r)) →
  Q [] [Prompt prompt] (Raise EOFError) →
  (∀ e, Q [InputRaises e] [Prompt prompt] (Raise e)) →
  io_spec (input_strip prompt ≫= k) Q.
Proof.
  intros Hk HE HR w. unfold input_strip, mbind, io_bind, input.
  destruct (stdin w) as [|[line|e] rest] eqn:Hw; simpl.
  - by exists [], [Prompt prompt].
  - destruct (Hk line (World rest (prints w) (trace w ++ [Prompt prompt])))
      as (used & evs & Hin & Htr & HQ).
    exists (Typed line :: used), (Prompt prompt :: evs). simpl in *.
    split_and!; [by f_equal | by rewrite Htr, <- app_assoc | done].
  - by exists [InputRaises e], [Prompt prompt].
Qed.

(** [try] with [except ValueError]. *)
Lemma io_spec_try_value {T} (m h : io T)
    (Q1 Q : list typed → list event → result T → Prop) :
  io_spec m Q1 →
  (∀ used evs r, Q1 used evs r → r ≠ Raise ValueError → Q used evs r) →
  (∀ used evs, Q1 used evs (Raise ValueError) →
     io_spec h (λ used' evs' r, Q (used ++ used') (evs ++ evs') r)) →
  io_spec (try_value m h) Q.
Proof.
  intros Hm Hpass Hh w. unfold try_value.
  destruct (Hm w) as (used & evs & Hin & Htr & HQ1).
  destruct (m w) as [w1 r]. simpl in *.
  assert (Hout : r ≠ Raise ValueError →
    ∃ used0 evs0, stdin w = used0 ++ stdin w1 ∧
      trace w1 = trace w ++ evs0 ∧ Q used0 evs0 r)
    by (intros Hr; exists used, evs; auto).
  destruct r as [x|code|[]]; simpl; try (by apply Hout).
  destruct (Hh used evs HQ1 w1) as (used' & evs' & Hin' & Htr' & HQ).
  exists (used ++ used'), (evs ++ evs').
  by rewrite Htr', Htr, Hin, Hin', <- !app_assoc.
Qed.

(** [try] with [except OSError]. *)
Lemma io_spec_try_os {T} (m : io T) (h : str → io T)
    (Q1 Q : list typed → list event → result T → Prop) :
  io_spec m Q1 →
  (∀ used evs r, Q1 used evs r → (∀ text, r ≠ Raise (OSErrorOf text)) →
     Q used evs r) →
  (∀ used evs text, Q1 used evs (Raise (OSErrorOf text)) →
     io_spec (h text) (λ used' evs' r, Q (used ++ used') (evs ++ evs') r)) →
  io_spec (try_os m h) Q.
Proof.
  intros Hm Hpass Hh w. unfold try_os.
  destruct (Hm w) as (used & evs & Hin & Htr & HQ1).
  destruct (m w) as [w1 r]. simpl in *.
  assert (Hout : (∀ text, r ≠ Raise (OSErrorOf text)) →
    ∃ used0 evs0, stdin w = used0 ++ stdin w1 ∧
      trace w1 = trace w ++ evs0 ∧ Q used0 evs0 r)
    by (intros Hr; exists used, evs; auto).
  destruct r as [x|code|[| | | |text|name]]; simpl; try (by apply Hout).
  destruct (Hh used evs text HQ1 w1) as (used' & evs' & Hin' & Htr' & HQ).
  exists (used ++ used'), (evs ++ evs').
  by rewrite Htr', Htr, Hin, Hin', <- !app_assoc.
Qed.

Lemma bind_next {T U} (m : io T) (f : T → io U) w w1 x :
  m w = (w1, Next x) → (m ≫= f) w = f x w1.
Proof. intros Hm. unfold mbind, io_bind. by rewrite Hm. Qed.

Lemma bind_return {T U} (m : io T) (f : T → io U) w w1 code :
  m w = (w1, Return code) → (m ≫= f) w = (w1, Return code).
Proof. intros Hm. unfold mbind, io_bind. by rewrite Hm. Qed.

Lemma bind_raise {T U} (m : io T) (f : T → io U) w w1 e :
  m w = (w1, Raise e) → (m ≫= f) w = (w1, Raise e).
Proof. intros Hm. unfold mbind, io_bind. by rewrite Hm. Qed.

Lemma io_spec_print (line : event)
    (Q : list typed → list event → result unit → Prop) :
  Q [] [line] (Next ()) → (∀ e, Q [] [Fails e] (Raise e)) →
  io_spec (print line) Q.
Proof.
  intros HQ HF w. unfold print.
  destruct (prints w) as [|[e|] rest]; simpl.
  - by exists [], [line].
  - by exists [], [Fails e].
  - by exists [], [line].
Qed.

Lemma io_spec_ret_bind {T U} (x : T) (f : T → io U)
    (Q : list typed → list event → result U → Prop) :
  io_spec (f x) Q → io_spec (mret x ≫= f) Q.
Proof. intros Hf w. exact (Hf w). Qed.

Lemma io_spec_raise_bind {T U} (e : raised) (f : T → io U)
    (Q : list typed → list event → result U → Prop) :
  Q [] [] (Raise e) → io_spec (raise e ≫= f) Q.
Proof. intros HQ w. exists [], []. by rewrite app_nil_r. Qed.

(** ** read_lines *)

Lemma lstrip_chars_suffix chars s :
  ∃ pre, s = pre ++ lstrip_chars chars s ∧ Forall (λ c, c ∈ chars) pre.
Proof.
  induction s as [|c s (pre & IH & Hpre)]; simpl.
  - by exists [].
  - case_bool_decide as Hc.
    + exists (c :: pre). split; [simpl; by f_equal|by constructor].
    + by exists [].
Qed.

Lemma rstrip_chars_prefix s :
  ∃ ws, s = rstrip_chars CRLF s ++ ws ∧ all_space ws.
Proof.
  unfold rstrip_chars.
  destruct (lstrip_chars_suffix CRLF (rev s)) as (pre & Hs & Hpre).
  exists (rev pre). split.
  - rewrite <- rev_app_distr, <- Hs. by rewrite rev_involutive.
  - apply all_space_rev. unfold all_space.
    eapply Forall_impl; [exact Hpre|]. intros c Hc. simpl in Hc.
    by repeat (apply elem_of_cons in Hc as [->|Hc]; [done|]);
      apply elem_of_nil in Hc.
Qed.

Lemma normalize_line_rstrip s :
  normalize_line (rstrip_chars CRLF s) = normalize_line s.
Proof.
  destruct (rstrip_chars_prefix s) as (ws & Hs & Hws).
  rewrite Hs at 2. symmetry.
  apply (normalize_line_pad [] ws); [constructor|done].
Qed.

Lemma normalize_line_fixed s :
  normalize_line (normalize_line s) = normalize_line s.
Proof.
  unfold normalize_line at 1. set (t := normalize_line s).
  rewrite strip_line_comment_id.
  - unfold strip_block_comments.
    rewrite block_loop_fix by apply normalize_line_left.
    apply strip_strip.
  - apply (contains_pair_false "/" "/"). apply normalize_line_clean.
Qed.

(** What [read_lines] does with the file at [path]. *)
Lemma read_lines_spec readable path :
  io_spec (read_lines readable path) (λ used evs r,
    used = [] ∧
    match readable path with
    | Lines raw_lines =>
        evs = [Open path] ∧ r = Next (Some (map normalize_line raw_lines))
    | OpenRaises e =>
        match e with
        | OSErrorOf text =>
            (evs = [Open path;
                    Stderr (lit "Error: Failed to open '" ++ path ++
                            lit "' for reading: " ++ text)] ∧
             r = Next None) ∨
            (∃ e', evs = [Open path; Fails e'] ∧ r = Raise e')
        | _ => evs = [Open path] ∧ r = Raise e
        end
    end).
Proof.
  unfold read_lines.
  eapply (io_spec_try_os _ _ (λ used evs r,
    used = [] ∧ evs = [Open path] ∧
    match readable path with
    | Lines raw_lines => r = Next (Some (map normalize_line raw_lines))
    | OpenRaises e => r = Raise e
    end)).
  - apply io_spec_emit_then. destruct (readable path) as [raw|e].
    + apply io_spec_ret. split_and!; [done..|]. do 2 f_equal.
      rewrite map_map. apply map_ext. intros l. apply normalize_line_rstrip.
    + by apply io_spec_raise.
  - intros used evs r (-> & -> & Hr) Hnot. split; [done|].
    destruct (readable path) as [raw|e]; [done|]. subst r.
    destruct e; try done. by destruct (Hnot text).
  - intros used evs text (-> & -> & Hr).
    destruct (readable path) as [raw|e]; [done|]. injection Hr as <-.
    apply io_spec_print_then.
    + apply io_spec_ret. split; [done|]. by left.
    + intros e'. split; [done|]. right. by exists e'.
Qed.

(** X18: for a file that can be read, read_lines returns one line per line
    of the file, in order, each the normalize_line of the line as read
    (stripping the line ending first changes nothing), and every returned
    line is already normalised. *)
Theorem read_lines_normalised readable path raw_lines w :
  readable path = Lines raw_lines →
  ∃ lines, (read_lines readable path w).2 = Next (Some lines) ∧
    lines = map normalize_line raw_lines ∧
    length lines = length raw_lines ∧
    Forall (λ l, normalize_line l = l) lines.
Proof.
  intros Hread.
  destruct (read_lines_spec readable path w) as (used & evs & _ & _ & _ & HQ).
  rewrite Hread in HQ. destruct HQ as [_ ->].
  eexists. split; [done|]. split; [done|]. split; [apply length_map|].
  apply Forall_forall. intros l Hl.
  apply list_elem_of_In, in_map_iff in Hl as (raw & <- & _).
  apply normalize_line_fixed.
Qed.

Lemma read_lines_normalised_witness :
  let readable := λ _ : str,
    Lines [lit "int a; // one" ++ CRLF; lit "  /* c */ b" ++ ["010"%char]] in
  readable (lit "f.c") = Lines
    [lit "int a; // one" ++ CRLF; lit "  /* c */ b" ++ ["010"%char]] ∧
  ∃ lines, (read_lines readable (lit "f.c") (World [] [] [])).2
             = Next (Some lines) ∧
    lines = map normalize_line
      [lit "int a; // one" ++ CRLF; lit "  /* c */ b" ++ ["010"%char]] ∧
    length lines = 2%nat ∧
    Forall (λ l, normalize_line l = l) lines.
Proof.
  intros readable. split; [reflexivity|].
  exact (read_lines_normalised readable (lit "f.c") _ (World [] [] []) eq_refl).
Defined.

(** ** build_xml *)

Lemma lit_inj (s1 s2 : string) : lit s1 = lit s2 → s1 = s2.
Proof.
  unfold lit. intros Heq.
  rewrite <- (String.string_of_list_ascii_of_string s1),
          <- (String.string_of_list_ascii_of_string s2).
  by rewrite Heq.
Qed.

Lemma py_str_inj (a b : Z) : py_str a = py_str b → a = b.
Proof.
  assert (Hnil : ∀ z, Z.to_int z ≠ Decimal.Pos Decimal.Nil ∧
                      Z.to_int z ≠ Decimal.Neg Decimal.Nil).
  { intros [|p|p]; simpl; split; try discriminate;
      intros [= Hp]; by apply DecimalPos.Unsigned.to_uint_nonnil in Hp. }
  intros Heq%lit_inj.
  apply (f_equal DecimalString.NilZero.int_of_string) in Heq.
  rewrite !DecimalString.NilZero.isi in Heq by apply Hnil.
  injection Heq as Heq. apply (f_equal Z.of_int) in Heq.
  by rewrite !DecimalZ.of_to in Heq.
Qed.

Lemma versions_inj idx ps ps' :
  versions idx ps = versions idx ps' → map snd ps = map snd ps'.
Proof.
  revert idx ps'. induction ps as [|[vp ms] ps IH]; intros idx [|[vp' ms'] ps'];
    simpl; try done.
  intros [= Hms Hrest]. f_equal; [|by eapply IH].
  clear -Hms. revert ms' Hms.
  induction ms as [|[a b] ms IH]; intros [|[c d] ms']; simpl; try done.
  intros [= Ha%py_str_inj Hb%py_str_inj Hms]. subst. f_equal. by apply IH.
Qed.

Lemma length_versions idx ps : length (versions idx ps) = length ps.
Proof.
  revert idx. induction ps as [|[vp ms] ps IH]; intros idx; simpl; [done|].
  by rewrite IH.
Qed.

Lemma versions_paths idx vps vps' (all_mappings : list (list (Z * Z))) :
  length vps = length vps' →
  versions idx (zip vps all_mappings) = versions idx (zip vps' all_mappings).
Proof.
  revert idx vps' all_mappings.
  induction vps as [|vp vps IH]; intros idx [|vp' vps'] [|ms mss];
    simpl; try done.
  intros [= Hlen]. f_equal. by apply IH.
Qed.

(** X19: the tree keeps the mapping lists: when there is one mapping list
    per version path, two calls of build_xml that give the same tree were
    given the same mapping lists. *)
Theorem build_xml_injective basename test_name original_path
    version_paths all_mappings all_mappings' :
  length all_mappings = length version_paths →
  length all_mappings' = length version_paths →
  build_xml basename test_name original_path version_paths all_mappings =
  build_xml basename test_name original_path version_paths all_mappings' →
  all_mappings = all_mappings'.
Proof.
  intros Hlen Hlen'. unfold build_xml. intros [= Heq%versions_inj].
  change (map snd ?l) with (l.*2) in Heq.
  by rewrite !snd_zip in Heq by lia.
Qed.

Lemma build_xml_injective_witness :
  let vps := [lit "v1.c"; lit "v2.c"] in
  let ms := [[(1, 1); (2, -1)]; [(-1, 1)]] in
  length ms = length vps ∧ length ms = length vps ∧
  build_xml id (lit "T") (lit "o.c") vps ms
    = build_xml id (lit "T") (lit "o.c") vps ms ∧
  ms = ms.
Proof.
  intros vps ms. split_and!; [reflexivity..|].
  by apply (build_xml_injective id (lit "T") (lit "o.c") vps ms ms).
Defined.

(** X20: build_xml pairs paths and mapping lists with zip: the root gets
    one VERSION child per pair, min(len(version_paths), len(all_mappings))
    in all, and the paths themselves are not used: other paths, as many,
    give the same tree. *)
Theorem build_xml_version_paths basename test_name original_path
    version_paths version_paths' all_mappings :
  length (children (build_xml basename test_name original_path
                      version_paths all_mappings))
    = min (length version_paths) (length all_mappings) ∧
  (length version_paths = length version_paths' →
   build_xml basename test_name original_path version_paths all_mappings =
   build_xml basename test_name original_path version_paths' all_mappings).
Proof.
  unfold build_xml. simpl. split.
  - by rewrite length_versions, length_zip.
  - intros Hlen. f_equal. by apply versions_paths.
Qed.

(** ** main *)

Lemma ask_number_spec py_int :
  io_spec (ask_number py_int) (λ used evs r,
    Forall asking evs ∧
    match r with
    | Next num_versions =>
        ∃ line, used = [Typed line] ∧
          py_int (strip line) = Some num_versions ∧ 0 < num_versions
    | Return code => code = 1
    | Raise e => e = EOFError ∨ InputRaises e ∈ used ∨ Fails e ∈ evs
    end).
Proof.
  unfold ask_number.
  eapply (io_spec_try_value _ _ (λ used evs r,
    evs = [Prompt (lit "Enter number of versions to compare: ")] ∧
    match r with
    | Next num_versions =>
        ∃ line, used = [Typed line] ∧
          py_int (strip line) = Some num_versions ∧ 0 < num_versions
    | Return code => False
    | Raise e => e = EOFError ∨ InputRaises e ∈ used ∨ e = ValueError
    end)).
  - apply io_spec_input_strip_then.
    + intros line. destruct (py_int (strip line)) as [num|] eqn:Hnum.
      * destruct (Z.leb_spec num 0) as [Hle|Hgt].
        -- apply io_spec_raise. split; [done|auto].
        -- apply io_spec_ret. split; [done|]. exists line.
           split_and!; [done..|lia].
      * apply io_spec_raise. split; [done|auto].
    + split; [done|auto].
    + intros e. split; [done|]. right; left. by left.
  - intros used evs r [-> Hr] Hnot. split; [by repeat constructor|].
    destruct r as [num|code|e]; [done..|].
    destruct Hr as [->|[Hin| ->]]; [auto..|done].
  - intros used evs [-> _]. apply io_spec_print_then.
    + apply io_spec_return. split; [by repeat constructor|done].
    + intros e. split; [by repeat constructor|].
      right; right. rewrite !elem_of_app, !elem_of_cons. auto.
Qed.

Lemma ask_path_spec i (acc : list str) :
  io_spec (ask_path i acc) (λ used evs r,
    Forall asking evs ∧
    match r with
    | Next acc' =>
        ∃ line, used = [Typed line] ∧ strip line ≠ [] ∧
                acc' = acc ++ [strip line]
    | Return code => code = 1
    | Raise e => e = EOFError ∨ InputRaises e ∈ used ∨ Fails e ∈ evs
    end).
Proof.
  unfold ask_path. apply io_spec_input_strip_then.
  - intros line. destruct (strip line) as [|c path] eqn:Hline.
    + apply io_spec_print_then.
      * apply io_spec_return. split; [by repeat constructor|done].
      * intros e. split; [by repeat constructor|].
        right; right. rewrite !elem_of_cons. auto.
    + apply io_spec_ret. split; [by repeat constructor|].
      exists line. by rewrite Hline.
  - split; [by repeat constructor|auto].
  - intros e. split; [by repeat constructor|]. right; left. by left.
Qed.

Lemma ask_paths_spec (idxs : list Z) :
  io_spec (for_io ask_path idxs []) (λ used evs r,
    Forall asking evs ∧
    match r with
    | Next version_paths =>
        ∃ lines, used = map Typed lines ∧ length lines = length idxs ∧
          version_paths = map strip lines ∧
          Forall (λ path, path ≠ []) version_paths
    | Return code => code = 1
    | Raise e => e = EOFError ∨ InputRaises e ∈ used ∨ Fails e ∈ evs
    end).
Proof.
  apply (io_spec_for ask_path
    (λ rem used evs acc, Forall asking evs ∧
       ∃ lines, used = map Typed lines ∧
         (length lines + length rem = length idxs)%nat ∧
         acc = map strip lines ∧ Forall (λ path, path ≠ []) acc)
    (λ used evs r, Forall asking evs ∧
       match r with
       | Next version_paths =>
           ∃ lines, used = map Typed lines ∧ length lines = length idxs ∧
             version_paths = map strip lines ∧
             Forall (λ path, path ≠ []) version_paths
       | Return code => code = 1
       | Raise e => e = EOFError ∨ InputRaises e ∈ used ∨ Fails e ∈ evs
       end) idxs [] [] []).
  - intros i rem used evs acc (Hevs & lines & -> & Hlen & -> & Hacc).
    eapply io_spec_mono; [apply ask_path_spec|].
    intros used' evs' [acc'|code|e] [Hevs' Hr]; simpl.
    + destruct Hr as (line & -> & Hline & ->).
      split; [by apply Forall_app|]. exists (lines ++ [line]).
      rewrite !map_app, length_app. simpl in *.
      split_and!; [done|lia|done|].
      apply Forall_app. by split; [|repeat constructor].
    + split; [by apply Forall_app|done].
    + split; [by apply Forall_app|].
      rewrite !elem_of_app. tauto.
  - intros used evs acc (Hevs & lines & -> & Hlen & -> & Hacc).
    split; [done|]. exists lines. simpl in Hlen.
    split_and!; [done|lia|done..].
  - split; [done|]. by exists [].
Qed.

Lemma ask_inputs_spec py_int :
  io_spec (ask_inputs py_int) (λ used evs r,
    Forall asking evs ∧
    match r with
    | Next (original_path, test_name, version_paths) =>
        dialogue py_int used original_path test_name version_paths
    | Return code => code = 1
    | Raise e => e = EOFError ∨ InputRaises e ∈ used ∨ Fails e ∈ evs
    end).
Proof.
  unfold ask_inputs. apply io_spec_print_then.
  2: { intros e. split; [by repeat constructor|].
       right; right. rewrite !elem_of_cons. auto. }
  apply io_spec_input_strip_then.
  2: { split; [by repeat constructor|auto]. }
  2: { intros e. split; [by repeat constructor|]. right; left. by left. }
  intros line1. destruct (strip line1) as [|c1 path1] eqn:Hline1.
  { apply io_spec_print_then.
    - apply io_spec_return. split; [by repeat constructor|done].
    - intros e. split; [by repeat constructor|].
      right; right. rewrite !elem_of_cons. auto. }
  apply io_spec_input_strip_then.
  2: { split; [by repeat constructor|auto]. }
  2: { intros e. split; [by repeat constructor|].
       right; left. rewrite !elem_of_cons. auto. }
  intros line2.
  eapply io_spec_bind; [apply ask_number_spec|..].
  2: { intros used evs code [Hevs ->].
       split; [|done]. repeat (constructor; [done|]). done. }
  2: { intros used evs e [Hevs He].
       split; [by repeat (constructor; [done|])|].
       rewrite !elem_of_cons. tauto. }
  intros used3 evs3 num (Hevs3 & line3 & -> & Hnum & Hpos).
  eapply io_spec_bind; [apply ask_paths_spec|..].
  - intros used4 evs4 vps (Hevs4 & lines & -> & Hlen & -> & Hvps).
    apply io_spec_ret. rewrite !app_nil_r.
    split. { repeat (constructor; [done|]). by apply Forall_app. }
    exists line1, line2, line3, lines.
    unfold range in Hlen. rewrite length_map, length_seq in Hlen.
    rewrite Hline1. unfold len. rewrite Hlen, Z2Nat.id by lia.
    by split_and!.
  - intros used4 evs4 code [Hevs4 ->].
    split; [|done]. repeat (constructor; [done|]). by apply Forall_app.
  - intros used4 evs4 e [Hevs4 He].
    split. { repeat (constructor; [done|]). by apply Forall_app. }
    rewrite !elem_of_cons, !elem_of_app. tauto.
Qed.

Lemma map_version_spec readable original_lines i vpath all_mappings :
  io_spec (map_version readable original_lines (i, vpath) all_mappings)
    (λ used evs r,
       used = [] ∧ Forall reading evs ∧
       match r with
       | Next all_mappings' =>
           ∃ mappings, version_ok readable original_lines vpath mappings ∧
                       all_mappings' = all_mappings ++ [mappings]
       | Return code => code = 1
       | Raise e =>
           Fails e ∈ evs ∨
           ∃ path, Open path ∈ evs ∧ readable path = OpenRaises e
       end).
Proof.
  unfold map_version.
  eapply io_spec_bind; [apply read_lines_spec|..].
  - intros used evs new_lines [-> Hread].
    destruct (readable vpath) as [raw|e] eqn:Hopen.
    + destruct Hread as [-> [= ->]].
      destruct (map_lines_aligned original_lines (map normalize_line raw))
        as (mappings & Hmap & _).
      rewrite Hmap. apply io_spec_print_then.
      * apply io_spec_ret. split; [done|].
        split; [by repeat constructor|].
        exists mappings. split; [|done]. by exists raw.
      * intros e. split; [done|]. split; [by repeat constructor|].
        left. rewrite !elem_of_app, !elem_of_cons. auto.
    + assert (Hnone : evs = [Open vpath;
                 Stderr (lit "Error: Failed to open '" ++ vpath ++
                         lit "' for reading: " ++
                         match e with OSErrorOf text => text | _ => [] end)]
               ∧ new_lines = None).
      { destruct e; try (by destruct Hread).
        by destruct Hread as [[-> [= ->]]|(e' & _ & Heq)]. }
      destruct Hnone as [-> ->]. apply io_spec_return.
      split; [done|]. split; [by repeat constructor|done].
  - intros used evs code [-> Hread].
    destruct (readable vpath) as [raw|e]; [by destruct Hread|].
    destruct e; try (by destruct Hread).
    by destruct Hread as [[_ Heq]|(e' & _ & Heq)].
  - intros used evs e [-> Hread]. split; [done|].
    destruct (readable vpath) as [raw|e'] eqn:Hopen.
    { by destruct Hread. }
    assert (Hcases : (evs = [Open vpath] ∧ e = e') ∨
                     evs = [Open vpath; Fails e]).
    { destruct e'; try (destruct Hread as [-> [= ->]]; by left).
      destruct Hread as [[_ Heq]|(e'' & -> & [= ->])]; [done|by right]. }
    destruct Hcases as [[-> ->]| ->].
    + split; [by repeat constructor|]. right. exists vpath.
      split; [by left|done].
    + split; [by repeat constructor|]. left.
      rewrite !elem_of_cons. auto.
Qed.

Lemma snd_enumerate1 {X} (xs : list X) : (enumerate1 xs).*2 = xs.
Proof.
  unfold enumerate1. apply snd_zip. by rewrite length_map, length_seq.
Qed.

Lemma map_versions_spec readable original_lines version_paths :
  io_spec (for_io (map_version readable original_lines)
             (enumerate1 version_paths) [])
    (λ used evs r,
       used = [] ∧ Forall reading evs ∧
       match r with
       | Next all_mappings =>
           Forall2 (version_ok readable original_lines)
                   version_paths all_mappings
       | Return code => code = 1
       | Raise e =>
           Fails e ∈ evs ∨
           ∃ path, Open path ∈ evs ∧ readable path = OpenRaises e
       end).
Proof.
  apply (io_spec_for (map_version readable original_lines)
    (λ rem used evs acc, used = [] ∧ Forall reading evs ∧
       ∃ done, enumerate1 version_paths = done ++ rem ∧
         Forall2 (version_ok readable original_lines) (done.*2) acc)
    (λ used evs r, used = [] ∧ Forall reading evs ∧
       match r with
       | Next all_mappings =>
           Forall2 (version_ok readable original_lines)
                   version_paths all_mappings
       | Return code => code = 1
       | Raise e =>
           Fails e ∈ evs ∨
           ∃ path, Open path ∈ evs ∧ readable path = OpenRaises e
       end) (enumerate1 version_paths) [] [] []).
  - intros [i vpath] rem used evs acc (-> & Hevs & done & Hdone & Hacc).
    eapply io_spec_mono; [apply map_version_spec|].
    intros used' evs' [acc'|code|e] (-> & Hevs' & Hr); simpl.
    + destruct Hr as (mappings & Hok & ->). split; [done|].
      split; [by apply Forall_app|].
      exists (done ++ [(i, vpath)]). split; [by rewrite <- app_assoc|].
      rewrite fmap_app. apply Forall2_app; [done|]. by repeat constructor.
    + split; [done|]. split; [by apply Forall_app|done].
    + split; [done|]. split; [by apply Forall_app|].
      destruct Hr as [Hr|(path & Hin & Hpath)].
      * left. rewrite elem_of_app. auto.
      * right. exists path. rewrite elem_of_app. auto.
  - intros used evs acc (-> & Hevs & done & Hdone & Hacc).
    split; [done|]. split; [done|].
    rewrite app_nil_r in Hdone. by rewrite <- Hdone, snd_enumerate1 in Hacc.
  - split; [done|]. split; [done|]. exists []. split; [done|constructor].
Qed.

(** The handler of the [try] statement of [write_xml]. *)
Lemma caught_spec (line : str → event) (e : raised) :
  io_spec
    (match e with
     | OSErrorOf text => print (line text);; return_ 1
     | _ => raise e
     end)
    (λ used evs r, used = [] ∧ caught line e evs r).
Proof.
  destruct e; try (by apply io_spec_raise).
  apply io_spec_print_then.
  - apply io_spec_return. split; [done|]. by left.
  - intros e'. split; [done|]. right. by exists e'.
Qed.

Lemma caught_next line e evs x : ¬ caught line e evs (Next x).
Proof.
  destruct e; simpl; try (by intros [_ ?]). by intros [[_ ?]|(? & _ & ?)].
Qed.

Lemma caught_return line e evs code :
  caught line e evs (Return code) →
  code = 1 ∧ ∃ text, e = OSErrorOf text ∧ evs = [line text].
Proof.
  destruct e; simpl; try (by intros [_ ?]).
  intros [[-> [= <-]]|(? & _ & ?)]; [|done]. split; [done|]. by exists text.
Qed.


Lemma caught_printing line e evs r :
  (∀ text, printing (line text)) → caught line e evs r →
  Forall printing evs.
Proof.
  intros Hline. destruct e; simpl; try (intros [-> _]; constructor).
  intros [[-> _]|(? & -> & _)]; by repeat constructor.
Qed.

(** The [try] statement of [write_xml] up to its handler. *)
Lemma write_tree_spec writable name root closing :
  io_spec
    (match writable name root with
     | WriteOk => emit (Written name root)
     | WriteRaises touched e =>
         (if touched then emit (Touched name) else mret ());;
         raise e
     end;;
     print closing)
    (λ used evs r,
       used = [] ∧
       match writable name root with
       | WriteOk =>
           (evs = [Written name root; closing] ∧ r = Next ()) ∨
           (∃ e, evs = [Written name root; Fails e] ∧ r = Raise e)
       | WriteRaises touched e =>
           evs = (if touched then [Touched name] else []) ∧ r = Raise e
       end).
Proof.
  destruct (writable name root) as [|touched e].
  - apply io_spec_emit_then, io_spec_print.
    + split; [done|]. by left.
    + intros e. split; [done|]. right. by exists e.
  - eapply (io_spec_bind _ _ (λ used evs r,
      used = [] ∧ evs = (if touched then [Touched name] else []) ∧
      r = Raise e)).
    + destruct touched.
      * by apply io_spec_emit_then, io_spec_raise.
      * by apply io_spec_ret_bind, io_spec_raise.
    + by intros used evs x (_ & _ & [=]).
    + by intros used evs code (_ & _ & [=]).
    + by intros used evs e' (-> & -> & [= ->]).
Qed.

Lemma write_xml_spec writable test_name root :
  io_spec (write_xml writable test_name root)
          (λ used evs r, used = [] ∧ write_post writable test_name root evs r).
Proof.
  unfold write_xml, write_post. cbn zeta.
  set (name := output_filename test_name).
  set (failed := λ text : str,
         Stderr (lit "Error: Failed to write XML file: " ++ text)).
  eapply (io_spec_bind _ _ (λ used evs r,
    used = [] ∧
    ∃ evs_w evs_p, evs = evs_w ++ evs_p ∧
      match writable name root with
      | WriteOk =>
          evs_w = [Written name root] ∧
          ((evs_p = [Stdout (lit "XML mappings written to " ++ name)] ∧
            r = Next ()) ∨
           (∃ e evs_h, evs_p = Fails e :: evs_h ∧ caught failed e evs_h r))
      | WriteRaises touched e =>
          evs_w = (if touched then [Touched name] else []) ∧
          caught failed e evs_p r
      end)).
  - eapply io_spec_try_os; [apply write_tree_spec|..].
    + intros used evs r [-> Hr] Hnot. split; [done|].
      destruct (writable name root) as [|touched e].
      * exists [Written name root].
        destruct Hr as [[-> ->]|(e & -> & ->)].
        -- eexists. split; [done|]. split; [done|]. by left.
        -- exists [Fails e]. split; [done|]. split; [done|]. right.
           exists e, []. split; [done|].
           destruct e; try done. by destruct (Hnot text).
      * destruct Hr as [-> ->]. eexists _, []. rewrite app_nil_r.
        split; [done|]. split; [done|].
        destruct e; try done. by destruct (Hnot text).
    + intros used evs text [-> Hr].
      eapply io_spec_mono; [apply (caught_spec failed (OSErrorOf text))|].
      intros used' evs' r [-> Hc]. split; [done|].
      destruct (writable name root) as [|touched e].
      * destruct Hr as [[_ [=]]|(e & -> & [= <-])].
        exists [Written name root], (Fails (OSErrorOf text) :: evs').
        split; [done|]. split; [done|]. right. by exists (OSErrorOf text), evs'.
      * destruct Hr as [-> [= <-]]. by exists (if touched then [Touched name] else []), evs'.
  - intros used evs [] (-> & evs_w & evs_p & -> & Hw).
    apply io_spec_return. rewrite !app_nil_r. split; [done|].
    exists evs_w, evs_p. split; [done|].
    destruct (writable name root) as [|touched e].
    + destruct Hw as [-> [[-> _]|(e & evs_h & -> & Hc)]].
      * split; [done|]. by left.
      * by apply caught_next in Hc.
    + destruct Hw as [-> Hc]. by apply caught_next in Hc.
  - intros used evs code (-> & evs_w & evs_p & -> & Hw). split; [done|].
    exists evs_w, evs_p. split; [done|].
    destruct (writable name root) as [|touched e]; [|done].
    destruct Hw as [-> [[_ [=]]|Hc]]. split; [done|]. by right.
  - intros used evs e0 (-> & evs_w & evs_p & -> & Hw). split; [done|].
    exists evs_w, evs_p. split; [done|].
    destruct (writable name root) as [|touched e]; [|done].
    destruct Hw as [-> [[_ [=]]|Hc]]. split; [done|]. by right.
Qed.

(** The ways [read_lines] ends. *)
Lemma read_lines_cases readable path :
  io_spec (read_lines readable path) (λ used evs r,
    used = [] ∧ Forall reading evs ∧
    match r with
    | Next (Some lines) =>
        ∃ raw_lines, readable path = Lines raw_lines ∧
                     lines = map normalize_line raw_lines
    | Next None => ∃ text, readable path = OpenRaises (OSErrorOf text)
    | Return code => False
    | Raise e =>
        Fails e ∈ evs ∨ (Open path ∈ evs ∧ readable path = OpenRaises e)
    end ∧
    (∀ raw_lines, readable path = Lines raw_lines →
       r = Next (Some (map normalize_line raw_lines)))).
Proof.
  eapply io_spec_mono; [apply read_lines_spec|].
  intros used evs r [-> Hr]. split; [done|].
  destruct (readable path) as [raw|e].
  { destruct Hr as [-> ->]. split; [by repeat constructor|].
    split; [by exists raw|]. by intros ? [= <-]. }
  match goal with
  | |- ?A ∧ ?B ∧ ?C => cut (A ∧ B); [by intros [? ?]|]
  end.
  assert (Hcases :
    (evs = [Open path] ∧ r = Raise e) ∨
    (∃ text line, e = OSErrorOf text ∧ evs = [Open path; Stderr line] ∧
                  r = Next None) ∨
    (∃ e', evs = [Open path; Fails e'] ∧ r = Raise e')).
  { destruct e; try (by left).
    destruct Hr as [[-> ->]|(e' & -> & ->)].
    - right; left. by eexists _, _.
    - right; right. by exists e'. }
  destruct Hcases as [[-> ->]|[(text & line & -> & -> & ->)|(e' & -> & ->)]].
  - split; [by repeat constructor|]. right. split; [by left|done].
  - split; [by repeat constructor|]. by exists text.
  - split; [by repeat constructor|]. left. rewrite !elem_of_cons. auto.
Qed.

(** What is left of [main] of appFinal.py after the dialogue. *)
Lemma main_rest_spec basename readable writable
    original_path test_name version_paths :
  io_spec
    (original_lines ← read_lines readable original_path;
     match original_lines with
     | None => return_ 1
     | Some original_lines =>
         all_mappings ←
           for_io (map_version readable original_lines)
                  (enumerate1 version_paths) [];
         let root := build_xml basename test_name original_path
                       version_paths all_mappings in
         write_xml writable test_name root
     end)
    (λ used evs r,
       used = [] ∧
       rest_post basename readable writable
         original_path test_name version_paths evs r).
Proof.
  eapply io_spec_bind; [apply read_lines_cases|..].
  - intros used evs1 [original_lines|] (-> & Hevs1 & Hread & _).
    + destruct Hread as (raw & Hopen & ->).
      eapply io_spec_bind; [apply map_versions_spec|..].
      * intros used evs2 all_mappings (-> & Hevs2 & Hall). cbn zeta.
        eapply io_spec_mono; [apply write_xml_spec|].
        intros used evs3 r [-> Hwrite]. split; [done|].
        exists (evs1 ++ evs2), evs3. split; [by rewrite app_assoc|].
        split; [by apply Forall_app|]. right.
        exists all_mappings. split; [by exists raw|done].
      * intros used evs2 code (-> & Hevs2 & ->). split; [done|].
        exists (evs1 ++ evs2), []. rewrite app_nil_r.
        split; [done|]. split; [by apply Forall_app|]. left. auto.
      * intros used evs2 e (-> & Hevs2 & He). split; [done|].
        exists (evs1 ++ evs2), []. rewrite app_nil_r.
        split; [done|]. split; [by apply Forall_app|]. left.
        split; [done|]. right. exists e. split; [done|].
        destruct He as [He|(path & Hin & Hpath)].
        -- left. rewrite elem_of_app. auto.
        -- right. exists path. rewrite elem_of_app. auto.
    + apply io_spec_return. split; [done|].
      exists evs1, []. rewrite !app_nil_r.
      split; [done|]. split; [done|]. left. auto.
  - by intros used evs code (_ & _ & ? & _).
  - intros used evs e (-> & Hevs & He & _). split; [done|].
    exists evs, []. rewrite app_nil_r. split; [done|]. split; [done|].
    left. split; [done|]. right. exists e. split; [done|].
    destruct He as [He|[Hin Hpath]]; [by left|].
    right. by exists original_path.
Qed.

Lemma main_spec py_int basename readable writable :
  io_spec (main py_int basename readable writable)
          (main_post py_int basename readable writable).
Proof.
  unfold main. eapply io_spec_bind; [apply ask_inputs_spec|..].
  - intros used evs1 [[original_path test_name] version_paths] [Hevs1 Hd].
    eapply io_spec_mono; [apply main_rest_spec|].
    intros used' evs r [-> Hrest]. rewrite app_nil_r.
    exists evs1, evs. split; [done|]. split; [done|]. right.
    by exists original_path, test_name, version_paths.
  - intros used evs code [Hevs ->]. exists evs, []. rewrite app_nil_r.
    split; [done|]. split; [done|]. left. auto.
  - intros used evs e [Hevs He]. exists evs, []. rewrite app_nil_r.
    split; [done|]. split; [done|]. left. split; [done|]. right. by exists e.
Qed.

Lemma asking_not_written evs :
  Forall asking evs → Forall (λ e, ¬ is_written e) evs.
Proof.
  intros H. eapply Forall_impl; [exact H|]. intros []; simpl; tauto.
Qed.

Lemma reading_not_written evs :
  Forall reading evs → Forall (λ e, ¬ is_written e) evs.
Proof.
  intros H. eapply Forall_impl; [exact H|]. intros []; simpl; tauto.
Qed.

Lemma printing_not_written evs :
  Forall printing evs → Forall (λ e, ¬ is_written e) evs.
Proof.
  intros H. eapply Forall_impl; [exact H|]. intros []; simpl; tauto.
Qed.



(** The events of [write_xml]: at most one on the output file, then
    printing. *)
Lemma write_post_events writable test_name root evs r :
  write_post writable test_name root evs r →
  ∃ evs_w evs_p,
    evs = evs_w ++ evs_p ∧ Forall printing evs_p ∧
    match writable (output_filename test_name) root with
    | WriteOk => evs_w = [Written (output_filename test_name) root]
    | WriteRaises touched e =>
        evs_w = if touched then [Touched (output_filename test_name)] else []
    end.
Proof.
  intros (evs_w & evs_p & -> & Hw). exists evs_w, evs_p. split; [done|].
  destruct (writable _ root) as [|touched e].
  - destruct Hw as [-> [[-> _]|(e & evs_h & -> & Hc)]].
    + split; [by repeat constructor|done].
    + split; [|done]. constructor; [done|].
      by eapply caught_printing; [|exact Hc].
  - destruct Hw as [-> Hc]. split; [|done].
    by eapply caught_printing; [|exact Hc].
Qed.

(** [write_xml] returns 0 only when the tree was written and the closing
    message printed. *)
Lemma write_post_success writable test_name root evs :
  write_post writable test_name root evs (Return 0) →
  writable (output_filename test_name) root = WriteOk ∧
  evs = [Written (output_filename test_name) root;
         Stdout (lit "XML mappings written to " ++ output_filename test_name)].
Proof.
  intros (evs_w & evs_p & -> & Hw).
  destruct (writable _ root) as [|touched e].
  - destruct Hw as [-> [[-> _]|(e & evs_h & -> & Hc)]]; [done|].
    by apply caught_return in Hc as [? _].
  - destruct Hw as [_ Hc]. by apply caught_return in Hc as [? _].
Qed.


(** X21 (end to end): when main returns 0, the lines it took from standard
    input are those of a successful dialogue: the path of the original, the
    run name, the number of versions and one path for each version, in the
    order they were typed; the original and every version could be read at
    these paths; and the last thing main did before its closing message was
    to write, to the file named by the sanitised run name, the tree that
    build_xml makes of the run name, of these paths and of the results of
    map_lines on the normalised lines of the original and of each version,
    in the order of the paths. Before that, nothing was written. *)
Theorem main_success py_int basename readable writable w :
  (main py_int basename readable writable w).2 = Return 0 →
  ∃ used original_path test_name version_paths all_mappings evs,
    stdin w = used ++ stdin (main py_int basename readable writable w).1 ∧
    dialogue py_int used original_path test_name version_paths ∧
    all_read readable original_path version_paths all_mappings ∧
    writable (output_filename test_name)
      (build_xml basename test_name original_path version_paths
         all_mappings) = WriteOk ∧
    Forall (λ e, ¬ is_written e) evs ∧
    trace (main py_int basename readable writable w).1 =
      trace w ++ evs ++
      [Written (output_filename test_name)
         (build_xml basename test_name original_path version_paths
            all_mappings);
       Stdout (lit "XML mappings written to " ++ output_filename test_name)].
Proof.
  intros Hret.
  destruct (main_spec py_int basename readable writable w)
    as (used & evs & Hin & Htr & evs1 & evs' & -> & Hevs1 & Hcase).
  rewrite Hret in Hcase.
  destruct Hcase as [[_ [[=]|(e & [=] & _)]]|(o & t & vps & Hd & Hrest)].
  destruct Hrest as (evs2 & evs3 & -> & Hevs2 & Hrest).
  destruct Hrest as [[_ [[=]|(e & [=] & _)]]|(am & Hall & Hwrite)].
  apply write_post_success in Hwrite as [Hok ->].
  exists used, o, t, vps, am, (evs1 ++ evs2).
  split_and!; [done..| |by rewrite Htr, <- !app_assoc].
  apply Forall_app.
  by split; [apply asking_not_written|apply reading_not_written].
Qed.


(** X23: main changes its output file at most once, and last of all but
    printing: only after the dialogue has succeeded and the original and
    every version have been read does it create or write the file named by
    the sanitised run name, and after that it only prints. When main
    returns 0, what it did to the file was to write the whole tree. *)
Theorem main_writes_last py_int basename readable writable w :
  ∃ evs evs_w evs_p,
    trace (main py_int basename readable writable w).1
      = trace w ++ evs ++ evs_w ++ evs_p ∧
    Forall (λ e, ¬ is_written e) evs ∧
    Forall printing evs_p ∧
    (evs_w = [] ∨
     ∃ used original_path test_name version_paths all_mappings,
       stdin w = used ++ stdin (main py_int basename readable writable w).1 ∧
       dialogue py_int used original_path test_name version_paths ∧
       all_read readable original_path version_paths all_mappings ∧
       ((evs_w = [Written (output_filename test_name)
                    (build_xml basename test_name original_path
                       version_paths all_mappings)] ∧
         writable (output_filename test_name)
           (build_xml basename test_name original_path version_paths
              all_mappings) = WriteOk) ∨
        (evs_w = [Touched (output_filename test_name)] ∧
         ∃ e, writable (output_filename test_name)
                (build_xml basename test_name original_path version_paths
                   all_mappings) = WriteRaises true e))) ∧
    ((main py_int basename readable writable w).2 = Return 0 →
     ∃ name root, evs_w = [Written name root]).
Proof.
  destruct (main_spec py_int basename readable writable w)
    as (used & evs & Hin & Htr & evs1 & evs' & -> & Hevs1 & Hcase).
  destruct Hcase as [[-> Hr]|(o & t & vps & Hd & Hrest)].
  { exists evs1, [], []. rewrite !app_nil_r in *.
    split_and!; [done|by apply asking_not_written|done|by left|].
    intros Hret. rewrite Hret in Hr.
    by destruct Hr as [[=]|(e & [=] & _)]. }
  destruct Hrest as (evs2 & evs3 & -> & Hevs2 & Hrest).
  assert (Hbefore : Forall (λ e, ¬ is_written e) (evs1 ++ evs2)).
  { apply Forall_app.
    by split; [apply asking_not_written|apply reading_not_written]. }
  destruct Hrest as [[-> Hr]|(am & Hall & Hwrite)].
  { exists (evs1 ++ evs2), [], []. rewrite !app_nil_r in *.
    split_and!; [done..|by left|].
    intros Hret. rewrite Hret in Hr.
    by destruct Hr as [[=]|(e & [=] & _)]. }
  destruct (write_post_events _ _ _ _ _ Hwrite)
    as (evs_w & evs_p & -> & Hevs_p & Hw).
  exists (evs1 ++ evs2), evs_w, evs_p.
  split; [by rewrite Htr, <- !app_assoc|]. split; [done|]. split; [done|].
  split.
  - destruct (writable _ _) as [|[] e] eqn:Hout.
    + right. exists used, o, t, vps, am. split_and!; [done..|]. by left.
    + right. exists used, o, t, vps, am. split_and!; [done..|].
      right. split; [done|]. by exists e.
    + by left.
  - intros Hret. rewrite Hret in Hwrite.
    apply write_post_success in Hwrite as [Hok Heq].
    rewrite Hok in Hw. by eexists _, _.
Qed.


Lemma main_success_witness :
  let py_int := λ s : str, if bool_decide (s = lit "1") then Some 1 else None in
  let readable := λ p : str,
    if bool_decide (p = lit "o.c")
    then Lines [lit "A" ++ ["010"%char]; lit "B // b" ++ ["010"%char]]
    else Lines [lit "A" ++ ["010"%char]] in
  let writable := λ (_ : str) (_ : element), WriteOk in
  let w := World [Typed (lit "o.c"); Typed (lit " T1 "); Typed (lit "1");
                  Typed (lit "v.c")] [] [] in
  (main py_int id readable writable w).2 = Return 0 ∧
  ∃ used original_path test_name version_paths all_mappings evs,
    stdin w = used ++ stdin (main py_int id readable writable w).1 ∧
    dialogue py_int used original_path test_name version_paths ∧
    all_read readable original_path version_paths all_mappings ∧
    writable (output_filename test_name)
      (build_xml id test_name original_path version_paths all_mappings)
      = WriteOk ∧
    Forall (λ e, ¬ is_written e) evs ∧
    trace (main py_int id readable writable w).1 =
      trace w ++ evs ++
      [Written (output_filename test_name)
         (build_xml id test_name original_path version_paths all_mappings);
       Stdout (lit "XML mappings written to " ++ output_filename test_name)].
Proof.
  intros py_int readable writable w.
  assert (H : (main py_int id readable writable w).2 = Return 0)
    by (vm_compute; reflexivity).
  split; [exact H|].
  exact (main_success py_int id readable writable w H).
Defined.

(** ** main of appVersion2.py *)

Lemma v2_map_lines_none {A} `{EqDecision A} (original_lines new_lines : list A) :
  V2.map_lines original_lines new_lines = V2.Ok V2.PyNone.
Proof.
  unfold V2.map_lines.
  by destruct (build_dp_ok original_lines new_lines) as (dp & -> & _).
Qed.

(** A pass of the loop over the versions never reaches its end. *)
Lemma v2_map_version_spec readable original_lines i vpath all_mappings :
  io_spec (V2Run.map_version readable original_lines (i, vpath) all_mappings)
    (λ used evs r,
       used = [] ∧ Forall reading evs ∧
       match r with
       | Next _ => False
       | Return code => code = 1
       | Raise e => True
       end ∧
       (∀ raw_lines, readable vpath = Lines raw_lines → r = Raise TypeError)).
Proof.
  unfold V2Run.map_version.
  eapply io_spec_bind; [apply read_lines_cases|..].
  - intros used evs [new_lines|] (-> & Hevs & Hread & _).
    + rewrite v2_map_lines_none. simpl.
      apply io_spec_ret_bind. simpl. apply io_spec_raise_bind.
      rewrite !app_nil_r. by split_and!.
    + destruct Hread as [text Hopen]. apply io_spec_return.
      rewrite !app_nil_r. split_and!; [done..|]. intros raw. by rewrite Hopen.
  - by intros used evs code (_ & _ & ? & _).
  - intros used evs e (-> & Hevs & _ & Hlines). split_and!; [done..|].
    intros raw Hopen. by specialize (Hlines raw Hopen).
Qed.

Lemma v2_map_versions_spec readable original_lines vpath version_paths :
  io_spec (for_io (V2Run.map_version readable original_lines)
             (enumerate1 (vpath :: version_paths)) [])
    (λ used evs r,
       used = [] ∧ Forall reading evs ∧
       match r with
       | Next _ => False
       | Return code => code = 1
       | Raise e => True
       end ∧
       (∀ raw_lines, readable vpath = Lines raw_lines → r = Raise TypeError)).
Proof.
  change (enumerate1 (vpath :: version_paths))
    with ((1, vpath) ::
          zip (map (λ k, Z.of_nat k) (seq 2 (length version_paths)))
              version_paths).
  cbn [for_io].
  eapply io_spec_bind; [apply v2_map_version_spec|..].
  - by intros used evs acc (_ & _ & ? & _).
  - by intros used evs code.
  - by intros used evs e.
Qed.

(** What is left of [main] of appVersion2.py after the dialogue. *)
Lemma v2_main_rest_spec basename readable writable
    original_path test_name vpath version_paths :
  io_spec
    (original_lines ← read_lines readable original_path;
     match original_lines with
     | None => return_ 1
     | Some original_lines =>
         all_mappings ←
           for_io (V2Run.map_version readable original_lines)
                  (enumerate1 (vpath :: version_paths)) [];
         root ← V2Run.lift (V2Run.build_xml basename test_name original_path
                              (vpath :: version_paths) all_mappings);
         write_xml writable test_name root
     end)
    (λ used evs r,
       used = [] ∧ Forall reading evs ∧
       match r with
       | Next _ => False
       | Return code => code = 1
       | Raise e => True
       end ∧
       (∀ raw_lines raw_lines',
          readable original_path = Lines raw_lines →
          readable vpath = Lines raw_lines' → r = Raise TypeError)).
Proof.
  eapply io_spec_bind; [apply read_lines_cases|..].
  - intros used evs1 [original_lines|] (-> & Hevs1 & Hread & _).
    + eapply io_spec_bind; [apply v2_map_versions_spec|..].
      * by intros used evs acc (_ & _ & ? & _).
      * intros used evs code (-> & Hevs & -> & Hlines).
        split_and!; [done|by apply Forall_app|done|].
        intros raw raw' _ Hv. by specialize (Hlines raw' Hv).
      * intros used evs e (-> & Hevs & _ & Hlines).
        split_and!; [done|by apply Forall_app|done|].
        intros raw raw' _ Hv. by injection (Hlines raw' Hv) as ->.
    + destruct Hread as [text Hopen]. apply io_spec_return.
      rewrite !app_nil_r. split_and!; [done..|].
      intros raw raw'. by rewrite Hopen.
  - by intros used evs code (_ & _ & ? & _).
  - intros used evs e (-> & Hevs & _ & Hlines). split_and!; [done..|].
    intros raw raw' Ho _. by specialize (Hlines raw Ho).
Qed.

Lemma v2_main_spec py_int basename readable writable :
  io_spec (V2Run.main py_int basename readable writable) (λ used evs r,
    Forall (λ e, ¬ is_written e) evs ∧
    match r with
    | Next _ => False
    | Return code => code = 1
    | Raise e => True
    end).
Proof.
  unfold V2Run.main. eapply io_spec_bind; [apply ask_inputs_spec|..].
  2: { intros used evs code [Hevs ->]. by split; [apply asking_not_written|]. }
  2: { intros used evs e [Hevs _]. by split; [apply asking_not_written|]. }
  intros used evs1 [[original_path test_name] version_paths]
         (Hevs1%asking_not_written & Hd).
  destruct Hd as (l1 & l2 & l3 & lines & _ & _ & _ & _ & _ & Hpos & -> & _).
  destruct lines as [|line lines]; [done|].
  eapply io_spec_mono; [apply v2_main_rest_spec|].
  intros used' evs r (-> & Hevs%reading_not_written & Hr & _).
  split; [by apply Forall_app|done].
Qed.

(** X25: main of appVersion2.py never succeeds: whatever is typed,
    whatever the files hold and whatever input, print and the file system
    do, it does not return 0 (it returns 1 or ends with an exception) and
    it neither creates nor writes an output file. *)
Theorem v2_main_never_succeeds py_int basename readable writable w :
  let r := (V2Run.main py_int basename readable writable w).2 in
  r ≠ Return 0 ∧
  (r = Return 1 ∨ ∃ e, r = Raise e) ∧
  ∃ evs, trace (V2Run.main py_int basename readable writable w).1
           = trace w ++ evs ∧
         Forall (λ e, ¬ is_written e) evs.
Proof.
  destruct (v2_main_spec py_int basename readable writable w)
    as (used & evs & _ & Htr & Hevs & Hr).
  cbn zeta. destruct (V2Run.main py_int basename readable writable w).2
    as [[]|code|e]; [done|subst code|].
  - split; [done|]. split; [auto|]. by exists evs.
  - split; [done|]. split; [|by exists evs]. right. by exists e.
Qed.

(** X26: when the dialogue of main of appVersion2.py has succeeded and the
    original file and the first version file can be read, main ends with a
    TypeError. *)
Theorem v2_main_type_error py_int basename readable writable w w1
    original_path test_name version_paths :
  ask_inputs py_int w = (w1, Next (original_path, test_name, version_paths)) →
  (∃ raw_lines, readable original_path = Lines raw_lines) →
  (∀ vpath, head version_paths = Some vpath →
     ∃ raw_lines, readable vpath = Lines raw_lines) →
  (V2Run.main py_int basename readable writable w).2 = Raise TypeError.
Proof.
  intros Hask [raw Ho] Hv.
  destruct (ask_inputs_spec py_int w) as (used & evs1 & _ & _ & _ & Hd).
  rewrite Hask in Hd. simpl in Hd.
  destruct Hd as (l1 & l2 & l3 & lines & _ & _ & _ & _ & _ & Hpos & Hvps & _).
  destruct lines as [|line lines]; [done|]. simpl in Hvps.
  destruct version_paths as [|vpath version_paths]; [done|].
  destruct (Hv vpath eq_refl) as [raw' Hv'].
  unfold V2Run.main. rewrite (bind_next _ _ _ _ _ Hask).
  destruct (v2_main_rest_spec basename readable writable
              original_path test_name vpath version_paths w1)
    as (used' & evs & _ & _ & _ & _ & _ & Hr).
  exact (Hr raw raw' Ho Hv').
Qed.

Lemma v2_main_type_error_witness :
  let py_int := λ s : str, if bool_decide (s = lit "1") then Some 1 else None in
  let readable := λ _ : str, Lines [lit "A" ++ ["010"%char]] in
  let writable := λ (_ : str) (_ : element), WriteOk in
  let w := World [Typed (lit "o.c"); Typed (lit "T1"); Typed (lit "1");
                  Typed (lit "v.c")] [] [] in
  (∃ w1, ask_inputs py_int w = (w1, Next (lit "o.c", lit "T1", [lit "v.c"]))) ∧
  (V2Run.main py_int id readable writable w).2 = Raise TypeError.
Proof.
  intros py_int readable writable w.
  assert (H : ∃ w1, ask_inputs py_int w
                    = (w1, Next (lit "o.c", lit "T1", [lit "v.c"])))
    by (eexists; vm_compute; reflexivity).
  split; [exact H|]. destruct H as [w1 H].
  apply (v2_main_type_error py_int id readable writable w w1 _ _ _ H).
  - by eexists.
  - intros vpath _. by eexists.
Defined.
